(** * sat-qecc: the CNF compiler and the distance search of release.ipynb

    A shallow embedding of the notebook's executable core: [xor] and [pwt]
    (parity gates), [sat_distance] (validation, clause construction, oracle
    call, post-condition checks), [check_proof] and [find_weight]; then the
    code constructors [IBM_parity_checks] and [Toric_parity_checks] and the
    notebook's evaluation of clauses on a bit list.

    Python integers are [Z]; a literal is a non-zero [Z], a clause a list of
    literals.  A raised exception is a value of [outcome]; printing, display
    and the calls to the external services (row reduction, cardinality
    encoder, solver, proof checker) are recorded in an event trace. *)

From Stdlib Require Import ZArith List Bool Lia Ascii String.
Import ListNotations.
Open Scope Z_scope.

(** ** Exceptions and results *)

Inductive exn : Type :=
| AssertionError
| TypeError
| ValueError
| IndexError.

(** [OutOfFuel] is not a Python behaviour: it marks a run of the model whose
    recursion budget was too small.  The adequacy lemmas below show that the
    budgets used by [pwt] and [find_weight] are never exhausted. *)
Inductive outcome (A : Type) : Type :=
| Ret (a : A)
| Raise (e : exn)
| OutOfFuel.

Arguments Ret {A} a.
Arguments Raise {A} e.
Arguments OutOfFuel {A}.

Definition obind {A B : Type} (m : outcome A) (f : A -> outcome B) : outcome B :=
  match m with
  | Ret a => f a
  | Raise e => Raise e
  | OutOfFuel => OutOfFuel
  end.

Definition py_assert (b : bool) : outcome unit :=
  if b then Ret tt else Raise AssertionError.

Declare Scope outcome_scope.
Delimit Scope outcome_scope with outcome.
Notation "x <- m ;; k" := (obind m (fun x => k))
  (at level 61, m at next level, right associativity) : outcome_scope.
Notation "' pat <- m ;; k" := (obind m (fun x => match x with pat => k end))
  (at level 61, pat pattern, m at next level, right associativity) : outcome_scope.
Notation "'assert!' b ;; k" := (obind (py_assert b) (fun _ => k))
  (at level 61, b at next level, right associativity) : outcome_scope.

(** ** Literals, clauses and their meaning *)

Definition clause : Type := list Z.

(** Python's [len], [h[i]], [h[:i]] and [h[i:]] for [0 <= i]. *)
Definition len {A : Type} (l : list A) : Z := Z.of_nat (List.length l).
Definition item (h : list Z) (i : nat) : Z := nth i h 0.
Definition upto {A : Type} (i : nat) (l : list A) : list A := firstn i l.
Definition from {A : Type} (i : nat) (l : list A) : list A := skipn i l.

Arguments len : simpl never.
Arguments upto : simpl never.
Arguments from : simpl never.

(** An assignment gives every variable index a truth value; the notebook's
    [test_condition] reads a positive literal as the variable, a negative one
    as its negation, and the literal 0 as true. *)
Definition assignment : Type := Z -> bool.

Definition test_condition (a : assignment) (l : Z) : bool :=
  if 0 <? l then a l
  else if l =? 0 then true
  else negb (a (- l)).

Definition bit_string_or (a : assignment) (c : clause) : bool :=
  existsb (test_condition a) c.

Definition bit_string_satisfies (a : assignment) (cs : list clause) : bool :=
  forallb (bit_string_or a) cs.

(** Parity of the truth values of a list of literals. *)
Definition parity (a : assignment) (h : list Z) : bool :=
  fold_right xorb false (map (test_condition a) h).

(** ** The parity gate compiler *)

Module Gate.

Local Open Scope outcome_scope.

(** [xor(y,x1,x2)]: the four clauses of y = x1 (+) x2. *)
Definition xor (y x1 x2 : Z) : outcome (list clause) :=
  assert! negb (y * x1 * x2 =? 0) ;;
  Ret [[- y; - x1; - x2]; [- y; x1; x2]; [y; x1; - x2]; [y; - x1; x2]].

(** [pwt(h,idx,num_vars)].  The recursion is on halves of [h], so the model
    carries a recursion budget.  The entry assertion on the elements of [h]
    reads [isinstance(el,int) and h!=0]: it compares the list, not the
    element, with 0 and so holds for every list of integers. *)
Fixpoint pwt_fuel (fuel : nat) (h : list Z) (idx num_vars : Z)
  : outcome (list clause * Z) :=
  match fuel with
  | O => OutOfFuel
  | S fuel =>
      assert! (0 <? len h) ;;
      assert! (0 <? idx) ;;
      assert! (0 <? num_vars) ;;
      if len h =? 2 then
        new_cons <- xor idx (item h 0) (item h 1) ;;
        Ret (new_cons, 0)
      else if len h =? 3 then
        new_cons <- xor idx (item h 2) (num_vars + 1) ;;
        '(nc, na) <- pwt_fuel fuel (upto 2 h) (num_vars + 1) (num_vars + 1) ;;
        Ret (new_cons ++ nc, 1 + na)
      else
        let v1 := num_vars + 1 in
        let v2 := num_vars + 2 in
        new_cons <- xor idx v1 v2 ;;
        let B := upto (List.length h / 2) h in
        let C := from (List.length h / 2) h in
        '(nc, na) <- pwt_fuel fuel B v1 (num_vars + 2) ;;
        '(nc', na') <- pwt_fuel fuel C v2 (num_vars + 2 + na) ;;
        Ret ((new_cons ++ nc) ++ nc', 2 + na + na')
  end.

(** A call on [h] nests at most [length h] deep (the empty half of a
    one-element list is the deepest case relative to the length). *)
Definition pwt (h : list Z) (idx num_vars : Z) : outcome (list clause * Z) :=
  pwt_fuel (S (List.length h)) h idx num_vars.

End Gate.

Import Gate.

(** The three ways a call of [pwt] returns. *)
Inductive pwt_case (fuel : nat) (h : list Z) (idx num_vars : Z)
  (cs : list clause) (na : Z) : Prop :=
| pwt_two (x1 x2 : Z)
    (Hh : h = [x1; x2])
    (Hx : xor idx x1 x2 = Ret cs)
    (Hna : na = 0)
| pwt_three (x1 x2 x3 : Z) (xc nc : list clause) (na0 : Z)
    (Hh : h = [x1; x2; x3])
    (Hx : xor idx x3 (num_vars + 1) = Ret xc)
    (Hrec : pwt_fuel fuel [x1; x2] (num_vars + 1) (num_vars + 1) = Ret (nc, na0))
    (Hcs : cs = xc ++ nc)
    (Hna : na = 1 + na0)
| pwt_split (xc nc1 nc2 : list clause) (na1 na2 : Z)
    (Hlen : len h <> 2 /\ len h <> 3)
    (Hx : xor idx (num_vars + 1) (num_vars + 2) = Ret xc)
    (HB : pwt_fuel fuel (upto (List.length h / 2) h) (num_vars + 1)
            (num_vars + 2) = Ret (nc1, na1))
    (HC : pwt_fuel fuel (from (List.length h / 2) h) (num_vars + 2)
            (num_vars + 2 + na1) = Ret (nc2, na2))
    (Hcs : cs = (xc ++ nc1) ++ nc2)
    (Hna : na = 2 + na1 + na2).


(** Overwriting one variable of an assignment. *)
Definition upd (a : assignment) (v : Z) (b : bool) : assignment :=
  fun u => if u =? v then b else a u.


(** ** Arrays and event traces *)

(** A numpy 2-D integer array: its column count and its rows. *)
Record ndarray : Type := mk_ndarray { ncols : nat; rows : list (list Z) }.

Definition nrows (m : ndarray) : nat := List.length (rows m).

(** What a call does besides computing: calls of the external services,
    printing and display, in program order. *)
Inductive event : Type :=
| EvReduce (m : ndarray)
| EvAtmost (lits : list Z) (bound top_id : Z)
| EvSolver (constraints : list clause) (with_proof : bool)
| EvSolve
| EvGetModel
| EvGetProof
| EvDelete
| EvDrup (cnf proof2 : list clause)
| EvDisplay (weight : Z) (letter : string) (support : list Z)
| EvPrint (s : string)
| EvPrintProof (proof : option (list string)).

Definition M (A : Type) : Type := (outcome A * list event)%type.

Definition mret {A : Type} (a : A) : M A := (Ret a, []).

Definition mbind {A B : Type} (m : M A) (f : A -> M B) : M B :=
  match m with
  | (Ret a, t) => let (o, t') := f a in (o, t ++ t')
  | (Raise e, t) => (Raise e, t)
  | (OutOfFuel, t) => (OutOfFuel, t)
  end.

Definition lift {A : Type} (o : outcome A) : M A := (o, []).
Definition emit (e : event) : M unit := (Ret tt, [e]).
Definition massert (b : bool) : M unit := lift (py_assert b).

Declare Scope trace_scope.
Delimit Scope trace_scope with trace.
Notation "x <- m ;; k" := (mbind m (fun x => k))
  (at level 61, m at next level, right associativity) : trace_scope.
Notation "' pat <- m ;; k" := (mbind m (fun x => match x with pat => k end))
  (at level 61, pat pattern, m at next level, right associativity) : trace_scope.
Notation "m ;;; k" := (mbind m (fun _ => k))
  (at level 61, right associativity) : trace_scope.

(** ** numpy operations used by the notebook *)

Module Np.

(** [not np.any(m - m*m)]: every entry is 0 or 1. *)
Definition is_binary (m : ndarray) : bool :=
  negb (existsb (existsb (fun x => negb (x - x * x =? 0))) (rows m)).

Definition dot (u v : list Z) : Z :=
  fold_right Z.add 0 (map (fun p => fst p * snd p) (combine u v)).

Definition column (m : ndarray) (j : nat) : list Z :=
  map (fun r => nth j r 0) (rows m).

Definition transpose (m : ndarray) : ndarray :=
  {| ncols := nrows m; rows := map (column m) (seq 0 (ncols m)) |}.

(** [a @ b]; numpy raises ValueError when the inner dimensions differ. *)
Definition matmul (a b : ndarray) : outcome ndarray :=
  if (ncols a =? nrows b)%nat then
    Ret {| ncols := ncols b;
           rows := map (fun r => map (fun j => dot r (column b j)) (seq 0 (ncols b)))
                       (rows a) |}
  else Raise ValueError.

(** [m @ v] for a 1-D [v]. *)
Definition matvec (m : ndarray) (v : list Z) : outcome (list Z) :=
  if (ncols m =? List.length v)%nat then Ret (map (fun r => dot r v) (rows m))
  else Raise ValueError.

Definition mod2 (m : ndarray) : ndarray :=
  {| ncols := ncols m; rows := map (map (fun x => x mod 2)) (rows m) |}.

Definition any (m : ndarray) : bool :=
  existsb (existsb (fun x => negb (x =? 0))) (rows m).

(** [m[:rk, rk:]]. *)
Definition block (m : ndarray) (rk : nat) : ndarray :=
  {| ncols := ncols m - rk; rows := map (from rk) (upto rk (rows m)) |}.

Definition row_eqb (u v : list Z) : bool :=
  (List.length u =? List.length v)%nat
  && forallb (fun p => fst p =? snd p) (combine u v).

(** [(a == b).all()] for arrays of one shape; arrays whose shapes differ
    are reported as ValueError (numpy refuses to broadcast them, except when
    a dimension is 1, which the row reduction never returns here). *)
Definition all_equal (a b : ndarray) : outcome bool :=
  if (ncols a =? ncols b)%nat && (nrows a =? nrows b)%nat then
    Ret (forallb (fun p => row_eqb (fst p) (snd p)) (combine (rows a) (rows b)))
  else Raise ValueError.

(** [a[idx]]. *)
Definition row (a : ndarray) (idx : nat) : outcome (list Z) :=
  match nth_error (rows a) idx with
  | Some r => Ret r
  | None => Raise IndexError
  end.

(** [u + v] on 1-D operands, with numpy's broadcasting of a length-1 operand. *)
Definition add (u v : list Z) : outcome (list Z) :=
  if (List.length u =? List.length v)%nat then
    Ret (map (fun p => fst p + snd p) (combine u v))
  else match u, v with
       | [x], _ => Ret (map (fun y => x + y) v)
       | _, [y] => Ret (map (fun x => x + y) u)
       | _, _ => Raise ValueError
       end.

(** [np.sum(np.mod(v,2))]. *)
Definition sum_mod2 (v : list Z) : Z :=
  fold_right Z.add 0 (map (fun x => x mod 2) v).

End Np.

(** [range(a,b)] and [[i+1 for i,j in enumerate(row) if j]]. *)
Definition range (a b : Z) : list Z :=
  map (fun i => a + Z.of_nat i) (seq 0 (Z.to_nat (b - a))).

Fixpoint ones_from (i : Z) (row : list Z) : list Z :=
  match row with
  | [] => []
  | j :: t => if j =? 0 then ones_from (i + 1) t else (i + 1) :: ones_from (i + 1) t
  end.

Definition ones (row : list Z) : list Z := ones_from 0 row.

(** [for idx in range(k): s = body(idx, s)]. *)
Fixpoint for_each {St : Type} (idxs : list nat) (body : nat -> St -> outcome St) (s : St)
  : outcome St :=
  match idxs with
  | [] => Ret s
  | idx :: rest => obind (body idx s) (for_each rest body)
  end.

Definition for_range {St : Type} (k : nat) (body : nat -> St -> outcome St) (s : St)
  : outcome St :=
  for_each (seq 0 k) body s.

(** [[i>0 for i in model[:n]]], [sum(result)] and the 0/1 vector numpy makes
    of a list of booleans. *)
Definition positive_bits (n : nat) (model : list Z) : list bool :=
  map (fun i => 0 <? i) (upto n model).

Definition as_ints (bs : list bool) : list Z :=
  map (fun b : bool => if b then 1 else 0) bs.

Definition py_sum (bs : list bool) : Z := fold_right Z.add 0 (as_ints bs).

(** ** The external services *)

(** [reduced_row_echelon] (ldpc.mod2) returns the reduced matrix, its rank
    and the row and column transforms; [atmost] is CardEnc.atmost with the
    seqcounter encoding and returns cnf.clauses; [g_solve], [g_get_model] and
    [g_get_proof] are the Glucose42 session created on the given clauses;
    [drup_check_proof] is drup.check_proof, whose result tells whether the
    proof is valid and which raises on input it cannot format. *)
Inductive verdict : Type :=
| Valid
| Invalid
| Unformatted (e : exn).

Record services : Type := mk_services {
  reduced_row_echelon : ndarray -> ndarray * nat * ndarray * ndarray;
  atmost : list Z -> Z -> Z -> list clause;
  g_solve : list clause -> bool;
  g_get_model : list clause -> list Z;
  g_get_proof : list clause -> bool -> option (list string);
  drup_check_proof : list clause -> list clause -> verdict
}.

(** ** Strings of a refutation certificate *)

Module Str.

Definition is_space (c : ascii) : bool := Ascii.eqb c " "%char.

(** [s.split(' ')]: every single space separates two fields. *)
Fixpoint split (s : string) : list string :=
  match s with
  | EmptyString => [EmptyString]
  | String c s' =>
      if is_space c then EmptyString :: split s'
      else match split s' with
           | w :: ws => String c w :: ws
           | [] => [String c EmptyString]
           end
  end.

Definition digit (c : ascii) : option Z :=
  let n := Z.of_nat (nat_of_ascii c) in
  if (48 <=? n) && (n <=? 57) then Some (n - 48) else None.

Fixpoint digits (s : string) (acc : Z) : option Z :=
  match s with
  | EmptyString => Some acc
  | String c s' =>
      match digit c with
      | Some d => digits s' (10 * acc + d)
      | None => None
      end
  end.

Definition unsigned (s : string) : option Z :=
  match s with
  | EmptyString => None
  | _ => digits s 0
  end.

(** [int(s)] on the signed decimal numerals a solver prints; any other
    string is reported as ValueError. *)
Definition int (s : string) : outcome Z :=
  let r := match s with
           | String "-"%char rest => option_map Z.opp (unsigned rest)
           | String "+"%char rest => unsigned rest
           | _ => unsigned s
           end in
  match r with
  | Some z => Ret z
  | None => Raise ValueError
  end.

End Str.

Fixpoint map_outcome {A B : Type} (f : A -> outcome B) (l : list A) : outcome (list B) :=
  match l with
  | [] => Ret []
  | x :: t => obind (f x) (fun y => obind (map_outcome f t) (fun ys => Ret (y :: ys)))
  end.

(** ** sat_distance, check_proof and find_weight *)

Module Distance.

Local Open Scope trace_scope.

(** [[[int(l) for l in c.split(' ')[:-1]] for c in proof if c[0]!="d"]]. *)
Fixpoint convert_proof (proof : list string) : outcome (list clause) :=
  match proof with
  | [] => Ret []
  | c :: rest =>
      match c with
      | EmptyString => Raise IndexError
      | String c0 _ =>
          if Ascii.eqb c0 "d"%char then convert_proof rest
          else obind (map_outcome Str.int (removelast (Str.split c)))
                 (fun lits => obind (convert_proof rest)
                    (fun more => Ret (lits :: more)))
      end
  end.

(** [check_proof(proof,cnf)].  The value of drup.check_proof is dropped and
    the function ends in [return True].  A [proof] of None (no certificate
    recorded) cannot be iterated: TypeError. *)
Definition check_proof (sv : services) (proof : option (list string))
  (cnf : list clause) : M bool :=
  emit (EvPrint "Proof of no solution:") ;;;
  emit (EvPrintProof proof) ;;;
  match proof with
  | None => lift (Raise TypeError)
  | Some lines =>
      proof2 <- lift (convert_proof lines) ;;
      emit (EvDrup cnf proof2) ;;;
      match drup_check_proof sv cnf proof2 with
      | Unformatted e => lift (Raise e)
      | Valid | Invalid => mret true
      end
  end.

(** Lines 171-178: the checks on the caller's matrices; returns n. *)
Definition validate (HX HZ : ndarray) : outcome nat :=
  (assert! Np.is_binary HX ;;
   assert! Np.is_binary HZ ;;
   let n := ncols HX in
   assert! (n =? ncols HZ)%nat ;;
   p <- Np.matmul HX (Np.transpose HZ) ;;
   assert! negb (Np.any (Np.mod2 p)) ;;
   Ret n)%outcome.

(** What the clause construction and the post-condition checks work on. *)
Record standard : Type := mk_standard {
  s_Hx : ndarray;          (* row-reduced HX, columns permuted like Hz *)
  s_rkx : nat;
  s_A : ndarray;           (* Hz[:rk,rk:].T *)
  s_rk : nat;
  s_col_transform : ndarray
}.

(** Lines 183-188: both matrices into standard form. *)
Definition standard_form (sv : services) (HX HZ : ndarray) : M standard :=
  emit (EvReduce HX) ;;;
  let '(_, rkx, row_transform, _) := reduced_row_echelon sv HX in
  p <- lift (Np.matmul row_transform HX) ;;
  let Hx := Np.mod2 p in
  emit (EvReduce HZ) ;;;
  let '(Hz, rk, row_transform, col_transform) := reduced_row_echelon sv HZ in
  let A := Np.transpose (Np.block Hz rk) in
  q <- lift (Np.matmul row_transform HZ) ;;
  q' <- lift (Np.matmul q col_transform) ;;
  same <- lift (Np.all_equal Hz (Np.mod2 q')) ;;
  massert same ;;;
  r <- lift (Np.matmul Hx col_transform) ;;
  let Hx := Np.mod2 r in
  mret (mk_standard Hx rkx A rk col_transform).

(** Lines 193-200: the "not a stabilizer" term.  The n-rk output variables
    y_i = n+1 .. 2n-rk are counted into [ancillas] before the loop. *)
Definition not_stabilizer (n : nat) (st : standard) : outcome (list clause * Z) :=
  let rk := s_rk st in
  let ancillas := 2 * Z.of_nat n - Z.of_nat rk in
  let constraints := [range (Z.of_nat n + 1) (ancillas + 1)] in
  for_range (n - rk)
    (fun idx '(constraints, ancillas) =>
       (a_row <- Np.row (s_A st) idx ;;
        let row := ones a_row ++ [Z.of_nat rk + Z.of_nat idx + 1] in
        '(new_cons, num_new) <- pwt row (Z.of_nat idx + Z.of_nat n + 1) ancillas ;;
        Ret (constraints ++ new_cons, ancillas + num_new))%outcome)
    (constraints, ancillas).

(** Lines 204-209: the "commutes with all X stabilizers" term.  The output
    variable of row idx is start_ancillas+idx+1; [ancillas] is advanced only
    by the counts [pwt] returns. *)
Definition commutes (st : standard) (acc : list clause * Z) : outcome (list clause * Z) :=
  let start_ancillas := snd acc in
  for_range (s_rkx st)
    (fun idx '(constraints, ancillas) =>
       (let constraints := constraints ++ [[- (start_ancillas + Z.of_nat idx + 1)]] in
        h_row <- Np.row (s_Hx st) idx ;;
        '(new_cons, num_new) <-
           pwt (ones h_row) (start_ancillas + Z.of_nat idx + 1) ancillas ;;
        Ret (constraints ++ new_cons, ancillas + num_new))%outcome)
    acc.

(** Lines 193-213: all constraints of one query. *)
Definition build_constraints (sv : services) (threshold : Z) (n : nat) (st : standard)
  : M (list clause) :=
  acc <- lift (not_stabilizer n st) ;;
  '(constraints, ancillas) <- lift (commutes st acc) ;;
  let lits := range 1 (Z.of_nat n + 1) in
  emit (EvAtmost lits threshold ancillas) ;;;
  mret (constraints ++ atmost sv lits threshold ancillas).

(** The three post-condition checks of lines 224, 225 and 231, on the
    model's first n entries, the standard-form [Hx] and the block [A]. *)
Definition weight_check (threshold : Z) (n : nat) (model : list Z) : bool :=
  py_sum (positive_bits n model) <=? threshold.

Definition null_check (n : nat) (st : standard) (model : list Z) : outcome bool :=
  (v <- Np.matvec (s_Hx st) (as_ints (positive_bits n model)) ;;
   Ret (Np.sum_mod2 v =? 0))%outcome.

Definition stabilizer_check (n : nat) (st : standard) (model : list Z) : outcome bool :=
  (let result := positive_bits n model in
   let x_left := upto (s_rk st) result in
   let x_right := from (s_rk st) result in
   w <- Np.matvec (s_A st) (as_ints x_left) ;;
   s <- Np.add w (as_ints x_right) ;;
   Ret (0 <? Np.sum_mod2 s))%outcome.

(** Line 226: the support in the caller's column order, used for display. *)
Fixpoint support (colT : ndarray) (vs : list Z) : outcome (list Z) :=
  match vs with
  | [] => Ret []
  | v :: rest =>
      if 0 <? v then
        obind (Np.row colT (Z.to_nat (v - 1)))
          (fun r => obind (support colT rest) (fun more => Ret (ones r ++ more)))
      else support colT rest
  end.

(** Lines 222-234. *)
Definition accept_model (threshold : Z) (n : nat) (st : standard) (letter : string)
  (model : list Z) : M (option (list Z)) :=
  let result := positive_bits n model in
  massert (weight_check threshold n model) ;;;
  null <- lift (null_check n st model) ;;
  massert null ;;;
  temp <- lift (support (Np.transpose (s_col_transform st)) (upto n model)) ;;
  notstab <- lift (stabilizer_check n st model) ;;
  massert notstab ;;;
  emit (EvDisplay (py_sum result) letter temp) ;;;
  emit EvDelete ;;;
  mret (Some model).

(** Lines 236-240. *)
Definition report_unsat (sv : services) (constraints : list clause) (proof : bool)
  : M (option (list Z)) :=
  (if proof then
     emit EvGetProof ;;;
     ok <- check_proof sv (g_get_proof sv constraints proof) constraints ;;
     massert ok ;;;
     emit (EvPrint "Proof of no solution verified.")
   else mret tt) ;;;
  emit EvDelete ;;;
  mret None.

(** Lines 171-213: everything before the solver is created. *)
Definition prepare (sv : services) (threshold : Z) (HX HZ : ndarray)
  : M (nat * standard * list clause) :=
  n <- lift (validate HX HZ) ;;
  st <- standard_form sv HX HZ ;;
  constraints <- build_constraints sv threshold n st ;;
  mret (n, st, constraints).

(** [sat_distance(threshold,HX,HZ,proof,switch)]; a returned model is
    [Some model], the return value False is [None]. *)
Definition sat_distance (sv : services) (threshold : Z) (HX HZ : ndarray)
  (proof switch : bool) : M (option (list Z)) :=
  '(n, st, constraints) <- prepare sv threshold HX HZ ;;
  let letter := if switch then "X"%string else "Z"%string in
  emit (EvSolver constraints proof) ;;;
  emit EvSolve ;;;
  if g_solve sv constraints then
    emit EvGetModel ;;;
    accept_model threshold n st letter (g_get_model sv constraints)
  else report_unsat sv constraints proof.

(** Python's truth value of what [sat_distance] returns: False and the empty
    list are false. *)
Definition truthy (out : option (list Z)) : bool :=
  match out with
  | Some (_ :: _) => true
  | _ => false
  end.

Definition model_of (out : option (list Z)) : list Z :=
  match out with
  | Some m => m
  | None => []
  end.

(** [sum([val>0 for val in out[:num]])]. *)
Definition witness_weight (num : nat) (out : option (list Z)) : Z :=
  py_sum (positive_bits num (model_of out)).

(** [while cond(s): s = body(s)], with a bound on the number of tests of the
    condition. *)
Fixpoint while_loop {St : Type} (fuel : nat) (cond : St -> bool) (body : St -> M St)
  (s : St) : M St :=
  match fuel with
  | O => (OutOfFuel, [])
  | S fuel =>
      if cond s then s' <- body s ;; while_loop fuel cond body s'
      else mret s
  end.

Definition shorter_msg : string := "Checking if there's anything shorter...".

(** The state of the search loop: [upper] and [bRunning]. *)
Definition search_state : Type := (Z * bool)%type.

(** One pass through the body of the loop of lines 275-284 (and 288-297);
    [oracle t] stands for the call sat_distance(t, ...) the loop makes. *)
Definition search_body (oracle : Z -> M (option (list Z))) (num : nat)
  (s : search_state) : M search_state :=
  let upper := fst s in
  out <- oracle (upper - 1) ;;
  if truthy out then
    let n_upper := witness_weight num out in
    massert ((0 <? n_upper) && (n_upper <? upper)) ;;;
    emit (EvPrint shorter_msg) ;;;
    mret (n_upper, true)
  else mret (upper, false).

Definition search_budget (upper : Z) : nat := S (S (Z.to_nat upper)).

Definition search (oracle : Z -> M (option (list Z))) (num : nat) (upper : Z) : M Z :=
  s <- while_loop (search_budget upper) snd (search_body oracle num) (upper, true) ;;
  mret (fst s).

(** [find_weight(Hx,Hz,upper_bound,both,switch)], over the function it calls
    as sat_distance(threshold,HX,HZ,switch=...). *)
Definition find_weight_with
  (oracle : Z -> ndarray -> ndarray -> bool -> M (option (list Z)))
  (Hx Hz : ndarray) (upper_bound : Z) (both switch : bool) : M Z :=
  let '(HX, HZ) := if switch then (Hz, Hx) else (Hx, Hz) in
  massert (Np.is_binary HX) ;;;
  massert (Np.is_binary HZ) ;;;
  upper <- search (fun t => oracle t HX HZ switch) (ncols HX) upper_bound ;;
  if both then
    search (fun t => oracle t HZ HX (negb switch)) (ncols HZ) upper
  else mret upper.

Definition find_weight (sv : services) (Hx Hz : ndarray) (upper_bound : Z)
  (both switch : bool) : M Z :=
  find_weight_with (fun t HX HZ sw => sat_distance sv t HX HZ false sw)
    Hx Hz upper_bound both switch.

End Distance.

(** ** Properties of traces *)


(** A computation that does not release the solver session. *)
Definition keeps_session {A : Type} (m : M A) : Prop := ~ In EvDelete (snd m).

(** A computation that releases the session as its last act when it returns,
    and not at all when it raises. *)
Definition releases_on_return {A : Type} (m : M A) : Prop :=
  match fst m with
  | Ret _ => exists t, snd m = t ++ [EvDelete] /\ ~ In EvDelete t
  | _ => ~ In EvDelete (snd m)
  end.

(** ** Properties of the caller's matrices *)

(** numpy arrays are rectangular. *)
Definition rectangular (m : ndarray) : Prop :=
  Forall (fun r => List.length r = ncols m) (rows m).

Definition binary (m : ndarray) : Prop :=
  forall r x, In r (rows m) -> In x r -> x = 0 \/ x = 1.

(** HX.HZ^T = 0 (mod 2): every row of HX has even overlap with every row of HZ. *)
Definition commuting (HX HZ : ndarray) : Prop :=
  forall r r', In r (rows HX) -> In r' (rows HZ) -> Np.dot r r' mod 2 = 0.

(** ** What the search assumes of the function it queries *)


(** ** Fixtures: two small CSS codes with their standard forms *)

Module Fixture.

Import Distance.

Definition identity (n : nat) : ndarray :=
  {| ncols := n;
     rows := map (fun i => map (fun j => if (i =? j)%nat then 1 else 0) (seq 0 n))
                 (seq 0 n) |}.

(** The [[4,2,2]] code: HX = HZ = [[1,1,1,1]].  It is already in the form
    [I|A]: rank 1, identity transforms. *)
Definition H422 : ndarray := {| ncols := 4; rows := [[1; 1; 1; 1]] |}.

Definition rre422 (m : ndarray) : ndarray * nat * ndarray * ndarray :=
  (H422, 1%nat, identity 1, identity 4).

(** HX = [[1,1,0,0]], HZ = [[1,1,0,0],[0,0,1,1]]: the pivots of HZ are
    columns 0 and 2, so the reduction of HZ puts the columns in the order
    0,2,1,3 ([swap12]); [rre_pair] answers for the one-row HX and the
    two-row HZ. *)
Definition HX_pair : ndarray := {| ncols := 4; rows := [[1; 1; 0; 0]] |}.
Definition HZ_pair : ndarray := {| ncols := 4; rows := [[1; 1; 0; 0]; [0; 0; 1; 1]] |}.

Definition swap12 : ndarray :=
  {| ncols := 4; rows := [[1; 0; 0; 0]; [0; 0; 1; 0]; [0; 1; 0; 0]; [0; 0; 0; 1]] |}.

Definition rre_pair (m : ndarray) : ndarray * nat * ndarray * ndarray :=
  if (nrows m =? 1)%nat then
    (HX_pair, 1%nat, identity 1, identity 4)
  else
    ({| ncols := 4; rows := [[1; 0; 1; 0]; [0; 1; 0; 1]] |}, 2%nat, identity 2, swap12).

(** Services around a fixed solver answer. *)
Definition fixed_services (rre : ndarray -> ndarray * nat * ndarray * ndarray)
  (sat : bool) (model : list Z) (proof : option (list string)) (v : verdict)
  : services :=
  {| reduced_row_echelon := rre;
     atmost := fun _ _ _ => [];
     g_solve := fun _ => sat;
     g_get_model := fun _ => model;
     g_get_proof := fun _ _ => proof;
     drup_check_proof := fun _ _ => v |}.

End Fixture.

(** ** A reference oracle: exhaustive search and a naive cardinality encoding *)

Module Reference.

Fixpoint choose (l : list Z) (k : nat) : list (list Z) :=
  match k, l with
  | O, _ => [[]]
  | S _, [] => []
  | S k', x :: t => map (cons x) (choose t k') ++ choose t k
  end.

(** At most [bound] of [lits]: of any bound+1 of them one is false.  No
    fresh variable is used. *)
Definition naive_atmost (lits : list Z) (bound top_id : Z) : list clause :=
  map (map Z.opp) (choose lits (Z.to_nat (bound + 1))).

Definition max_var (cs : list clause) : Z :=
  fold_right Z.max 0 (map Z.abs (List.concat cs)).

Definition assignment_of (k : Z) : assignment := fun v => Z.testbit k (v - 1).

Definition model_of_index (nv k : Z) : list Z :=
  map (fun v => if Z.testbit k (v - 1) then v else - v) (range 1 (nv + 1)).

Definition first_model (cs : list clause) : option Z :=
  find (fun k => bit_string_satisfies (assignment_of k) cs)
       (range 0 (2 ^ max_var cs)).

Definition exhaustive (rre : ndarray -> ndarray * nat * ndarray * ndarray) : services :=
  {| reduced_row_echelon := rre;
     atmost := naive_atmost;
     g_solve := fun cs => match first_model cs with Some _ => true | None => false end;
     g_get_model := fun cs => match first_model cs with
                              | Some k => model_of_index (max_var cs) k
                              | None => []
                              end;
     g_get_proof := fun _ _ => None;
     drup_check_proof := fun _ _ => Valid |}.

End Reference.


(** ** Shapes of clause sets and of solver models *)

(** Variable [v] is named by some literal of [cs]. *)
Definition occurs (v : Z) (cs : list clause) : Prop :=
  exists c l, In c cs /\ In l c /\ Z.abs l = v.

(** The assignment a solver model stands for: entry v-1 of the model is the
    literal of variable v, positive when the variable is true. *)
Definition model_assignment (model : list Z) : assignment :=
  fun v => 0 <? nth (Z.to_nat (v - 1)) model 0.

(** A standard form of the shapes a row reduction of n-column matrices
    gives: Hx with n columns, 0/1 entries and only zero rows after the first
    rkx; A with n-rk rows of rk 0/1 entries. *)
Definition well_shaped (n : nat) (st : Distance.standard) : Prop :=
  (Distance.s_rk st <= n)%nat /\
  ncols (Distance.s_Hx st) = n /\
  rectangular (Distance.s_Hx st) /\
  binary (Distance.s_Hx st) /\
  (forall r, In r (from (Distance.s_rkx st) (rows (Distance.s_Hx st))) ->
             Forall (fun x => x = 0) r) /\
  ncols (Distance.s_A st) = Distance.s_rk st /\
  nrows (Distance.s_A st) = (n - Distance.s_rk st)%nat /\
  rectangular (Distance.s_A st) /\
  binary (Distance.s_A st).

(** The standard form of the [[4,2,2]] code. *)
Definition standard422 : Distance.standard :=
  Distance.mk_standard Fixture.H422 1 {| ncols := 1; rows := [[1]; [1]; [1]] |} 1
    (Fixture.identity 4).

(** ** The life of a solver session *)

(** What a trace has done to the solver: no session, a session created and
    not yet asked, or a session that has been asked to solve. *)
Inductive session : Type := NoSession | Fresh | Solved.

(** One event against the session: creation needs no session in place, solve
    a fresh one, get_model and get_proof a solved one, delete any session;
    every other event leaves the session alone.  [None]: the event is out of
    order. *)
Definition session_step (s : session) (e : event) : option session :=
  match e, s with
  | EvSolver _ _, NoSession => Some Fresh
  | EvSolver _ _, _ => None
  | EvSolve, Fresh => Some Solved
  | EvSolve, _ => None
  | EvGetModel, Solved => Some Solved
  | EvGetModel, _ => None
  | EvGetProof, Solved => Some Solved
  | EvGetProof, _ => None
  | EvDelete, NoSession => None
  | EvDelete, _ => Some NoSession
  | _, _ => Some s
  end.

Fixpoint session_protocol (s : session) (tr : list event) : option session :=
  match tr with
  | [] => Some s
  | e :: tr' =>
      match session_step s e with
      | Some s' => session_protocol s' tr'
      | None => None
      end
  end.

(** A computation started in session state [s] keeps to the protocol, and
    ends in state [s'] when it returns. *)
Definition follows {A : Type} (s s' : session) (m : M A) : Prop :=
  match fst m with
  | Ret _ => session_protocol s (snd m) = Some s'
  | _ => exists s'', session_protocol s (snd m) = Some s''
  end.

(** A computation that does not touch the solver. *)
Definition quiet {A : Type} (m : M A) : Prop :=
  Forall (fun e => forall s, session_step s e = Some s) (snd m).

(** ** Lines of a certificate *)

Definition no_space (s : string) : Prop :=
  forall c, In c (list_ascii_of_string s) -> Str.is_space c = false.

(** The first character of a line is the letter d. *)
Definition deletion_line (s : string) : bool :=
  match s with
  | String c _ => Ascii.eqb c "d"%char
  | EmptyString => false
  end.

(** ** The code constructors: bivariate bicycle codes and the toric code *)

Module Codes.

Local Open Scope outcome_scope.

(** [np.eye(n)]. *)
Definition eye (n : nat) : ndarray :=
  {| ncols := n;
     rows := map (fun i => map (fun j => if (i =? j)%nat then 1 else 0) (seq 0 n))
                 (seq 0 n) |}.

(** [np.roll(r, shift)] on one row: entry j of the result is entry
    (j - shift) mod n of [r]. *)
Definition roll_row (shift : Z) (r : list Z) : list Z :=
  let n := List.length r in
  let k := Z.to_nat (shift mod Z.of_nat n) in
  from (n - k) r ++ upto (n - k) r.

(** [np.roll(m, shift, axis=1)]. *)
Definition roll (m : ndarray) (shift : Z) : ndarray :=
  {| ncols := ncols m; rows := map (roll_row shift) (rows m) |}.

(** [np.kron(a, b)]: the block matrix of the products a[i,j] * b. *)
Definition kron (a b : ndarray) : ndarray :=
  {| ncols := ncols a * ncols b;
     rows := flat_map
               (fun ra => map (fun rb => flat_map (fun x => map (Z.mul x) rb) ra) (rows b))
               (rows a) |}.

(** [a + b] on 2-D arrays of one shape; numpy raises ValueError on shapes it
    cannot broadcast, and the terms added here all have one shape. *)
Definition add2 (a b : ndarray) : outcome ndarray :=
  if (ncols a =? ncols b)%nat && (nrows a =? nrows b)%nat then
    Ret {| ncols := ncols a;
           rows := map (fun p => map (fun q => fst q + snd q) (combine (fst p) (snd p)))
                       (combine (rows a) (rows b)) |}
  else Raise ValueError.

Fixpoint sum_from (acc : ndarray) (ms : list ndarray) : outcome ndarray :=
  match ms with
  | [] => Ret acc
  | m :: ms' => acc' <- add2 acc m ;; sum_from acc' ms'
  end.

(** Python's [sum] of a list of arrays: 0 + m1 + m2 + ...  The sum of no
    array is the integer 0, which is no array; the constructor asserts two
    terms at least before it sums. *)
Definition sum_arrays (ms : list ndarray) : outcome ndarray :=
  match ms with
  | [] => Raise TypeError
  | m :: ms' => sum_from m ms'
  end.

(** [np.block([[a, b]])]. *)
Definition hstack (a b : ndarray) : outcome ndarray :=
  if (nrows a =? nrows b)%nat then
    Ret {| ncols := ncols a + ncols b;
           rows := map (fun p => fst p ++ snd p) (combine (rows a) (rows b)) |}
  else Raise ValueError.

(** [np.sum(m, axis=1)] and [np.sum(m, axis=0)]. *)
Definition sum_axis1 (m : ndarray) : list Z := map (fold_right Z.add 0) (rows m).

Definition sum_axis0 (m : ndarray) : list Z :=
  map (fun j => fold_right Z.add 0 (Np.column m j)) (seq 0 (ncols m)).

(** [all(xs == ys)] for a 1-D array and a list of one length (the shape
    assertion before it makes the lengths agree). *)
Definition all_equal_list (xs ys : list Z) : bool :=
  forallb (fun p => fst p =? snd p) (combine xs ys).

(** [0<=a<l and 0<=b<m]. *)
Definition in_range (l m : Z) (p : Z * Z) : bool :=
  (0 <=? fst p) && (fst p <? l) && ((0 <=? snd p) && (snd p <? m)).

(** [np.kron(np.roll(np.eye(l), a, axis=1), np.roll(np.eye(m), b, axis=1))]. *)
Definition term (l m : Z) (p : Z * Z) : ndarray :=
  kron (roll (eye (Z.to_nat l)) (fst p)) (roll (eye (Z.to_nat m)) (snd p)).

(** [IBM_parity_checks(l,m,powersA,powersB)]. *)
Definition IBM_parity_checks (l m : Z) (powersA powersB : list (Z * Z))
  : outcome (ndarray * ndarray) :=
  assert! (2 <=? len powersA) ;;
  assert! forallb (in_range l m) powersA ;;
  assert! (2 <=? len powersB) ;;
  assert! forallb (in_range l m) powersB ;;
  A <- sum_arrays (map (term l m) powersA) ;;
  B <- sum_arrays (map (term l m) powersB) ;;
  HX <- hstack A B ;;
  HZ <- hstack (Np.transpose B) (Np.transpose A) ;;
  assert! (Z.of_nat (nrows HX) =? l * m) && (Z.of_nat (ncols HX) =? l * m * 2) ;;
  assert! all_equal_list (sum_axis1 HX) (repeat (len powersA * 2) (Z.to_nat (l * m))) ;;
  assert! all_equal_list (sum_axis0 HX) (repeat (len powersA) (Z.to_nat (l * m * 2))) ;;
  Ret (HX, HZ).

(** [Toric_parity_checks(N)]. *)
Definition Toric_parity_checks (N : Z) : outcome (ndarray * ndarray) :=
  IBM_parity_checks N N [(0, 0); (1, 0)] [(0, 0); (0, 1)].

End Codes.

(** ** Matrices by their entries *)

(** The r x c matrix with entry [f i j] in row i, column j. *)
Definition tabulate (r c : nat) (f : nat -> nat -> Z) : ndarray :=
  {| ncols := c; rows := map (fun i => map (f i) (seq 0 c)) (seq 0 r) |}.

(** 1 for true, 0 for false. *)
Definition ind (b : bool) : Z := if b then 1 else 0.

(** f 0 + ... + f (n-1), and the sum of [g] over a list. *)
Definition bigsum (f : nat -> Z) (n : nat) : Z := fold_right Z.add 0 (map f (seq 0 n)).

Definition lsum {X : Type} (g : X -> Z) (ps : list X) : Z := fold_right Z.add 0 (map g ps).

(** Where the monomial x^k1 y^k2 sends index i = i1*M + i2 of the L x M torus:
    to ((i1+k1) mod L)*M + (i2+k2) mod M. *)
Definition shifted (L M k1 k2 i : nat) : nat :=
  ((i / M + k1) mod L) * M + (i mod M + k2) mod M.

(** The entry the constructor's sum over [powers] puts in row i, column j:
    the number of monomials that send i to j. *)
Definition count_shifts (l m : Z) (powers : list (Z * Z)) (i j : nat) : Z :=
  lsum (fun p => ind (shifted (Z.to_nat l) (Z.to_nat m)
                        (Z.to_nat (fst p)) (Z.to_nat (snd p)) i =? j)%nat) powers.

(** The matrices [A|B] and [B^T|A^T] by their entries, for an l x m torus. *)
Definition IBM_HX (l m : Z) (powersA powersB : list (Z * Z)) : ndarray :=
  let n := (Z.to_nat l * Z.to_nat m)%nat in
  tabulate n (n + n)
    (fun i j => if (j <? n)%nat then count_shifts l m powersA i j
                else count_shifts l m powersB i (j - n)%nat).

Definition IBM_HZ (l m : Z) (powersA powersB : list (Z * Z)) : ndarray :=
  let n := (Z.to_nat l * Z.to_nat m)%nat in
  tabulate n (n + n)
    (fun i j => if (j <? n)%nat then count_shifts l m powersB j i
                else count_shifts l m powersA (j - n)%nat i).

(** Entry (i,j) of a matrix. *)
Definition entry (a : ndarray) (i j : nat) : Z := nth j (nth i (rows a) []) 0.

(** What the constructor asserts of its arguments. *)
Definition powers_ok (l m : Z) (powers : list (Z * Z)) : Prop :=
  2 <= len powers /\ Forall (fun p => 0 <= fst p < l /\ 0 <= snd p < m) powers.

(** ** The notebook's evaluation of clauses on a bit list *)

Module Harness.

Local Open Scope outcome_scope.

(** [str[i]] for [0 <= i]. *)
Definition index (str : list bool) (i : Z) : outcome bool :=
  match nth_error str (Z.to_nat i) with
  | Some b => Ret b
  | None => Raise IndexError
  end.

(** [test_condition(constraint,str)]. *)
Definition test_condition (constraint : Z) (str : list bool) : outcome bool :=
  if 0 <? constraint then index str (constraint - 1)
  else if constraint =? 0 then Ret true
  else b <- index str (- constraint - 1) ;; Ret (negb b).

(** [bit_string_or(constraint,str)]: the list of all values is built before
    [any] looks at it. *)
Definition bit_string_or (constraint : clause) (str : list bool) : outcome bool :=
  vals <- map_outcome (fun cons => test_condition cons str) constraint ;;
  Ret (existsb (fun b => b) vals).

(** [bit_string_satisfies(constraints,str)]. *)
Definition bit_string_satisfies (constraints : list clause) (str : list bool)
  : outcome bool :=
  vals <- map_outcome (fun cons => bit_string_or cons str) constraints ;;
  Ret (forallb (fun b => b) vals).

End Harness.

(** The assignment a bit list stands for: variable v is entry v-1. *)
Definition bits_assignment (str : list bool) : assignment :=
  fun v => nth (Z.to_nat (v - 1)) str false.

(** * Verification *)

Example xor_312 :
  xor 3 1 2 = Ret [[-3; -1; -2]; [-3; 1; 2]; [3; 1; -2]; [3; -1; 2]].
Proof. reflexivity. Qed.

Example pwt_seven_ancillas : exists cs, pwt [1; 2; 3; 4; 5; 6; 7] 8 8 = Ret (cs, 5).
Proof. eexists. vm_compute. reflexivity. Qed.

Example pwt_123 :
  pwt [1; 2; 3] 4 4 =
  Ret ([[-4; -3; -5]; [-4; 3; 5]; [4; 3; -5]; [4; -3; 5];
        [-5; -1; -2]; [-5; 1; 2]; [5; 1; -2]; [5; -1; 2]], 1).
Proof. reflexivity. Qed.

(** ** Reasoning principles for [outcome] *)

Lemma obind_Ret_inv {A B : Type} (m : outcome A) (f : A -> outcome B) (b : B) :
  obind m f = Ret b -> exists a, m = Ret a /\ f a = Ret b.
Proof.
  destruct m as [a | e | ]; simpl; intros H; try discriminate.
  exists a; split; [reflexivity | exact H].
Qed.

Lemma py_assert_Ret_inv (b : bool) (u : unit) : py_assert b = Ret u -> b = true.
Proof. destruct b; simpl; [reflexivity | discriminate]. Qed.

Lemma py_assert_true : py_assert true = Ret tt.
Proof. reflexivity. Qed.

(** Peel the binds of a hypothesis [H : ... = Ret _]. *)
Ltac ret_inv H :=
  repeat match type of H with
  | obind (py_assert ?b) _ = Ret _ =>
      let u := fresh "u" in let Hb := fresh "Hassert" in
      apply obind_Ret_inv in H; destruct H as (u & Hb & H);
      apply py_assert_Ret_inv in Hb
  | obind _ _ = Ret _ =>
      let x := fresh "x" in let Hx := fresh "Hcall" in
      apply obind_Ret_inv in H; destruct H as (x & Hx & H)
  | (match ?p with (_, _) => _ end) = Ret _ => destruct p
  | Ret _ = Ret _ => injection H as H
  end.

(** ** Shape of the lists [pwt] recurses on *)

Lemma len_nonneg {A : Type} (l : list A) : 0 <= len l.
Proof. unfold len; lia. Qed.

Lemma len_app {A : Type} (l1 l2 : list A) : len (l1 ++ l2) = len l1 + len l2.
Proof. unfold len; rewrite length_app; lia. Qed.

Lemma halves_app {A : Type} (i : nat) (l : list A) : upto i l ++ from i l = l.
Proof. apply firstn_skipn. Qed.

Lemma len_upto_half {A : Type} (l : list A) :
  List.length (upto (List.length l / 2) l) = (List.length l / 2)%nat.
Proof.
  unfold upto. rewrite length_firstn. apply Nat.min_l.
  apply Nat.Div0.div_le_upper_bound. lia.
Qed.

Lemma len_from_half {A : Type} (l : list A) :
  List.length (from (List.length l / 2) l)
  = (List.length l - List.length l / 2)%nat.
Proof. unfold from. apply length_skipn. Qed.

Lemma half_bounds (n : nat) :
  (2 * (n / 2) <= n /\ n <= 2 * (n / 2) + 1)%nat.
Proof.
  pose proof (Nat.div_mod_eq n 2) as H.
  pose proof (Nat.mod_upper_bound n 2 ltac:(lia)) as H'.
  lia.
Qed.

Lemma len_two_inv (h : list Z) :
  len h = 2 -> exists x1 x2, h = [x1; x2].
Proof.
  unfold len. destruct h as [| x1 [| x2 [| x3 t]]]; simpl; intros H; try lia.
  eauto.
Qed.

Lemma len_three_inv (h : list Z) :
  len h = 3 -> exists x1 x2 x3, h = [x1; x2; x3].
Proof.
  unfold len. destruct h as [| x1 [| x2 [| x3 [| x4 t]]]]; simpl; intros H; try lia.
  eauto.
Qed.

(** ** Case analysis of a returning [pwt] call *)

Lemma pwt_fuel_eq (fuel : nat) (h : list Z) (idx num_vars : Z) :
  pwt_fuel (S fuel) h idx num_vars =
  (assert! (0 <? len h) ;;
   assert! (0 <? idx) ;;
   assert! (0 <? num_vars) ;;
   if len h =? 2 then
     new_cons <- xor idx (item h 0) (item h 1) ;;
     Ret (new_cons, 0)
   else if len h =? 3 then
     new_cons <- xor idx (item h 2) (num_vars + 1) ;;
     '(nc, na) <- pwt_fuel fuel (upto 2 h) (num_vars + 1) (num_vars + 1) ;;
     Ret (new_cons ++ nc, 1 + na)
   else
     new_cons <- xor idx (num_vars + 1) (num_vars + 2) ;;
     '(nc, na) <- pwt_fuel fuel (upto (List.length h / 2) h) (num_vars + 1)
                    (num_vars + 2) ;;
     '(nc', na') <- pwt_fuel fuel (from (List.length h / 2) h) (num_vars + 2)
                      (num_vars + 2 + na) ;;
     Ret ((new_cons ++ nc) ++ nc', 2 + na + na'))%outcome.
Proof. reflexivity. Qed.

Ltac pwt_step := rewrite pwt_fuel_eq; cbn [obind py_assert].

Lemma pwt_fuel_inv (fuel : nat) (h : list Z) (idx num_vars : Z)
  (cs : list clause) (na : Z) :
  pwt_fuel (S fuel) h idx num_vars = Ret (cs, na) ->
  0 < len h /\ 0 < idx /\ 0 < num_vars /\ pwt_case fuel h idx num_vars cs na.
Proof.
  intros H. rewrite pwt_fuel_eq in H.
  apply obind_Ret_inv in H; destruct H as (u1 & H1 & H).
  apply obind_Ret_inv in H; destruct H as (u2 & H2 & H).
  apply obind_Ret_inv in H; destruct H as (u3 & H3 & H).
  apply py_assert_Ret_inv in H1, H2, H3.
  apply Z.ltb_lt in H1, H2, H3.
  repeat split; try assumption.
  destruct (len h =? 2) eqn:E2; [| destruct (len h =? 3) eqn:E3].
  - apply Z.eqb_eq in E2. destruct (len_two_inv h E2) as (x1 & x2 & ->).
    ret_inv H. inversion H; subst. eapply pwt_two; eauto.
  - apply Z.eqb_eq in E3. destruct (len_three_inv h E3) as (x1 & x2 & x3 & ->).
    ret_inv H. inversion H; subst. eapply pwt_three; eauto.
  - apply Z.eqb_neq in E2, E3.
    ret_inv H. inversion H; subst. eapply pwt_split; eauto.
Qed.

(** ** Ancilla count and the lengths on which [pwt] returns *)

Lemma pwt_fuel_count (fuel : nat) :
  forall h idx num_vars cs na,
    pwt_fuel fuel h idx num_vars = Ret (cs, na) ->
    2 <= len h /\ na = len h - 2.
Proof.
  induction fuel as [| fuel IH]; intros h idx nv cs na H; [discriminate |].
  apply pwt_fuel_inv in H. destruct H as (Hl & Hi & Hn & Hc).
  destruct Hc.
  - subst. unfold len; simpl; lia.
  - apply IH in Hrec. subst. unfold len in *. simpl List.length in *. lia.
  - apply IH in HB, HC.
    unfold len in *. rewrite len_upto_half in HB. rewrite len_from_half in HC.
    pose proof (half_bounds (List.length h)). lia.
Qed.

Lemma xor_returns (y x1 x2 : Z) :
  y <> 0 -> x1 <> 0 -> x2 <> 0 ->
  xor y x1 x2 = Ret [[- y; - x1; - x2]; [- y; x1; x2]; [y; x1; - x2]; [y; - x1; x2]].
Proof.
  intros Hy H1 H2. unfold xor.
  replace (y * x1 * x2 =? 0) with false; [reflexivity |].
  symmetry. apply Z.eqb_neq. intros H.
  apply Z.mul_eq_0 in H. destruct H as [H | H]; [| contradiction].
  apply Z.mul_eq_0 in H. tauto.
Qed.

Lemma xor_inv (y x1 x2 : Z) (cs : list clause) :
  xor y x1 x2 = Ret cs ->
  y <> 0 /\ x1 <> 0 /\ x2 <> 0 /\
  cs = [[- y; - x1; - x2]; [- y; x1; x2]; [y; x1; - x2]; [y; - x1; x2]].
Proof.
  unfold xor. intros H. ret_inv H.
  apply negb_true_iff, Z.eqb_neq in Hassert.
  repeat split; try congruence; intros ->; apply Hassert; lia.
Qed.

Lemma pwt_fuel_returns (fuel : nat) :
  forall h idx num_vars,
    (List.length h < fuel)%nat ->
    2 <= len h -> Forall (fun l => l <> 0) h -> 0 < idx -> 0 < num_vars ->
    exists cs, pwt_fuel fuel h idx num_vars = Ret (cs, len h - 2).
Proof.
  induction fuel as [| fuel IH]; intros h idx nv Hf Hl Hnz Hi Hn; [lia |].
  rewrite pwt_fuel_eq.
  replace (0 <? len h) with true by (symmetry; apply Z.ltb_lt; lia).
  replace (0 <? idx) with true by (symmetry; apply Z.ltb_lt; lia).
  replace (0 <? nv) with true by (symmetry; apply Z.ltb_lt; lia).
  cbn [obind py_assert].
  destruct (len h =? 2) eqn:E2; [| destruct (len h =? 3) eqn:E3].
  - apply Z.eqb_eq in E2. destruct (len_two_inv h E2) as (x1 & x2 & ->).
    inversion Hnz as [| ? ? Hx1 Hnz']; subst. inversion Hnz' as [| ? ? Hx2 _]; subst.
    unfold item; cbn [nth]. rewrite xor_returns by lia. cbn [obind]. eauto.
  - apply Z.eqb_eq in E3. destruct (len_three_inv h E3) as (x1 & x2 & x3 & ->).
    inversion Hnz as [| ? ? Hx1 Hnz']; subst.
    inversion Hnz' as [| ? ? Hx2 Hnz'']; subst.
    inversion Hnz'' as [| ? ? Hx3 _]; subst.
    unfold item; cbn [nth]. rewrite xor_returns by lia. cbn [obind].
    destruct (IH [x1; x2] (nv + 1) (nv + 1)) as (nc & Hnc);
      try (simpl in *; lia); try (unfold len; simpl; lia).
    { repeat constructor; assumption. }
    unfold upto; cbn [firstn]. rewrite Hnc. cbn [obind]. eauto.
  - apply Z.eqb_neq in E2, E3.
    rewrite xor_returns by lia. cbn [obind].
    assert (Hk : (4 <= List.length h)%nat) by (unfold len in *; lia).
    pose proof (half_bounds (List.length h)) as Hh.
    pose proof (len_upto_half h) as HlB. pose proof (len_from_half h) as HlC.
    rewrite <- (halves_app (List.length h / 2) h) in Hnz.
    apply Forall_app in Hnz. destruct Hnz as [HnzB HnzC].
    destruct (IH (upto (List.length h / 2) h) (nv + 1) (nv + 2)) as (nc1 & H1);
      try assumption; try (unfold len; lia).
    rewrite H1. cbn [obind].
    destruct (IH (from (List.length h / 2) h) (nv + 2)
                (nv + 2 + (len (upto (List.length h / 2) h) - 2))) as (nc2 & H2);
      try assumption; try (unfold len; lia).
    rewrite H2. cbn [obind]. eexists. f_equal. f_equal. unfold len. lia.
Qed.

(** The budget of [pwt] is never the limiting factor. *)
Lemma pwt_fuel_stable (f1 : nat) :
  forall f2 h idx num_vars,
    (List.length h < f1)%nat -> (List.length h < f2)%nat ->
    pwt_fuel f1 h idx num_vars = pwt_fuel f2 h idx num_vars.
Proof.
  induction f1 as [| f1 IH]; intros f2 h idx nv H1 H2; [lia |].
  destruct f2 as [| f2]; [lia |].
  rewrite !pwt_fuel_eq.
  destruct (0 <? len h) eqn:E0; cbn [obind py_assert]; [| reflexivity].
  destruct (py_assert (0 <? idx)); cbn [obind]; try reflexivity.
  destruct (py_assert (0 <? nv)); cbn [obind]; try reflexivity.
  apply Z.ltb_lt in E0.
  destruct (len h =? 2) eqn:E2; [reflexivity |].
  destruct (len h =? 3) eqn:E3.
  - apply Z.eqb_eq in E3.
    destruct (xor idx (item h 2) (nv + 1)); cbn [obind]; try reflexivity.
    rewrite (IH f2 (upto 2 h)); [reflexivity | |];
      unfold upto; rewrite length_firstn; unfold len in *; lia.
  - apply Z.eqb_neq in E2, E3.
    destruct (xor idx (nv + 1) (nv + 2)); cbn [obind]; try reflexivity.
    pose proof (half_bounds (List.length h)) as Hh.
    pose proof (len_upto_half h) as HlB. pose proof (len_from_half h) as HlC.
    rewrite (IH f2 (upto (List.length h / 2) h)) by (unfold len in *; lia).
    destruct (pwt_fuel f2 (upto (List.length h / 2) h) (nv + 1) (nv + 2))
      as [[nc na] | e | ] eqn:EB; cbn [obind]; try reflexivity.
    apply pwt_fuel_count in EB. destruct EB as [EB _].
    rewrite (IH f2 (from (List.length h / 2) h)) by (unfold len in *; lia).
    reflexivity.
Qed.

Lemma pwt_fuel_enough (fuel : nat) (h : list Z) (idx num_vars : Z) :
  (List.length h < fuel)%nat ->
  pwt_fuel fuel h idx num_vars = pwt h idx num_vars.
Proof. intros H. unfold pwt. apply pwt_fuel_stable; lia. Qed.

Lemma xor_total (y x1 x2 : Z) : xor y x1 x2 <> OutOfFuel.
Proof. unfold xor. destruct (negb _); cbn [obind py_assert]; discriminate. Qed.

Lemma pwt_fuel_total (fuel : nat) :
  forall h idx num_vars,
    (List.length h < fuel)%nat -> pwt_fuel fuel h idx num_vars <> OutOfFuel.
Proof.
  induction fuel as [| fuel IH]; intros h idx nv Hf; [lia |].
  rewrite pwt_fuel_eq.
  destruct (0 <? len h) eqn:E0; cbn [obind py_assert]; [| discriminate].
  destruct (0 <? idx); cbn [obind py_assert]; [| discriminate].
  destruct (0 <? nv); cbn [obind py_assert]; [| discriminate].
  apply Z.ltb_lt in E0.
  destruct (len h =? 2) eqn:E2.
  { pose proof (xor_total idx (item h 0) (item h 1)) as Hx.
    destruct (xor idx (item h 0) (item h 1)); cbn [obind];
      [discriminate | discriminate | contradiction]. }
  destruct (len h =? 3) eqn:E3.
  - apply Z.eqb_eq in E3.
    pose proof (xor_total idx (item h 2) (nv + 1)) as Hx.
    destruct (xor idx (item h 2) (nv + 1)); cbn [obind];
      [| discriminate | contradiction].
    specialize (IH (upto 2 h) (nv + 1) (nv + 1)).
    destruct (pwt_fuel fuel (upto 2 h) (nv + 1) (nv + 1)) as [[nc na] | e | ];
      cbn [obind]; try discriminate.
    intros _. apply IH; [| reflexivity].
    unfold upto; rewrite length_firstn; unfold len in *; lia.
  - apply Z.eqb_neq in E2, E3.
    pose proof (xor_total idx (nv + 1) (nv + 2)) as Hx.
    destruct (xor idx (nv + 1) (nv + 2)); cbn [obind];
      [| discriminate | contradiction].
    pose proof (half_bounds (List.length h)) as Hh.
    pose proof (len_upto_half h) as HlB. pose proof (len_from_half h) as HlC.
    pose proof (IH (upto (List.length h / 2) h) (nv + 1) (nv + 2)) as IHB.
    destruct (pwt_fuel fuel (upto (List.length h / 2) h) (nv + 1) (nv + 2))
      as [[nc na] | e | ] eqn:EB; cbn [obind]; try discriminate.
    + apply pwt_fuel_count in EB. destruct EB as [EB _].
      pose proof (IH (from (List.length h / 2) h) (nv + 2) (nv + 2 + na)) as IHC.
      destruct (pwt_fuel fuel (from (List.length h / 2) h) (nv + 2) (nv + 2 + na))
        as [[nc' na'] | e | ]; cbn [obind]; try discriminate.
      intros _. apply IHC; [| reflexivity]. unfold len in *; lia.
    + intros _. apply IHB; [| reflexivity]. unfold len in *; lia.
Qed.

(** ** Meaning of the emitted clauses *)

Lemma test_condition_pos (a : assignment) (v : Z) :
  0 < v -> test_condition a v = a v.
Proof.
  intros H. unfold test_condition.
  replace (0 <? v) with true by (symmetry; apply Z.ltb_lt; lia). reflexivity.
Qed.

Lemma test_condition_opp (a : assignment) (l : Z) :
  l <> 0 -> test_condition a (- l) = negb (test_condition a l).
Proof.
  intros H. unfold test_condition.
  destruct (0 <? l) eqn:E1; destruct (0 <? - l) eqn:E2;
    destruct (l =? 0) eqn:E3; destruct (- l =? 0) eqn:E4;
    try apply Z.ltb_lt in E1; try apply Z.ltb_lt in E2;
    try apply Z.ltb_ge in E1; try apply Z.ltb_ge in E2;
    try apply Z.eqb_eq in E3; try apply Z.eqb_eq in E4;
    try apply Z.eqb_neq in E3; try apply Z.eqb_neq in E4; try lia.
  all: rewrite ?Z.opp_involutive, ?negb_involutive; reflexivity.
Qed.

Lemma test_condition_agree (a a' : assignment) (l : Z) :
  a (Z.abs l) = a' (Z.abs l) -> test_condition a l = test_condition a' l.
Proof.
  unfold test_condition. intros H.
  destruct (0 <? l) eqn:E1.
  - apply Z.ltb_lt in E1. rewrite Z.abs_eq in H by lia. exact H.
  - apply Z.ltb_ge in E1. destruct (l =? 0); [reflexivity |].
    rewrite Z.abs_neq in H by lia. rewrite H. reflexivity.
Qed.

Lemma satisfies_app (a : assignment) (c1 c2 : list clause) :
  bit_string_satisfies a (c1 ++ c2)
  = bit_string_satisfies a c1 && bit_string_satisfies a c2.
Proof. apply forallb_app. Qed.

Lemma or_agree (a a' : assignment) (c : clause) :
  (forall l, In l c -> a (Z.abs l) = a' (Z.abs l)) ->
  bit_string_or a c = bit_string_or a' c.
Proof.
  unfold bit_string_or. induction c as [| l c IHc]; intros H; [reflexivity |].
  simpl. rewrite (test_condition_agree a a' l) by (apply H; left; reflexivity).
  f_equal. apply IHc. intros l' Hl'. apply H. right. exact Hl'.
Qed.

Lemma satisfies_agree (a a' : assignment) (cs : list clause) :
  (forall c l, In c cs -> In l c -> a (Z.abs l) = a' (Z.abs l)) ->
  bit_string_satisfies a cs = bit_string_satisfies a' cs.
Proof.
  unfold bit_string_satisfies.
  induction cs as [| c cs IH]; intros H; [reflexivity |]. simpl.
  rewrite (or_agree a a' c) by (intros l Hl; apply (H c l); [left; reflexivity | exact Hl]).
  f_equal. apply IH. intros c' l Hc' Hl. apply (H c' l); [right; exact Hc' | exact Hl].
Qed.

Lemma parity_app (a : assignment) (l1 l2 : list Z) :
  parity a (l1 ++ l2) = xorb (parity a l1) (parity a l2).
Proof.
  unfold parity. induction l1 as [| x l1 IH]; simpl.
  - destruct (fold_right _ _ _); reflexivity.
  - rewrite IH. rewrite xorb_assoc. reflexivity.
Qed.

Lemma parity_agree (a a' : assignment) (h : list Z) :
  (forall l, In l h -> a (Z.abs l) = a' (Z.abs l)) ->
  parity a h = parity a' h.
Proof.
  unfold parity. induction h as [| x h IH]; intros H; [reflexivity |]. simpl.
  rewrite (test_condition_agree a a' x) by (apply H; left; reflexivity).
  f_equal. apply IH. intros l Hl. apply H. right. exact Hl.
Qed.

(** The four clauses of [xor] say exactly y = x1 (+) x2. *)
Lemma xor_sat (a : assignment) (y x1 x2 : Z) (cs : list clause) :
  xor y x1 x2 = Ret cs ->
  (bit_string_satisfies a cs = true <->
   test_condition a y = xorb (test_condition a x1) (test_condition a x2)).
Proof.
  intros H. apply xor_inv in H. destruct H as (Hy & H1 & H2 & ->).
  unfold bit_string_satisfies, bit_string_or. simpl.
  rewrite !test_condition_opp by assumption.
  destruct (test_condition a y), (test_condition a x1), (test_condition a x2);
    simpl; split; intros; congruence.
Qed.

(** Every literal of the result names the target, a variable of [h], or one
    of the ancillas num_vars+1 .. num_vars+na. *)
Lemma pwt_fuel_vars (fuel : nat) :
  forall h idx num_vars cs na,
    pwt_fuel fuel h idx num_vars = Ret (cs, na) ->
    forall c l, In c cs -> In l c ->
      Z.abs l = idx \/ In (Z.abs l) (map Z.abs h)
      \/ num_vars < Z.abs l <= num_vars + na.
Proof.
  induction fuel as [| fuel IH]; intros h idx nv cs na H c l Hc Hl; [discriminate |].
  apply pwt_fuel_inv in H. destruct H as (Hlen & Hi & Hn & Hcase).
  assert (Hxor : forall y x1 x2 xc, xor y x1 x2 = Ret xc -> In c xc ->
            Z.abs l = Z.abs y \/ Z.abs l = Z.abs x1 \/ Z.abs l = Z.abs x2).
  { intros y x1 x2 xc Hx Hin. apply xor_inv in Hx.
    destruct Hx as (_ & _ & _ & ->). simpl in Hin.
    repeat (destruct Hin as [<- | Hin]; [simpl in Hl; rewrite ?Z.abs_opp; intuition (subst; rewrite ?Z.abs_opp; auto) |]).
    contradiction. }
  destruct Hcase.
  - subst h. destruct (Hxor _ _ _ _ Hx Hc) as [E | [E | E]]; rewrite E; simpl.
    + left. lia.
    + right; left; left; reflexivity.
    + right; left; right; left; reflexivity.
  - subst h cs. apply in_app_or in Hc. destruct Hc as [Hc | Hc].
    + destruct (Hxor _ _ _ _ Hx Hc) as [E | [E | E]]; rewrite E; simpl.
      * left. lia.
      * right; left; right; right; left; reflexivity.
      * apply pwt_fuel_count in Hrec. right; right. lia.
    + pose proof (pwt_fuel_count _ _ _ _ _ _ Hrec) as [Hl0 Hna0].
      destruct (IH _ _ _ _ _ Hrec c l Hc Hl) as [E | [E | E]].
      * right; right. lia.
      * right; left. simpl in *. tauto.
      * right; right. lia.
  - subst cs. pose proof (pwt_fuel_count _ _ _ _ _ _ HB) as [_ HnB].
    pose proof (pwt_fuel_count _ _ _ _ _ _ HC) as [_ HnC].
    pose proof (pwt_fuel_count _ _ _ _ _ _ HB) as [HlB _].
    pose proof (pwt_fuel_count _ _ _ _ _ _ HC) as [HlC _].
    assert (Hsub : forall v, In v (map Z.abs (upto (List.length h / 2) h))
                             \/ In v (map Z.abs (from (List.length h / 2) h))
                             -> In v (map Z.abs h)).
    { intros v Hv. rewrite <- (halves_app (List.length h / 2) h).
      rewrite map_app. apply in_or_app. exact Hv. }
    apply in_app_or in Hc. destruct Hc as [Hc | Hc];
      [apply in_app_or in Hc; destruct Hc as [Hc | Hc] |].
    + destruct (Hxor _ _ _ _ Hx Hc) as [E | [E | E]]; rewrite E.
      * left. lia.
      * right; right. lia.
      * right; right. lia.
    + destruct (IH _ _ _ _ _ HB c l Hc Hl) as [E | [E | E]].
      * right; right. lia.
      * right; left. apply Hsub. left. exact E.
      * right; right. lia.
    + destruct (IH _ _ _ _ _ HC c l Hc Hl) as [E | [E | E]].
      * right; right. lia.
      * right; left. apply Hsub. right. exact E.
      * right; right. lia.
Qed.

(** Soundness: whatever the indices, a model of the clauses gives the target
    the parity of the literals. *)
Lemma pwt_fuel_sound (fuel : nat) :
  forall h idx num_vars cs na,
    pwt_fuel fuel h idx num_vars = Ret (cs, na) ->
    forall a, bit_string_satisfies a cs = true -> a idx = parity a h.
Proof.
  induction fuel as [| fuel IH]; intros h idx nv cs na H a Hsat; [discriminate |].
  apply pwt_fuel_inv in H. destruct H as (Hlen & Hi & Hn & Hcase).
  destruct Hcase.
  - subst h. apply (xor_sat a) in Hx. apply Hx in Hsat.
    rewrite test_condition_pos in Hsat by assumption.
    rewrite Hsat. unfold parity. simpl. rewrite xorb_false_r. reflexivity.
  - subst h cs. rewrite satisfies_app in Hsat.
    apply andb_true_iff in Hsat. destruct Hsat as [Hs1 Hs2].
    apply (xor_sat a) in Hx. apply Hx in Hs1.
    rewrite (test_condition_pos a idx), (test_condition_pos a (nv + 1)) in Hs1 by lia.
    apply (IH _ _ _ _ _ Hrec) in Hs2.
    rewrite Hs1, Hs2. unfold parity. simpl. rewrite xorb_false_r.
    destruct (test_condition a x1), (test_condition a x2), (test_condition a x3);
      reflexivity.
  - subst cs. rewrite !satisfies_app in Hsat.
    apply andb_true_iff in Hsat. destruct Hsat as [Hs12 Hs3].
    apply andb_true_iff in Hs12. destruct Hs12 as [Hs1 Hs2].
    apply (xor_sat a) in Hx. apply Hx in Hs1.
    rewrite !test_condition_pos in Hs1 by lia.
    apply (IH _ _ _ _ _ HB) in Hs2. apply (IH _ _ _ _ _ HC) in Hs3.
    rewrite Hs1, Hs2, Hs3, <- parity_app, halves_app. reflexivity.
Qed.

Lemma upd_same (a : assignment) (v : Z) (b : bool) : upd a v b v = b.
Proof. unfold upd. rewrite Z.eqb_refl. reflexivity. Qed.

Lemma upd_other (a : assignment) (v u : Z) (b : bool) : u <> v -> upd a v b u = a u.
Proof. intros H. unfold upd. apply Z.eqb_neq in H. rewrite H. reflexivity. Qed.

Lemma Forall_abs_in (h : list Z) (bound v : Z) :
  Forall (fun l => Z.abs l <= bound) h -> In v (map Z.abs h) -> v <= bound.
Proof.
  intros HF Hin. apply in_map_iff in Hin. destruct Hin as (l & <- & Hl).
  rewrite Forall_forall in HF. apply HF. exact Hl.
Qed.

(** Completeness: when the literals live at or below the watermark and the
    target is not one of the ancillas, every assignment that gives the target
    the parity of the literals extends, by changing ancillas only, to a model
    of the clauses. *)
Lemma pwt_fuel_complete (fuel : nat) :
  forall h idx num_vars cs na,
    pwt_fuel fuel h idx num_vars = Ret (cs, na) ->
    Forall (fun l => Z.abs l <= num_vars) h ->
    idx <= num_vars \/ num_vars + na < idx ->
    forall a, a idx = parity a h ->
    exists a',
      (forall v, v <= num_vars \/ num_vars + na < v -> a' v = a v) /\
      bit_string_satisfies a' cs = true.
Proof.
  induction fuel as [| fuel IH]; intros h idx nv cs na H Hb Hidx a Ha; [discriminate |].
  pose proof (pwt_fuel_count _ _ _ _ _ _ H) as [Hk Hcount].
  apply pwt_fuel_inv in H. destruct H as (Hlen & Hi & Hn & Hcase).
  destruct Hcase.
  - (* two literals: no ancilla *)
    exists a. split; [reflexivity |].
    subst h. apply (xor_sat a) in Hx. apply Hx.
    rewrite test_condition_pos by assumption. rewrite Ha.
    unfold parity. simpl. rewrite xorb_false_r. reflexivity.
  - (* three literals: one ancilla for the first two *)
    subst h cs.
    pose proof (pwt_fuel_count _ _ _ _ _ _ Hrec) as [_ Hcount0].
    unfold len in Hcount0; simpl List.length in Hcount0.
    inversion Hb as [| ? ? Hb1 Hb']; subst. inversion Hb' as [| ? ? Hb2 Hb'']; subst.
    inversion Hb'' as [| ? ? Hb3 _]; subst.
    set (v := nv + 1) in *.
    set (a1 := upd a v (parity a [x1; x2])).
    assert (Hagree : forall l, Z.abs l <= nv -> a1 (Z.abs l) = a (Z.abs l)).
    { intros l Hl'. unfold a1. apply upd_other. unfold v. lia. }
    destruct (IH [x1; x2] v v _ _ Hrec) with (a := a1) as (a' & Hext & Hsat).
    + repeat constructor; unfold v; lia.
    + left. lia.
    + unfold a1 at 1. rewrite upd_same. apply parity_agree.
      intros l [<- | [<- | []]]; symmetry; apply Hagree; assumption.
    + exists a'. split.
      * intros u Hu. rewrite Hext by (unfold v; lia).
        unfold a1. apply upd_other. unfold v. lia.
      * rewrite satisfies_app, Hsat, andb_true_r.
        apply (xor_sat a') in Hx. apply Hx.
        rewrite (test_condition_pos a' idx), (test_condition_pos a' v)
          by (unfold v; lia).
        rewrite (test_condition_agree a' a x3).
        2:{ rewrite Hext by (unfold v; lia). apply Hagree. assumption. }
        rewrite (Hext v) by (left; lia).
        rewrite (Hext idx) by (unfold v; lia).
        unfold a1. rewrite upd_same. rewrite upd_other by (unfold v; lia).
        rewrite Ha. unfold parity. simpl. rewrite xorb_false_r.
        destruct (test_condition a x1), (test_condition a x2), (test_condition a x3);
          reflexivity.
  - (* four or more: one ancilla per half *)
    subst cs.
    pose proof (pwt_fuel_count _ _ _ _ _ _ HB) as [HlB HnB].
    pose proof (pwt_fuel_count _ _ _ _ _ _ HC) as [HlC HnC].
    set (B := upto (List.length h / 2) h) in *.
    set (C := from (List.length h / 2) h) in *.
    assert (HBC : h = B ++ C) by (symmetry; apply halves_app).
    rewrite HBC in Hb. apply Forall_app in Hb. destruct Hb as [HbB HbC].
    set (v1 := nv + 1) in *. set (v2 := nv + 2) in *.
    set (a1 := upd (upd a v1 (parity a B)) v2 (parity a C)).
    assert (Hagree : forall u, u <= nv \/ nv + 2 < u -> a1 u = a u).
    { intros u Hu. unfold a1. rewrite !upd_other by (unfold v1, v2; lia). reflexivity. }
    assert (Hpar : forall a0 l, (forall u, u <= nv -> a0 u = a u) ->
                     Forall (fun l => Z.abs l <= nv) l -> parity a0 l = parity a l).
    { intros a0 l Ha0 Hl. apply parity_agree. intros x Hx0. apply Ha0.
      rewrite Forall_forall in Hl. apply Hl. exact Hx0. }
    destruct (IH B v1 (nv + 2) nc1 na1 HB) with (a := a1) as (a2 & Hext2 & Hsat2).
    + eapply Forall_impl; [| exact HbB]. simpl. intros; lia.
    + left. unfold v1. lia.
    + unfold a1. rewrite upd_other by (unfold v1, v2; lia). rewrite upd_same.
      symmetry. apply Hpar; [| exact HbB]. intros u Hu. apply Hagree. lia.
    + destruct (IH C v2 (nv + 2 + na1) nc2 na2 HC) with (a := a2)
        as (a3 & Hext3 & Hsat3).
      * eapply Forall_impl; [| exact HbC]. simpl. intros; lia.
      * left. unfold v2. lia.
      * rewrite Hext2 by (unfold v2; lia). unfold a1. rewrite upd_same.
        symmetry. apply Hpar; [| exact HbC].
        intros u Hu. rewrite Hext2 by lia. apply Hagree. lia.
      * exists a3. split.
        -- intros u Hu. rewrite Hext3 by lia. rewrite Hext2 by lia.
           apply Hagree. lia.
        -- rewrite !satisfies_app, Hsat3, andb_true_r.
           apply andb_true_iff. split.
           ++ apply (xor_sat a3) in Hx. apply Hx.
              rewrite !test_condition_pos by (unfold v1, v2; lia).
              rewrite (Hext3 v1), (Hext3 v2), (Hext3 idx) by (unfold v1, v2; lia).
              rewrite (Hext2 v1), (Hext2 v2), (Hext2 idx) by (unfold v1, v2; lia).
              unfold a1. rewrite upd_same.
              rewrite (upd_other _ v2 v1) by (unfold v1, v2; lia). rewrite upd_same.
              rewrite !upd_other by (unfold v1, v2; lia).
              rewrite Ha, HBC. apply parity_app.
           ++ rewrite <- Hsat2. apply satisfies_agree.
              intros c l Hc Hl. apply Hext3.
              destruct (pwt_fuel_vars _ _ _ _ _ _ HB c l Hc Hl) as [E | [E | E]].
              ** left. unfold v1 in E. lia.
              ** left. pose proof (Forall_abs_in _ _ _ HbB E). lia.
              ** left. lia.
Qed.

(** ** Claims about the parity gate compiler *)




(** C3: on every list of k >= 2 non-zero literals, with a positive target
    and a positive [num_vars], [pwt] returns, and the ancilla count it
    returns is k - 2 = max(0, k - 2); any returning call, whatever its budget,
    reports that count. *)
Theorem pwt_ancilla_count (h : list Z) (idx num_vars : Z) :
  2 <= len h ->
  Forall (fun l => l <> 0) h -> 0 < idx -> 0 < num_vars ->
  (exists cs, pwt h idx num_vars = Ret (cs, Z.max 0 (len h - 2))) /\
  Z.max 0 (len h - 2) = len h - 2 /\
  (forall fuel cs na, pwt_fuel fuel h idx num_vars = Ret (cs, na) -> na = len h - 2).
Proof.
  intros Hk Hnz Hi Hn. split; [| split].
  - replace (Z.max 0 (len h - 2)) with (len h - 2) by lia.
    apply pwt_fuel_returns; try assumption. lia.
  - lia.
  - intros fuel cs na H. apply pwt_fuel_count in H. tauto.
Qed.

Lemma pwt_ancilla_count_witness :
  (exists cs, pwt [1; 2; 3; 4; 5; 6; 7] 8 8
              = Ret (cs, Z.max 0 (len [1; 2; 3; 4; 5; 6; 7] - 2))) /\
  Z.max 0 (len [1; 2; 3; 4; 5; 6; 7] - 2) = len [1; 2; 3; 4; 5; 6; 7] - 2 /\
  (forall fuel cs na,
      pwt_fuel fuel [1; 2; 3; 4; 5; 6; 7] 8 8 = Ret (cs, na) ->
      na = len [1; 2; 3; 4; 5; 6; 7] - 2).
Proof.
  apply (pwt_ancilla_count [1; 2; 3; 4; 5; 6; 7] 8 8).
  - unfold len; simpl; lia.
  - repeat constructor; lia.
  - lia.
  - lia.
Defined.

(** C10: a call with exactly one literal raises AssertionError: with a
    positive target and watermark it passes the entry assertions, takes the
    splitting branch and recurses on the empty first half, whose call fails
    the assertion len(h) > 0.  Hence [pwt] returns only on lists of at least
    two literals. *)
Theorem pwt_single_literal_raises :
  (forall x idx num_vars, pwt [x] idx num_vars = Raise AssertionError) /\
  (forall x : Z, upto (List.length [x] / 2) [x] = []) /\
  (forall fuel idx num_vars, pwt_fuel (S fuel) [] idx num_vars = Raise AssertionError) /\
  (forall h idx num_vars r, pwt h idx num_vars = Ret r -> 2 <= len h).
Proof.
  split; [| split; [| split]].
  - intros x idx nv. unfold pwt. simpl List.length. rewrite pwt_fuel_eq.
    change (len [x]) with 1.
    change (0 <? 1) with true. change (1 =? 2) with false.
    change (1 =? 3) with false. cbn [obind py_assert].
    destruct (0 <? idx) eqn:Ei; cbn [obind py_assert]; [| reflexivity].
    destruct (0 <? nv) eqn:En; cbn [obind py_assert]; [| reflexivity].
    apply Z.ltb_lt in Ei, En.
    rewrite xor_returns by lia. cbn [obind]. reflexivity.
  - reflexivity.
  - reflexivity.
  - intros h idx nv [cs na] H. apply pwt_fuel_count in H. tauto.
Qed.

Lemma pwt_single_literal_raises_witness :
  pwt [5] 6 6 = Raise AssertionError /\
  (forall r, pwt [1; 2] 3 3 = Ret r -> 2 <= len [1; 2]).
Proof.
  split.
  - apply (proj1 pwt_single_literal_raises 5 6 6).
  - intros r H.
    apply (proj2 (proj2 (proj2 pwt_single_literal_raises)) [1; 2] 3 3 r H).
Defined.

(** ** Reasoning principles for traced computations *)

Import Distance.

Lemma mbind_fst {A B : Type} (m : M A) (f : A -> M B) :
  fst (mbind m f) = obind (fst m) (fun a => fst (f a)).
Proof.
  destruct m as [[a | e | ] t]; simpl; try reflexivity.
  destruct (f a); reflexivity.
Qed.

Lemma mbind_Ret {A B : Type} (a : A) (t : list event) (f : A -> M B) :
  mbind (Ret a, t) f = (fst (f a), t ++ snd (f a)).
Proof. simpl. destruct (f a); reflexivity. Qed.

Lemma mbind_snd {A B : Type} (m : M A) (f : A -> M B) :
  snd (mbind m f)
  = snd m ++ match fst m with Ret a => snd (f a) | _ => [] end.
Proof.
  destruct m as [[a | e | ] t]; simpl; rewrite ?app_nil_r; try reflexivity.
  destruct (f a); reflexivity.
Qed.

Lemma mbind_Ret_inv {A B : Type} (m : M A) (f : A -> M B) (b : B) (tr : list event) :
  mbind m f = (Ret b, tr) ->
  exists a t1 t2, m = (Ret a, t1) /\ f a = (Ret b, t2) /\ tr = t1 ++ t2.
Proof.
  destruct m as [[a | e | ] t]; simpl; intros H; try discriminate.
  destruct (f a) as [o t'] eqn:E. injection H as -> <-.
  exists a, t, t'. auto.
Qed.

Lemma mbind_failed {A B : Type} (m : M A) (f : A -> M B) :
  (forall a, fst m <> Ret a) -> mbind m f = (match fst m with
                                             | Ret _ => OutOfFuel
                                             | Raise e => Raise e
                                             | OutOfFuel => OutOfFuel
                                             end, snd m).
Proof.
  destruct m as [[a | e | ] t]; simpl; intros H; try reflexivity.
  exfalso. apply (H a). reflexivity.
Qed.







Lemma py_assert_total (b : bool) : py_assert b <> OutOfFuel.
Proof. destruct b; simpl; discriminate. Qed.

Lemma keeps_bind {A B : Type} (m : M A) (f : A -> M B) :
  keeps_session m -> (forall a, keeps_session (f a)) -> keeps_session (mbind m f).
Proof.
  unfold keeps_session. rewrite mbind_snd. intros Hm Hf Hin.
  apply in_app_or in Hin. destruct Hin as [Hin | Hin]; [auto |].
  destruct (fst m); simpl in Hin; try contradiction. apply (Hf a Hin).
Qed.

Lemma keeps_lift {A : Type} (o : outcome A) : keeps_session (lift o).
Proof. unfold keeps_session; simpl; tauto. Qed.

Lemma keeps_mret {A : Type} (a : A) : keeps_session (mret a).
Proof. unfold keeps_session; simpl; tauto. Qed.

Lemma keeps_massert (b : bool) : keeps_session (massert b).
Proof. apply keeps_lift. Qed.

Lemma keeps_emit (e : event) : e <> EvDelete -> keeps_session (emit e).
Proof. unfold keeps_session; simpl. intros H [E | []]. congruence. Qed.

Lemma releases_bind {A B : Type} (m : M A) (f : A -> M B) :
  keeps_session m -> (forall a, releases_on_return (f a)) ->
  releases_on_return (mbind m f).
Proof.
  unfold keeps_session, releases_on_return. intros Hm Hf.
  rewrite mbind_fst, mbind_snd.
  destruct (fst m) as [a | e | ]; simpl; rewrite ?app_nil_r; try assumption.
  specialize (Hf a). destruct (fst (f a)).
  - destruct Hf as (t & -> & Ht). exists (snd m ++ t). split.
    + rewrite app_assoc. reflexivity.
    + intros Hin. apply in_app_or in Hin. tauto.
  - intros Hin. apply in_app_or in Hin. tauto.
  - intros Hin. apply in_app_or in Hin. tauto.
Qed.

Ltac keeps :=
  repeat match goal with
  | |- keeps_session (mbind _ _) => apply keeps_bind; [| intros ? ]
  | |- keeps_session (lift _) => apply keeps_lift
  | |- keeps_session (mret _) => apply keeps_mret
  | |- keeps_session (massert _) => apply keeps_massert
  | |- keeps_session (emit _) => apply keeps_emit; discriminate
  end.

Ltac releases :=
  repeat match goal with
  | |- releases_on_return (mbind (emit EvDelete) _) => fail 1
  | |- releases_on_return (mbind _ _) => apply releases_bind; [keeps | intros ? ]
  end.

(** ** The solver session along the paths of [sat_distance] *)

Lemma check_proof_keeps (sv : services) (proof : option (list string))
  (cnf : list clause) : keeps_session (check_proof sv proof cnf).
Proof.
  unfold check_proof. keeps. destruct proof as [lines |]; keeps.
  match goal with |- context [drup_check_proof ?s ?c ?p] =>
    destruct (drup_check_proof s c p) end; keeps.
Qed.

Lemma standard_form_keeps (sv : services) (HX HZ : ndarray) :
  keeps_session (standard_form sv HX HZ).
Proof.
  unfold standard_form. keeps.
  destruct (reduced_row_echelon sv HX) as [[[? ?] ?] ?]. keeps.
  destruct (reduced_row_echelon sv HZ) as [[[? ?] ?] ?]. keeps.
Qed.

Lemma build_constraints_keeps (sv : services) (threshold : Z) (n : nat) (st : standard) :
  keeps_session (build_constraints sv threshold n st).
Proof.
  unfold build_constraints. keeps.
  match goal with |- context [let (_, _) := ?p in _] => destruct p end. keeps.
Qed.

Lemma prepare_keeps (sv : services) (threshold : Z) (HX HZ : ndarray) :
  keeps_session (prepare sv threshold HX HZ).
Proof.
  unfold prepare. keeps.
  - apply standard_form_keeps.
  - apply build_constraints_keeps.
Qed.

Lemma releases_delete_then_return {A : Type} (a : A) :
  releases_on_return (mbind (emit EvDelete) (fun _ => mret a)).
Proof.
  unfold releases_on_return. simpl. exists []. split; [reflexivity | simpl; tauto].
Qed.

Lemma accept_model_releases (threshold : Z) (n : nat) (st : standard)
  (letter : string) (model : list Z) :
  releases_on_return (accept_model threshold n st letter model).
Proof.
  unfold accept_model. releases. apply releases_delete_then_return.
Qed.

Lemma report_unsat_releases (sv : services) (constraints : list clause) (proof : bool) :
  releases_on_return (report_unsat sv constraints proof).
Proof.
  unfold report_unsat. apply releases_bind.
  - destruct proof; keeps. apply check_proof_keeps.
  - intros _. apply releases_delete_then_return.
Qed.

Lemma sat_distance_releases (sv : services) (threshold : Z) (HX HZ : ndarray)
  (proof switch : bool) :
  releases_on_return (sat_distance sv threshold HX HZ proof switch).
Proof.
  unfold sat_distance. apply releases_bind; [apply prepare_keeps |].
  intros [[n st] constraints]. releases.
  destruct (g_solve sv constraints).
  - releases. apply accept_model_releases.
  - apply report_unsat_releases.
Qed.

(** C9 (amended): [sat_distance] calls g.delete() exactly once, as its last
    act, on both returning paths (a model, or False); a call that ends in an
    exception, such as a failed assertion of the post-condition checks or of
    the proof check, ends without g.delete(). *)
Theorem session_released_on_return (sv : services) (threshold : Z) (HX HZ : ndarray)
  (proof switch : bool) :
  (forall out,
      fst (sat_distance sv threshold HX HZ proof switch) = Ret out ->
      exists t, snd (sat_distance sv threshold HX HZ proof switch) = t ++ [EvDelete]
                /\ ~ In EvDelete t) /\
  (forall e,
      fst (sat_distance sv threshold HX HZ proof switch) = Raise e ->
      ~ In EvDelete (snd (sat_distance sv threshold HX HZ proof switch))).
Proof.
  pose proof (sat_distance_releases sv threshold HX HZ proof switch) as H.
  unfold releases_on_return in H.
  split.
  - intros out E. rewrite E in H. exact H.
  - intros e E. rewrite E in H. exact H.
Qed.

Lemma session_released_on_return_witness :
  (exists t,
      snd (sat_distance
             (Fixture.fixed_services Fixture.rre422 true
                [1; 2; -3; -4; 5; -6; -7; -8; -9] None Valid)
             2 Fixture.H422 Fixture.H422 false false) = t ++ [EvDelete]
      /\ ~ In EvDelete t) /\
  ~ In EvDelete
      (snd (sat_distance
              (Fixture.fixed_services Fixture.rre422 true
                 [1; 2; -3; -4; 5; -6; -7; -8; -9] None Valid)
              1 Fixture.H422 Fixture.H422 false false)).
Proof.
  split.
  - apply (proj1 (session_released_on_return _ 2 Fixture.H422 Fixture.H422 false false)
             (Some [1; 2; -3; -4; 5; -6; -7; -8; -9])).
    reflexivity.
  - apply (proj2 (session_released_on_return _ 1 Fixture.H422 Fixture.H422 false false)
             AssertionError).
    reflexivity.
Defined.

(** C9 as stated fails on the assertion paths: with HX = HZ = [[1,1,1,1]],
    threshold 1 and a solver model of weight 2, the weight assertion fails
    after the session was created and queried, and the call ends without
    g.delete(). *)
Lemma failed_assertion_keeps_session :
  let r := sat_distance
             (Fixture.fixed_services Fixture.rre422 true
                [1; 2; -3; -4; 5; -6; -7; -8; -9] None Valid)
             1 Fixture.H422 Fixture.H422 false false in
  fst r = Raise AssertionError /\ In EvSolve (snd r) /\ ~ In EvDelete (snd r).
Proof.
  cbv zeta. split; [reflexivity |]. split.
  - vm_compute. tauto.
  - vm_compute. intuition discriminate.
Qed.

(** ** The post-condition checks on a model *)

Lemma sat_distance_on_model (sv : services) (threshold : Z) (HX HZ : ndarray)
  (proof switch : bool) (n : nat) (st : standard) (constraints : list clause)
  (tr : list event) :
  prepare sv threshold HX HZ = (Ret (n, st, constraints), tr) ->
  g_solve sv constraints = true ->
  fst (sat_distance sv threshold HX HZ proof switch)
  = fst (accept_model threshold n st (if switch then "X"%string else "Z"%string)
           (g_get_model sv constraints)).
Proof.
  intros Hp Hs. unfold sat_distance. rewrite Hp.
  rewrite mbind_fst. cbn [fst obind]. rewrite !mbind_fst. cbn [fst emit obind].
  rewrite Hs. rewrite mbind_fst. reflexivity.
Qed.

Lemma accept_model_outcome (threshold : Z) (n : nat) (st : standard)
  (letter : string) (model : list Z) :
  fst (accept_model threshold n st letter model)
  = (assert! weight_check threshold n model ;;
     null <- null_check n st model ;;
     assert! null ;;
     temp <- support (Np.transpose (s_col_transform st)) (upto n model) ;;
     notstab <- stabilizer_check n st model ;;
     assert! notstab ;;
     Ret (Some model))%outcome.
Proof.
  unfold accept_model, massert, lift.
  rewrite mbind_fst. cbn [fst].
  destruct (py_assert (weight_check threshold n model)); cbn [obind]; try reflexivity.
  rewrite mbind_fst. cbn [fst].
  destruct (null_check n st model) as [null | e | ]; cbn [obind]; try reflexivity.
  rewrite mbind_fst. cbn [fst].
  destruct (py_assert null); cbn [obind]; try reflexivity.
  rewrite mbind_fst. cbn [fst].
  destruct (support _ _) as [temp | e | ]; cbn [obind]; try reflexivity.
  rewrite mbind_fst. cbn [fst].
  destruct (stabilizer_check n st model) as [ns | e | ]; cbn [obind]; try reflexivity.
  rewrite mbind_fst. cbn [fst].
  destruct (py_assert ns); cbn [obind]; reflexivity.
Qed.




(** ** The certificate check *)

Lemma check_proof_never_false (sv : services) (proof : option (list string))
  (cnf : list clause) (b : bool) :
  fst (check_proof sv proof cnf) = Ret b -> b = true.
Proof.
  unfold check_proof. rewrite !mbind_fst. cbn [fst emit obind].
  destruct proof as [lines |]; [| discriminate].
  rewrite mbind_fst. cbn [fst lift].
  destruct (convert_proof lines) as [proof2 | e | ]; cbn [obind]; try discriminate.
  rewrite mbind_fst. cbn [fst emit obind].
  destruct (drup_check_proof sv cnf proof2); simpl; congruence.
Qed.

(** C8 is violated: the verdict of drup.check_proof is dropped.  With a
    checker that reports the certificate invalid, check_proof(["0"],[[1]])
    still returns True ([[1]] is satisfiable, so no certificate of it can be
    valid), and sat_distance(1,HX,HZ,proof=True) on an unsatisfiable answer
    prints "Proof of no solution verified." and returns False. *)
Lemma invalid_certificate_reported_verified :
  let sv := Fixture.fixed_services Fixture.rre422 false [] (Some ["0"%string]) Invalid in
  check_proof sv (Some ["0"%string]) [[1]]
  = (Ret true,
     [EvPrint "Proof of no solution:"; EvPrintProof (Some ["0"%string]);
      EvDrup [[1]] [[]]]) /\
  fst (sat_distance sv 1 Fixture.H422 Fixture.H422 true false) = Ret None /\
  In (EvPrint "Proof of no solution verified.")
     (snd (sat_distance sv 1 Fixture.H422 Fixture.H422 true false)).
Proof.
  cbv zeta. split; [reflexivity |]. split; [reflexivity |].
  vm_compute. tauto.
Qed.

(** ** Variable numbering in the clause construction *)

(** C2 is violated in the null-space loop.  For the [[4,2,2]] code
    (HX = HZ = [[1,1,1,1]]) the first loop ends with watermark 7; the second
    loop then calls pwt([1,2,3,4], 8, 7): the output variable 8 was not
    counted into the watermark, so [pwt] takes 8 and 9 as its ancillas and
    the target is its own first ancilla.  The emitted clauses force
    x1 = x2 and x3 = x4 instead of x1+x2+x3+x4 = 0: the weight-2 logical
    operator 1010 (even overlap with HX, not a multiple of 1111) has no
    extension to a model. *)
Lemma null_space_target_reused_as_ancilla :
  let sv := Fixture.fixed_services Fixture.rre422 true [] None Valid in
  exists st cs0 cs tr,
    standard_form sv Fixture.H422 Fixture.H422 = (Ret st, tr) /\
    not_stabilizer 4 st = Ret (cs0, 7) /\
    Np.row (s_Hx st) 0 = Ret [1; 1; 1; 1] /\
    ones [1; 1; 1; 1] = [1; 2; 3; 4] /\
    pwt [1; 2; 3; 4] (7 + 0 + 1) 7
    = Ret ([[-8; -8; -9]; [-8; 8; 9]; [8; 8; -9]; [8; -8; 9];
            [-8; -1; -2]; [-8; 1; 2]; [8; 1; -2]; [8; -1; 2];
            [-9; -3; -4]; [-9; 3; 4]; [9; 3; -4]; [9; -3; 4]], 2) /\
    commutes st (cs0, 7) = Ret (cs, 9) /\
    In [-8] cs /\ In [8; -1; 2] cs /\
    Np.dot [1; 1; 1; 1] [1; 0; 1; 0] mod 2 = 0 /\
    (forall a : assignment,
        a 1 = true -> a 2 = false -> a 3 = true -> a 4 = false ->
        bit_string_satisfies a cs = false).
Proof.
  cbv zeta. do 4 eexists.
  split; [reflexivity |]. split; [reflexivity |]. split; [reflexivity |].
  split; [reflexivity |]. split; [reflexivity |]. split; [reflexivity |].
  split; [simpl; tauto |]. split; [simpl; tauto |]. split; [reflexivity |].
  intros a H1 H2 H3 H4.
  destruct (bit_string_satisfies a _) eqn:E; [| reflexivity]. exfalso.
  unfold bit_string_satisfies in E. rewrite forallb_forall in E.
  pose proof (E [-8] ltac:(simpl; tauto)) as E8.
  pose proof (E [8; -1; 2] ltac:(simpl; tauto)) as E12.
  unfold bit_string_or, test_condition in E8, E12. simpl in E8, E12.
  rewrite H1, H2 in E12. destruct (a 8); simpl in *; discriminate.
Qed.

(** The same omission with rows of two literals: for HX = [[1,1,0,0]],
    HZ = [[1,1,0,0],[0,0,1,1]] the null-space row compiles without ancillas,
    the watermark stays at 6 and is handed to the cardinality encoder as
    top_id, below the output variable 7 already used in the clause [-7]. *)
Lemma null_space_output_above_watermark :
  let sv := Fixture.fixed_services Fixture.rre_pair true [] None Valid in
  exists n st cs,
    prepare sv 1 Fixture.HX_pair Fixture.HZ_pair
    = (Ret (n, st, cs),
       [EvReduce Fixture.HX_pair; EvReduce Fixture.HZ_pair;
        EvAtmost [1; 2; 3; 4] 1 6]) /\
    In [-7] cs.
Proof.
  cbv zeta. do 3 eexists. split; [reflexivity |]. simpl. tauto.
Qed.

(** ** Validation of the caller's matrices *)

Lemma is_binary_spec (m : ndarray) : Np.is_binary m = true <-> binary m.
Proof.
  unfold Np.is_binary, binary. rewrite negb_true_iff. split.
  - intros H r x Hr Hx.
    destruct (Z.eq_dec (x - x * x) 0) as [E | E]; [nia |].
    exfalso. apply not_true_iff_false in H. apply H.
    apply existsb_exists. exists r. split; [exact Hr |].
    apply existsb_exists. exists x. split; [exact Hx |].
    apply negb_true_iff. apply Z.eqb_neq. exact E.
  - intros H. apply not_true_iff_false. intros E.
    apply existsb_exists in E. destruct E as (r & Hr & E).
    apply existsb_exists in E. destruct E as (x & Hx & E).
    apply negb_true_iff, Z.eqb_neq in E.
    destruct (H r x Hr Hx) as [-> | ->]; apply E; reflexivity.
Qed.

Lemma map_nth_seq (l : list Z) :
  map (fun i => nth i l 0) (seq 0 (List.length l)) = l.
Proof.
  induction l as [| a l IH]; [reflexivity |].
  cbn [List.length seq map nth]. f_equal.
  rewrite <- seq_shift, map_map. exact IH.
Qed.

Lemma nth_column (rs : list (list Z)) (i j : nat) :
  nth j (map (fun r => nth i r 0) rs) 0 = nth i (nth j rs []) 0.
Proof.
  revert j. induction rs as [| r rs IH]; intros j.
  - destruct j, i; reflexivity.
  - destruct j as [| j]; [reflexivity |]. cbn [map nth]. apply IH.
Qed.

Lemma column_transpose (m : ndarray) (j : nat) :
  rectangular m -> (j < nrows m)%nat ->
  Np.column (Np.transpose m) j = nth j (rows m) [].
Proof.
  intros Hwf Hj. unfold Np.transpose, Np.column. cbn [rows].
  rewrite map_map.
  assert (Hlen : List.length (nth j (rows m) []) = ncols m).
  { unfold rectangular in Hwf. rewrite Forall_forall in Hwf.
    apply Hwf. apply nth_In. exact Hj. }
  rewrite <- Hlen at 1. rewrite <- (map_nth_seq (nth j (rows m) [])) at 2.
  apply map_ext. intros i. apply nth_column.
Qed.

Lemma any_false_iff (m : ndarray) :
  Np.any m = false <-> forall r x, In r (rows m) -> In x r -> x = 0.
Proof.
  unfold Np.any. split.
  - intros H r x Hr Hx. destruct (Z.eq_dec x 0) as [E | E]; [exact E |].
    exfalso. apply not_true_iff_false in H. apply H.
    apply existsb_exists. exists r. split; [exact Hr |].
    apply existsb_exists. exists x. split; [exact Hx |].
    apply negb_true_iff, Z.eqb_neq. exact E.
  - intros H. apply not_true_iff_false. intros E.
    apply existsb_exists in E. destruct E as (r & Hr & E).
    apply existsb_exists in E. destruct E as (x & Hx & E).
    apply negb_true_iff, Z.eqb_neq in E. apply E. apply (H r x Hr Hx).
Qed.

Lemma product_commutes (HX HZ : ndarray) (p : ndarray) :
  rectangular HZ ->
  Np.matmul HX (Np.transpose HZ) = Ret p ->
  (Np.any (Np.mod2 p) = false <-> commuting HX HZ).
Proof.
  intros Hwf Hp. unfold Np.matmul in Hp.
  destruct (ncols HX =? nrows (Np.transpose HZ))%nat; [| discriminate].
  injection Hp as <-. rewrite any_false_iff. unfold commuting. cbn [Np.mod2 rows ncols].
  assert (Hn : ncols (Np.transpose HZ) = nrows HZ) by reflexivity.
  split.
  - intros H r r' Hr Hr'.
    destruct (In_nth _ _ [] Hr') as (j & Hj & Ej).
    apply (H (map (fun x => x mod 2)
                (map (fun j => Np.dot r (Np.column (Np.transpose HZ) j))
                   (seq 0 (ncols (Np.transpose HZ)))))).
    + apply in_map. apply in_map_iff. exists r. split; [reflexivity | exact Hr].
    + apply in_map_iff. exists (Np.dot r r'). split; [reflexivity |].
      apply in_map_iff. exists j. split.
      * rewrite column_transpose by assumption. rewrite Ej. reflexivity.
      * apply in_seq. rewrite ?Hn. fold (nrows HZ) in Hj. lia.
  - intros H r x Hr Hx.
    apply in_map_iff in Hr. destruct Hr as (r0 & <- & Hr0).
    apply in_map_iff in Hr0. destruct Hr0 as (r1 & <- & Hr1).
    apply in_map_iff in Hx. destruct Hx as (y & <- & Hy).
    apply in_map_iff in Hy. destruct Hy as (j & <- & Hj).
    apply in_seq in Hj. rewrite ?Hn in Hj.
    rewrite column_transpose by (assumption || lia).
    apply H; [exact Hr1 |]. apply nth_In. fold (nrows HZ). lia.
Qed.

Lemma validate_outcome (HX HZ : ndarray) :
  validate HX HZ = Ret (ncols HX) \/ validate HX HZ = Raise AssertionError.
Proof.
  unfold validate.
  destruct (Np.is_binary HX); cbn [obind py_assert]; [| right; reflexivity].
  destruct (Np.is_binary HZ); cbn [obind py_assert]; [| right; reflexivity].
  destruct (ncols HX =? ncols HZ)%nat eqn:E; cbn [obind py_assert];
    [| right; reflexivity].
  unfold Np.matmul.
  replace (nrows (Np.transpose HZ)) with (ncols HZ)
    by (unfold nrows, Np.transpose; cbn [rows]; rewrite length_map, length_seq; reflexivity).
  rewrite E. cbn [obind].
  destruct (negb _); cbn [obind py_assert]; [left | right]; reflexivity.
Qed.

Lemma validate_spec (HX HZ : ndarray) :
  rectangular HZ ->
  (validate HX HZ = Ret (ncols HX) <->
   binary HX /\ binary HZ /\ ncols HX = ncols HZ /\ commuting HX HZ).
Proof.
  intros Hwf. rewrite <- !is_binary_spec. unfold validate.
  destruct (Np.is_binary HX); cbn [obind py_assert];
    [| split; [discriminate | intros (H & _); discriminate]].
  destruct (Np.is_binary HZ); cbn [obind py_assert];
    [| split; [discriminate | intros (_ & H & _); discriminate]].
  destruct (ncols HX =? ncols HZ)%nat eqn:E; cbn [obind py_assert].
  2:{ apply Nat.eqb_neq in E. split; [discriminate | intros (_ & _ & H & _); contradiction]. }
  apply Nat.eqb_eq in E.
  destruct (Np.matmul HX (Np.transpose HZ)) as [p | e | ] eqn:Ep; cbn [obind].
  - pose proof (product_commutes HX HZ p Hwf Ep) as Hc.
    destruct (Np.any (Np.mod2 p)); cbn [negb obind py_assert].
    + split; [discriminate |]. intros (_ & _ & _ & H). apply Hc in H. discriminate.
    + split; [| reflexivity]. intros _. repeat split; try reflexivity; try assumption.
      apply Hc. reflexivity.
  - exfalso. unfold Np.matmul in Ep.
    replace (nrows (Np.transpose HZ)) with (ncols HZ) in Ep
      by (unfold nrows, Np.transpose; cbn [rows]; rewrite length_map, length_seq; reflexivity).
    apply Nat.eqb_eq in E. rewrite E in Ep. discriminate.
  - exfalso. unfold Np.matmul in Ep. destruct (_ =? _)%nat; discriminate.
Qed.

(** C7: before anything else [sat_distance] checks that HX and HZ are
    binary, have the same number of columns and satisfy HX.HZ^T = 0 (mod 2).
    When a check fails the call ends in AssertionError with an empty trace:
    no row reduction, no cardinality encoding, no solver session, no query.
    When they hold, the first thing the call does is the row reduction of
    HX. *)
Theorem invalid_input_stops_before_compilation (sv : services) (threshold : Z)
  (HX HZ : ndarray) (proof switch : bool) :
  rectangular HX -> rectangular HZ ->
  (validate HX HZ = Ret (ncols HX) <->
   binary HX /\ binary HZ /\ ncols HX = ncols HZ /\ commuting HX HZ) /\
  (~ (binary HX /\ binary HZ /\ ncols HX = ncols HZ /\ commuting HX HZ) ->
   sat_distance sv threshold HX HZ proof switch = (Raise AssertionError, [])) /\
  (binary HX /\ binary HZ /\ ncols HX = ncols HZ /\ commuting HX HZ ->
   exists tr, snd (sat_distance sv threshold HX HZ proof switch) = EvReduce HX :: tr).
Proof.
  intros _ Hwf. pose proof (validate_spec HX HZ Hwf) as Hspec.
  split; [exact Hspec |]. split.
  - intros Hbad.
    destruct (validate_outcome HX HZ) as [E | E]; [apply Hspec in E; contradiction |].
    unfold sat_distance, prepare. rewrite E. reflexivity.
  - intros Hok. apply Hspec in Hok.
    unfold sat_distance, prepare. rewrite Hok.
    rewrite !mbind_snd. cbn [lift fst snd app].
    rewrite mbind_snd. unfold standard_form at 1. rewrite mbind_snd.
    cbn [emit fst snd app]. eexists. reflexivity.
Qed.

Lemma invalid_input_stops_before_compilation_witness :
  sat_distance (Fixture.fixed_services Fixture.rre422 true [] None Valid) 2
    {| ncols := 4; rows := [[1; 1; 1; 0]] |} Fixture.H422 false false
  = (Raise AssertionError, []) /\
  (exists tr,
      snd (sat_distance (Fixture.fixed_services Fixture.rre422 true [] None Valid) 2
             Fixture.H422 Fixture.H422 false false) = EvReduce Fixture.H422 :: tr).
Proof.
  split.
  - apply (invalid_input_stops_before_compilation
             (Fixture.fixed_services Fixture.rre422 true [] None Valid) 2
             {| ncols := 4; rows := [[1; 1; 1; 0]] |} Fixture.H422 false false).
    + repeat constructor.
    + repeat constructor.
    + intros (_ & _ & _ & Hc).
      specialize (Hc [1; 1; 1; 0] [1; 1; 1; 1] (or_introl eq_refl) (or_introl eq_refl)).
      vm_compute in Hc. discriminate.
  - apply (invalid_input_stops_before_compilation
             (Fixture.fixed_services Fixture.rre422 true [] None Valid) 2
             Fixture.H422 Fixture.H422 false false).
    + repeat constructor.
    + repeat constructor.
    + split; [| split; [| split]].
      * intros r x [<- | []] Hx. simpl in Hx. intuition.
      * intros r x [<- | []] Hx. simpl in Hx. intuition.
      * reflexivity.
      * intros r r' [<- | []] [<- | []]. reflexivity.
Defined.

(** ** No path of [sat_distance] exhausts a recursion budget *)


Lemma pwt_total (h : list Z) (idx num_vars : Z) : pwt h idx num_vars <> OutOfFuel.
Proof. unfold pwt. apply pwt_fuel_total. lia. Qed.
















(** ** The search loop of [find_weight] *)

Lemma while_loop_eq {St : Type} (fuel : nat) (cond : St -> bool) (body : St -> M St)
  (s : St) :
  while_loop (S fuel) cond body s
  = if cond s then mbind (body s) (while_loop fuel cond body) else mret s.
Proof. reflexivity. Qed.

(** What one pass through the loop body does, given the answer to its query. *)
Lemma search_body_step (q : Z -> M (option (list Z))) (num : nat) (upper : Z) (b : bool)
  (out : option (list Z)) (tr : list event) :
  q (upper - 1) = (Ret out, tr) ->
  search_body q num (upper, b)
  = if truthy out then
      if (0 <? witness_weight num out) && (witness_weight num out <? upper)
      then (Ret (witness_weight num out, true), tr ++ [EvPrint shorter_msg])
      else (Raise AssertionError, tr)
    else (Ret (upper, false), tr).
Proof.
  intros Hq. unfold search_body. cbn [fst]. rewrite Hq.
  unfold shorter_msg. cbn [mbind].
  destruct (truthy out).
  - destruct ((0 <? witness_weight num out) && (witness_weight num out <? upper));
      simpl; rewrite ?app_nil_r; reflexivity.
  - simpl. rewrite app_nil_r. reflexivity.
Qed.

Lemma search_body_raise (q : Z -> M (option (list Z))) (num : nat) (upper : Z) (b : bool)
  (e : exn) (tr : list event) :
  q (upper - 1) = (Raise e, tr) -> search_body q num (upper, b) = (Raise e, tr).
Proof. intros H. unfold search_body. cbn [fst]. rewrite H. reflexivity. Qed.

Lemma search_body_out (q : Z -> M (option (list Z))) (num : nat) (upper : Z) (b : bool)
  (tr : list event) :
  q (upper - 1) = (OutOfFuel, tr) -> search_body q num (upper, b) = (OutOfFuel, tr).
Proof. intros H. unfold search_body. cbn [fst]. rewrite H. reflexivity. Qed.



Lemma search_fst (q : Z -> M (option (list Z))) (num : nat) (upper : Z) :
  fst (search q num upper)
  = obind (fst (while_loop (search_budget upper) snd (search_body q num) (upper, true)))
      (fun s => Ret (fst s)).
Proof. unfold search. rewrite mbind_fst. reflexivity. Qed.






Lemma find_weight_with_fst
  (oracle : Z -> ndarray -> ndarray -> bool -> M (option (list Z)))
  (Hx Hz : ndarray) (upper_bound : Z) (both switch : bool) :
  Np.is_binary Hx = true -> Np.is_binary Hz = true ->
  fst (find_weight_with oracle Hx Hz upper_bound both switch)
  = let HX := if switch then Hz else Hx in
    let HZ := if switch then Hx else Hz in
    obind (fst (search (fun t => oracle t HX HZ switch) (ncols HX) upper_bound))
      (fun upper =>
         if both then fst (search (fun t => oracle t HZ HX (negb switch)) (ncols HZ) upper)
         else Ret upper).
Proof.
  intros Bx Bz. unfold find_weight_with.
  destruct switch; cbv beta iota zeta; rewrite Bx, Bz;
    rewrite !mbind_fst; cbn [massert lift py_assert fst obind];
    destruct (fst (search _ _ _)); cbn [obind]; try reflexivity;
    destruct both; reflexivity.
Qed.




(** ** More on the parity gate compiler *)

Lemma pwt_fuel_nonzero (fuel : nat) :
  forall h idx num_vars cs na,
    pwt_fuel fuel h idx num_vars = Ret (cs, na) -> Forall (fun l => l <> 0) h.
Proof.
  induction fuel as [| fuel IH]; intros h idx nv cs na H; [discriminate |].
  apply pwt_fuel_inv in H. destruct H as (_ & _ & _ & Hc). destruct Hc.
  - subst h. apply xor_inv in Hx. destruct Hx as (_ & H1 & H2 & _).
    repeat constructor; assumption.
  - subst h. apply xor_inv in Hx. destruct Hx as (_ & H3 & _ & _).
    apply IH in Hrec. inversion Hrec as [| ? ? H1 Hrec']; subst.
    inversion Hrec' as [| ? ? H2 _]; subst. repeat constructor; assumption.
  - apply IH in HB, HC. rewrite <- (halves_app (List.length h / 2) h).
    apply Forall_app. split; assumption.
Qed.

Lemma xor_raises (y x1 x2 : Z) (e : exn) : xor y x1 x2 = Raise e -> e = AssertionError.
Proof.
  unfold xor. destruct (negb _); cbn [py_assert obind]; intros H;
    [discriminate | congruence].
Qed.

Lemma pwt_fuel_raises (fuel : nat) :
  forall h idx num_vars e,
    pwt_fuel fuel h idx num_vars = Raise e -> e = AssertionError.
Proof.
  induction fuel as [| fuel IH]; intros h idx nv e H; [discriminate |].
  rewrite pwt_fuel_eq in H.
  destruct (0 <? len h); cbn [obind py_assert] in H; [| congruence].
  destruct (0 <? idx); cbn [obind py_assert] in H; [| congruence].
  destruct (0 <? nv); cbn [obind py_assert] in H; [| congruence].
  destruct (len h =? 2).
  { destruct (xor idx (item h 0) (item h 1)) eqn:Ex; cbn [obind] in H;
      try discriminate. injection H as <-. eapply xor_raises; eassumption. }
  destruct (len h =? 3).
  - destruct (xor idx (item h 2) (nv + 1)) eqn:Ex; cbn [obind] in H; try discriminate.
    + destruct (pwt_fuel fuel (upto 2 h) (nv + 1) (nv + 1)) as [[nc na] | e' | ] eqn:Er;
        cbn [obind] in H; try discriminate.
      injection H as <-. eapply IH; eassumption.
    + injection H as <-. eapply xor_raises; eassumption.
  - destruct (xor idx (nv + 1) (nv + 2)) eqn:Ex; cbn [obind] in H; try discriminate.
    + destruct (pwt_fuel fuel (upto (List.length h / 2) h) (nv + 1) (nv + 2))
        as [[nc na] | e' | ] eqn:EB; cbn [obind] in H; try discriminate.
      * destruct (pwt_fuel fuel (from (List.length h / 2) h) (nv + 2) (nv + 2 + na))
          as [[nc' na'] | e' | ] eqn:EC; cbn [obind] in H; try discriminate.
        injection H as <-. eapply IH; eassumption.
      * injection H as <-. eapply IH; eassumption.
    + injection H as <-. eapply xor_raises; eassumption.
Qed.

(** X1: [pwt] returns exactly on lists of at least two literals, none of
    them 0, with a positive target and a positive [num_vars]; on every other
    input it raises AssertionError (a zero literal passes the entry
    assertion, which tests the list, and is caught by [xor]). *)
Theorem pwt_returns_iff (h : list Z) (idx num_vars : Z) :
  ((exists r, pwt h idx num_vars = Ret r) <->
   2 <= len h /\ Forall (fun l => l <> 0) h /\ 0 < idx /\ 0 < num_vars) /\
  ((forall r, pwt h idx num_vars <> Ret r) ->
   pwt h idx num_vars = Raise AssertionError).
Proof.
  split; [split |].
  - intros [[cs na] H]. unfold pwt in H.
    pose proof (pwt_fuel_count _ _ _ _ _ _ H) as [Hk _].
    pose proof (pwt_fuel_nonzero _ _ _ _ _ _ H) as Hnz.
    apply pwt_fuel_inv in H. destruct H as (_ & Hi & Hn & _). auto.
  - intros (Hk & Hnz & Hi & Hn).
    destruct (pwt_fuel_returns (S (List.length h)) h idx num_vars) as (cs & H);
      try assumption; try lia.
    eexists. exact H.
  - intros Hno. pose proof (pwt_total h idx num_vars) as Ht.
    destruct (pwt h idx num_vars) as [r | e | ] eqn:E.
    + exfalso. apply (Hno r). reflexivity.
    + unfold pwt in E. apply pwt_fuel_raises in E. subst. reflexivity.
    + contradiction.
Qed.

Lemma pwt_returns_iff_witness :
  (exists r, pwt [1; -2; 3] 4 4 = Ret r) /\
  pwt [1; 0; 3] 4 4 = Raise AssertionError.
Proof.
  split.
  - apply (proj1 (pwt_returns_iff [1; -2; 3] 4 4)).
    split; [unfold len; simpl; lia |]. split; [repeat constructor; lia | lia].
  - apply (proj2 (pwt_returns_iff [1; 0; 3] 4 4)).
    intros r H.
    assert (Hc : exists r, pwt [1; 0; 3] 4 4 = Ret r) by (exists r; exact H).
    apply (proj1 (pwt_returns_iff [1; 0; 3] 4 4)) in Hc.
    destruct Hc as (_ & Hnz & _).
    inversion Hnz as [| ? ? _ Hnz']; subst. inversion Hnz' as [| ? ? H0 _]; subst.
    apply H0. reflexivity.
Defined.

(** X2: the clauses [pwt] returns for k literals are 4(k-1) in number, each
    of exactly three non-zero literals. *)
Theorem pwt_clause_shape (h : list Z) (idx num_vars : Z) (cs : list clause) (na : Z) :
  pwt h idx num_vars = Ret (cs, na) ->
  len cs = 4 * (len h - 1) /\
  Forall (fun c => List.length c = 3%nat /\ Forall (fun l => l <> 0) c) cs.
Proof.
  unfold pwt. generalize (S (List.length h)) as fuel. intros fuel. revert h idx num_vars cs na.
  assert (Hxor : forall y x1 x2 xc, xor y x1 x2 = Ret xc ->
            len xc = 4 /\
            Forall (fun c => List.length c = 3%nat /\ Forall (fun l => l <> 0) c) xc).
  { intros y x1 x2 xc Hx. apply xor_inv in Hx. destruct Hx as (Hy & H1 & H2 & ->).
    split; [reflexivity |].
    repeat constructor; lia. }
  induction fuel as [| fuel IH]; intros h idx nv cs na H; [discriminate |].
  apply pwt_fuel_inv in H. destruct H as (_ & _ & _ & Hc). destruct Hc.
  - subst h. apply Hxor in Hx. destruct Hx as [Hl Hf].
    split; [rewrite Hl; unfold len; simpl; lia | exact Hf].
  - subst h cs. apply Hxor in Hx. destruct Hx as [Hl Hf].
    apply IH in Hrec. destruct Hrec as [Hl' Hf'].
    split; [| apply Forall_app; split; assumption].
    rewrite len_app, Hl, Hl'. unfold len; simpl; lia.
  - subst cs. apply Hxor in Hx. destruct Hx as [Hl Hf].
    pose proof (pwt_fuel_count _ _ _ _ _ _ HB) as [_ _].
    apply IH in HB, HC. destruct HB as [HlB HfB]. destruct HC as [HlC HfC].
    split; [| repeat (apply Forall_app; split); assumption].
    rewrite !len_app, Hl, HlB, HlC.
    assert (Hh : len h = len (upto (List.length h / 2) h)
                         + len (from (List.length h / 2) h))
      by (rewrite <- len_app, halves_app; reflexivity).
    lia.
Qed.

Lemma pwt_clause_shape_witness :
  exists cs na,
    pwt [1; 2; 3; 4; 5; 6; 7] 8 8 = Ret (cs, na) /\
    len cs = 4 * (len [1; 2; 3; 4; 5; 6; 7] - 1) /\
    Forall (fun c => List.length c = 3%nat /\ Forall (fun l => l <> 0) c) cs.
Proof.
  destruct (pwt [1; 2; 3; 4; 5; 6; 7] 8 8) as [[cs na] | e | ] eqn:E;
    try (vm_compute in E; discriminate).
  exists cs, na. split; [reflexivity |].
  apply (pwt_clause_shape [1; 2; 3; 4; 5; 6; 7] 8 8 cs na E).
Defined.

Lemma occurs_app (v : Z) (c1 c2 : list clause) :
  occurs v (c1 ++ c2) <-> occurs v c1 \/ occurs v c2.
Proof.
  unfold occurs. split.
  - intros (c & l & Hc & Hl & E). apply in_app_or in Hc.
    destruct Hc; [left | right]; eauto.
  - intros [(c & l & Hc & Hl & E) | (c & l & Hc & Hl & E)];
      exists c, l; (split; [apply in_or_app; auto | auto]).
Qed.

Lemma xor_occurs (y x1 x2 : Z) (xc : list clause) (v : Z) :
  xor y x1 x2 = Ret xc ->
  (occurs v xc <-> v = Z.abs y \/ v = Z.abs x1 \/ v = Z.abs x2).
Proof.
  intros Hx. apply xor_inv in Hx. destruct Hx as (_ & _ & _ & ->).
  unfold occurs. split.
  - intros (c & l & Hc & Hl & <-). simpl in Hc.
    repeat (destruct Hc as [<- | Hc];
            [simpl in Hl; rewrite ?Z.abs_opp;
             intuition (subst; rewrite ?Z.abs_opp; auto) |]).
    contradiction.
  - intros [-> | [-> | ->]].
    + exists [y; x1; - x2], y. simpl. tauto.
    + exists [y; x1; - x2], x1. simpl. tauto.
    + exists [- y; x1; x2], x2. simpl. tauto.
Qed.

Lemma pwt_fuel_occurs (fuel : nat) :
  forall h idx num_vars cs na,
    pwt_fuel fuel h idx num_vars = Ret (cs, na) ->
    forall v, v = idx \/ In v (map Z.abs h) \/ num_vars < v <= num_vars + na ->
              occurs v cs.
Proof.
  induction fuel as [| fuel IH]; intros h idx nv cs na H v Hv; [discriminate |].
  pose proof (pwt_fuel_count _ _ _ _ _ _ H) as [Hk Hcount].
  apply pwt_fuel_inv in H. destruct H as (_ & Hi & Hn & Hc). destruct Hc.
  - subst h. apply (xor_occurs _ _ _ _ v Hx). simpl in Hv.
    destruct Hv as [-> | [[<- | [<- | []]] | Hv]]; [left; lia | auto | auto | lia].
  - subst h cs. apply occurs_app.
    pose proof (pwt_fuel_count _ _ _ _ _ _ Hrec) as [_ Hc0].
    unfold len in Hc0; simpl List.length in Hc0.
    destruct Hv as [-> | [Hv | Hv]].
    + left. apply (xor_occurs _ _ _ _ idx Hx). left. lia.
    + simpl in Hv. destruct Hv as [<- | [<- | [<- | []]]].
      * right. apply (IH _ _ _ _ _ Hrec). right; left. simpl. auto.
      * right. apply (IH _ _ _ _ _ Hrec). right; left. simpl. auto.
      * left. apply (xor_occurs _ _ _ _ _ Hx). auto.
    + left. apply (xor_occurs _ _ _ _ v Hx). right; right. lia.
  - subst cs. rewrite !occurs_app.
    pose proof (pwt_fuel_count _ _ _ _ _ _ HB) as [_ HnB].
    pose proof (pwt_fuel_count _ _ _ _ _ _ HC) as [_ HnC].
    destruct Hv as [-> | [Hv | Hv]].
    + left; left. apply (xor_occurs _ _ _ _ idx Hx). left. lia.
    + rewrite <- (halves_app (List.length h / 2) h) in Hv.
      rewrite map_app in Hv. apply in_app_or in Hv. destruct Hv as [Hv | Hv].
      * left; right. apply (IH _ _ _ _ _ HB). auto.
      * right. apply (IH _ _ _ _ _ HC). auto.
    + destruct (Z.eq_dec v (nv + 1)) as [-> | N1].
      { left; left. apply (xor_occurs _ _ _ _ _ Hx). right; left. lia. }
      destruct (Z.eq_dec v (nv + 2)) as [-> | N2].
      { left; left. apply (xor_occurs _ _ _ _ _ Hx). right; right. lia. }
      destruct (Z_le_gt_dec v (nv + 2 + na1)) as [Hle | Hgt].
      * left; right. apply (IH _ _ _ _ _ HB). right; right. lia.
      * right. apply (IH _ _ _ _ _ HC). right; right. lia.
Qed.

(** X3: the variables named in the clauses [pwt] returns are exactly the
    target, the variables of the literals and the ancillas
    num_vars+1 .. num_vars+na: nothing else is mentioned and none of them is
    left out. *)
Theorem pwt_variables (h : list Z) (idx num_vars : Z) (cs : list clause) (na : Z) :
  pwt h idx num_vars = Ret (cs, na) ->
  forall v,
    occurs v cs <->
    v = idx \/ In v (map Z.abs h) \/ num_vars < v <= num_vars + na.
Proof.
  intros H v. unfold pwt in H. split.
  - intros (c & l & Hc & Hl & <-). apply (pwt_fuel_vars _ _ _ _ _ _ H c l Hc Hl).
  - apply (pwt_fuel_occurs _ _ _ _ _ _ H).
Qed.

Lemma pwt_variables_witness :
  exists cs na,
    pwt [1; -2; 3; 4] 7 4 = Ret (cs, na) /\
    (forall v, occurs v cs <->
               v = 7 \/ In v (map Z.abs [1; -2; 3; 4]) \/ 4 < v <= 4 + na).
Proof.
  destruct (pwt [1; -2; 3; 4] 7 4) as [[cs na] | e | ] eqn:E;
    try (vm_compute in E; discriminate).
  exists cs, na. split; [reflexivity |].
  apply (pwt_variables [1; -2; 3; 4] 7 4 cs na E).
Defined.

(** X4: [xor(y,x1,x2)] raises AssertionError exactly when one of its
    arguments is 0; otherwise its four clauses hold under an assignment
    exactly when the value of y is the exclusive or of the values of x1 and
    x2, for literals of either sign. *)
Theorem xor_gate (y x1 x2 : Z) :
  (xor y x1 x2 = Raise AssertionError <-> y = 0 \/ x1 = 0 \/ x2 = 0) /\
  (y <> 0 -> x1 <> 0 -> x2 <> 0 ->
   exists cs,
     xor y x1 x2 = Ret cs /\ List.length cs = 4%nat /\
     forall a, bit_string_satisfies a cs = true <->
               test_condition a y = xorb (test_condition a x1) (test_condition a x2)).
Proof.
  split.
  - split.
    + intros H. destruct (Z.eq_dec y 0) as [? | Hy]; [auto |].
      destruct (Z.eq_dec x1 0) as [? | H1]; [auto |].
      destruct (Z.eq_dec x2 0) as [? | H2]; [auto |].
      rewrite xor_returns in H by assumption. discriminate.
    + intros H. unfold xor.
      replace (y * x1 * x2 =? 0) with true; [reflexivity |].
      symmetry. apply Z.eqb_eq. destruct H as [-> | [-> | ->]]; lia.
  - intros Hy H1 H2. eexists. split; [apply xor_returns; assumption |].
    split; [reflexivity |]. intros a. apply xor_sat. apply xor_returns; assumption.
Qed.

Lemma xor_gate_witness :
  xor 3 0 2 = Raise AssertionError /\
  exists cs,
    xor 3 (-1) 2 = Ret cs /\ List.length cs = 4%nat /\
    forall a, bit_string_satisfies a cs = true <->
              test_condition a 3 = xorb (test_condition a (-1)) (test_condition a 2).
Proof.
  split.
  - apply (proj1 (xor_gate 3 0 2)). right; left. reflexivity.
  - apply (proj2 (xor_gate 3 (-1) 2)); lia.
Defined.

(** ** Loops over a range *)

Lemma for_each_invariant {St : Type} (P : St -> Prop) (idxs : list nat)
  (body : nat -> St -> outcome St) :
  (forall idx s1 s2, In idx idxs -> P s1 -> body idx s1 = Ret s2 -> P s2) ->
  forall s s', P s -> for_each idxs body s = Ret s' -> P s'.
Proof.
  induction idxs as [| idx rest IH]; intros Hstep s s' Hs H.
  - simpl in H. injection H as <-. exact Hs.
  - simpl in H. apply obind_Ret_inv in H. destruct H as (s1 & Hb & H).
    apply (IH (fun i a b Hi => Hstep i a b (or_intror Hi)) s1 s'); [| exact H].
    apply (Hstep idx s s1); [left; reflexivity | exact Hs | exact Hb].
Qed.

Lemma for_each_steps {St : Type} (R : St -> St -> Prop) (idxs : list nat)
  (body : nat -> St -> outcome St) :
  (forall s, R s s) -> (forall s1 s2 s3, R s1 s2 -> R s2 s3 -> R s1 s3) ->
  (forall idx s1 s2, body idx s1 = Ret s2 -> R s1 s2) ->
  forall s s',
    for_each idxs body s = Ret s' ->
    R s s' /\
    forall idx, In idx idxs ->
      exists s1 s2, R s s1 /\ body idx s1 = Ret s2 /\ R s2 s'.
Proof.
  intros Hrefl Htrans Hstep.
  induction idxs as [| idx rest IH]; intros s s' H.
  - simpl in H. injection H as <-. split; [apply Hrefl | intros i []].
  - simpl in H. apply obind_Ret_inv in H. destruct H as (s1 & Hb & H).
    destruct (IH s1 s' H) as [HR Hall].
    pose proof (Hstep idx s s1 Hb) as HR1.
    split; [eapply Htrans; eassumption |].
    intros i [<- | Hi].
    + exists s, s1. auto.
    + destruct (Hall i Hi) as (a & b & Ha & Hbody & Hb').
      exists a, b. split; [eapply Htrans; eassumption | auto].
Qed.

(** ** The two clause-building loops, step by step *)

Lemma not_stabilizer_steps (n : nat) (st : standard) (cs : list clause) (anc : Z) :
  not_stabilizer n st = Ret (cs, anc) ->
  In (range (Z.of_nat n + 1) (2 * Z.of_nat n - Z.of_nat (s_rk st) + 1)) cs /\
  forall idx, (idx < n - s_rk st)%nat ->
    exists a_row nv nc na,
      Np.row (s_A st) idx = Ret a_row /\
      pwt (ones a_row ++ [Z.of_nat (s_rk st) + Z.of_nat idx + 1])
        (Z.of_nat idx + Z.of_nat n + 1) nv = Ret (nc, na) /\
      incl nc cs.
Proof.
  unfold not_stabilizer, for_range. intros H.
  apply (for_each_steps (fun s1 s2 : list clause * Z => incl (fst s1) (fst s2))) in H.
  - cbn [fst] in H. destruct H as [Hincl Hall]. split.
    + apply Hincl. left. reflexivity.
    + intros idx Hidx.
      destruct (Hall idx) as ([c1 a1] & [c2 a2] & _ & Hb & Hc2).
      { apply in_seq. lia. }
      cbn [fst] in Hc2. ret_inv Hb. ret_inv Hb. inversion Hb; subst.
      do 4 eexists. split; [eassumption |]. split; [eassumption |].
      intros c Hc. apply Hc2. apply in_or_app. right. exact Hc.
  - intros s. apply incl_refl.
  - intros s1 s2 s3. apply incl_tran.
  - intros idx [c1 a1] [c2 a2] Hb. cbn [fst]. ret_inv Hb. ret_inv Hb.
    inversion Hb; subst. apply incl_appl, incl_refl.
Qed.

Lemma commutes_steps (st : standard) (acc : list clause * Z) (cs : list clause) (anc : Z) :
  commutes st acc = Ret (cs, anc) ->
  incl (fst acc) cs /\
  forall idx, (idx < s_rkx st)%nat ->
    exists h_row nv nc na,
      Np.row (s_Hx st) idx = Ret h_row /\
      In [- (snd acc + Z.of_nat idx + 1)] cs /\
      pwt (ones h_row) (snd acc + Z.of_nat idx + 1) nv = Ret (nc, na) /\
      incl nc cs.
Proof.
  unfold commutes, for_range. intros H.
  apply (for_each_steps (fun s1 s2 : list clause * Z => incl (fst s1) (fst s2))) in H.
  - cbn [fst] in H. destruct H as [Hincl Hall]. split; [exact Hincl |].
    intros idx Hidx.
    destruct (Hall idx) as ([c1 a1] & [c2 a2] & _ & Hb & Hc2).
    { apply in_seq. lia. }
    cbn [fst] in Hc2. ret_inv Hb. ret_inv Hb. inversion Hb; subst.
    do 4 eexists. split; [eassumption |]. split; [| split; [eassumption |]].
    + apply Hc2. apply in_or_app. left. apply in_or_app. right. left. reflexivity.
    + intros c Hc. apply Hc2. apply in_or_app. right. exact Hc.
  - intros s. apply incl_refl.
  - intros s1 s2 s3. apply incl_tran.
  - intros idx [c1 a1] [c2 a2] Hb. cbn [fst]. ret_inv Hb. ret_inv Hb.
    inversion Hb; subst. apply incl_appl, incl_appl, incl_refl.
Qed.

(** ** Bits of a model against rows of a matrix *)

Lemma satisfies_incl (a : assignment) (cs cs' : list clause) :
  incl cs' cs -> bit_string_satisfies a cs = true -> bit_string_satisfies a cs' = true.
Proof.
  unfold bit_string_satisfies. rewrite !forallb_forall. intros Hi H c Hc.
  apply H, Hi, Hc.
Qed.

Lemma satisfies_in (a : assignment) (cs : list clause) (c : clause) :
  In c cs -> bit_string_satisfies a cs = true -> bit_string_or a c = true.
Proof.
  unfold bit_string_satisfies. rewrite forallb_forall. intros Hc H. apply H, Hc.
Qed.

Lemma length_positive_bits (n : nat) (model : list Z) :
  (n <= List.length model)%nat -> List.length (positive_bits n model) = n.
Proof.
  intros H. unfold positive_bits, upto. rewrite length_map, length_firstn. lia.
Qed.

Lemma nth_positive_bits (n : nat) (model : list Z) (j : nat) :
  (j < n)%nat ->
  nth j (positive_bits n model) false = model_assignment model (Z.of_nat j + 1).
Proof.
  intros Hj. unfold positive_bits, model_assignment, upto.
  change false with ((fun i => 0 <? i) 0). rewrite map_nth.
  replace (Z.to_nat (Z.of_nat j + 1 - 1)) with j by lia.
  f_equal. revert j Hj model. induction n as [| n IH]; intros j Hj model; [lia |].
  destruct model as [| x model]; [destruct j; reflexivity |].
  destruct j as [| j]; [reflexivity |]. simpl. apply IH. lia.
Qed.

Lemma dot_nil_r (r : list Z) : Np.dot r [] = 0.
Proof. unfold Np.dot. destruct r; reflexivity. Qed.

Lemma dot_cons (x : Z) (r : list Z) (y : Z) (v : list Z) :
  Np.dot (x :: r) (y :: v) = x * y + Np.dot r v.
Proof. reflexivity. Qed.

Lemma dot_zero_row (r v : list Z) : Forall (fun x => x = 0) r -> Np.dot r v = 0.
Proof.
  intros H. revert v. induction H as [| x r Hx Hr IH]; intros v; [reflexivity |].
  destruct v as [| y v]; [apply dot_nil_r |]. rewrite dot_cons, IH, Hx. lia.
Qed.

(** The parity of the literals [ones] picks from a 0/1 row is the parity of
    the row's product with the bits. *)
Lemma parity_ones_from (a : assignment) (r : list Z) :
  forall (i : Z) (bits : list bool),
    0 <= i ->
    Forall (fun x => x = 0 \/ x = 1) r ->
    (List.length r <= List.length bits)%nat ->
    (forall j, (j < List.length r)%nat -> nth j bits false = a (i + Z.of_nat j + 1)) ->
    parity a (ones_from i r) = Z.odd (Np.dot r (as_ints bits)).
Proof.
  induction r as [| x r IH]; intros i bits Hi Hb Hl Hn; [reflexivity |].
  destruct bits as [| b bits]; [simpl in Hl; lia |].
  inversion Hb as [| ? ? Hx Hb']; subst.
  unfold as_ints. cbn [map ones_from]. fold (as_ints bits). rewrite dot_cons.
  assert (IHr : parity a (ones_from (i + 1) r) = Z.odd (Np.dot r (as_ints bits))).
  { apply IH; [lia | exact Hb' | simpl in Hl; lia |].
    intros j Hj. specialize (Hn (S j) ltac:(simpl; lia)). cbn [nth] in Hn.
    rewrite Hn. f_equal. lia. }
  specialize (Hn 0%nat ltac:(simpl; lia)). cbn [nth] in Hn.
  destruct Hx as [-> | ->].
  - cbn [Z.eqb]. rewrite IHr. rewrite Z.mul_0_l, Z.add_0_l. reflexivity.
  - cbn [Z.eqb]. unfold parity in *. cbn [map fold_right]. rewrite IHr.
    rewrite test_condition_pos by lia.
    replace (i + 1) with (i + Z.of_nat 0 + 1) by lia. rewrite <- Hn.
    rewrite Z.odd_add. destruct b; reflexivity.
Qed.

Lemma sum_mod2_nonneg (s : list Z) : 0 <= Np.sum_mod2 s.
Proof.
  unfold Np.sum_mod2. induction s as [| x s IH]; simpl; [lia |].
  pose proof (Z.mod_pos_bound x 2 ltac:(lia)). lia.
Qed.

Lemma sum_mod2_odd (s : list Z) (x : Z) :
  In x s -> Z.odd x = true -> 0 < Np.sum_mod2 s.
Proof.
  intros Hin Hodd. induction s as [| y s IH]; [contradiction |].
  unfold Np.sum_mod2 in *. cbn [map fold_right].
  pose proof (sum_mod2_nonneg s) as Hs. unfold Np.sum_mod2 in Hs.
  pose proof (Z.mod_pos_bound y 2 ltac:(lia)).
  destruct Hin as [-> | Hin]; [| specialize (IH Hin); lia].
  rewrite Zmod_odd, Hodd. lia.
Qed.

Lemma sum_mod2_even (s : list Z) :
  Forall (fun x => Z.odd x = false) s -> Np.sum_mod2 s = 0.
Proof.
  intros H. unfold Np.sum_mod2. induction H as [| x s Hx Hs IH]; [reflexivity |].
  cbn [map fold_right]. rewrite IH, Zmod_odd, Hx. reflexivity.
Qed.

Lemma binary_row (m : ndarray) (r : list Z) :
  binary m -> In r (rows m) -> Forall (fun x => x = 0 \/ x = 1) r.
Proof. intros Hb Hr. apply Forall_forall. intros x Hx. apply (Hb r x Hr Hx). Qed.

Lemma row_in (m : ndarray) (idx : nat) (r : list Z) :
  Np.row m idx = Ret r -> nth_error (rows m) idx = Some r /\ In r (rows m).
Proof.
  unfold Np.row. destruct (nth_error (rows m) idx) as [r' |] eqn:E; [| discriminate].
  intros H. injection H as <-. split; [reflexivity | eapply nth_error_In; eassumption].
Qed.

Lemma rectangular_row (m : ndarray) (r : list Z) :
  rectangular m -> In r (rows m) -> List.length r = ncols m.
Proof. unfold rectangular. rewrite Forall_forall. auto. Qed.

Lemma in_range (a b l : Z) : In l (range a b) <-> a <= l < b.
Proof.
  unfold range. rewrite in_map_iff. split.
  - intros (i & <- & Hi). apply in_seq in Hi. lia.
  - intros H. exists (Z.to_nat (l - a)). split; [lia |]. apply in_seq. lia.
Qed.

Lemma in_upto_nth {A : Type} (k : nat) (l : list A) (x : A) :
  In x (upto k l) -> exists idx, (idx < k)%nat /\ nth_error l idx = Some x.
Proof.
  unfold upto. revert l. induction k as [| k IH]; intros l H; [destruct l; contradiction |].
  destruct l as [| y l]; [contradiction |]. simpl in H. destruct H as [-> | H].
  - exists 0%nat. split; [lia | reflexivity].
  - destruct (IH l H) as (idx & Hi & E). exists (S idx). split; [lia | exact E].
Qed.

Lemma in_combine_nth {A B : Type} (l1 : list A) (l2 : list B) (i : nat) (x : A) (y : B) :
  nth_error l1 i = Some x -> nth_error l2 i = Some y -> In (x, y) (combine l1 l2).
Proof.
  revert l2 i. induction l1 as [| a l1 IH]; intros l2 i H1 H2.
  - destruct i; discriminate.
  - destruct l2 as [| b l2]; [destruct i; discriminate |].
    destruct i as [| i]; simpl in *.
    + left. congruence.
    + right. eapply IH; eassumption.
Qed.

Lemma unit_clause_false (a : assignment) (cs : list clause) (t : Z) :
  0 < t -> In [- t] cs -> bit_string_satisfies a cs = true -> a t = false.
Proof.
  intros Ht Hin Hs. apply (satisfies_in a cs _ Hin) in Hs.
  unfold bit_string_or in Hs. cbn [existsb] in Hs. rewrite orb_false_r in Hs.
  rewrite test_condition_opp, test_condition_pos in Hs by lia.
  apply negb_true_iff in Hs. exact Hs.
Qed.

Lemma null_check_of_model (n : nat) (st : standard) (acc : list clause * Z)
  (cs : list clause) (anc : Z) (model : list Z) :
  well_shaped n st ->
  commutes st acc = Ret (cs, anc) ->
  (n <= List.length model)%nat ->
  bit_string_satisfies (model_assignment model) cs = true ->
  null_check n st model = Ret true.
Proof.
  intros (Hrk & Hnc & Hrect & Hbin & Hzero & _) Hc Hlen Hsat.
  apply commutes_steps in Hc. destruct Hc as [_ Hsteps].
  unfold null_check, Np.matvec.
  unfold as_ints at 1. rewrite length_map, length_positive_bits by exact Hlen.
  rewrite Hnc, Nat.eqb_refl. cbn [obind]. f_equal. apply Z.eqb_eq.
  apply sum_mod2_even. apply Forall_forall. intros x Hx.
  apply in_map_iff in Hx. destruct Hx as (r & <- & Hr).
  rewrite <- (halves_app (s_rkx st) (rows (s_Hx st))) in Hr.
  apply in_app_or in Hr. destruct Hr as [Hr | Hr].
  - apply in_upto_nth in Hr. destruct Hr as (idx & Hidx & Er).
    destruct (Hsteps idx Hidx) as (h_row & nv & nc & na & Hrow & Hunit & Hpwt & Hincl).
    apply row_in in Hrow. destruct Hrow as [Erow Hin].
    assert (h_row = r) by congruence. subst h_row.
    assert (Ht : 0 < snd acc + Z.of_nat idx + 1).
    { unfold pwt in Hpwt. apply pwt_fuel_inv in Hpwt. tauto. }
    pose proof (unit_clause_false _ _ _ Ht Hunit Hsat) as Hfalse.
    pose proof (pwt_fuel_sound _ _ _ _ _ _ Hpwt _ (satisfies_incl _ _ _ Hincl Hsat)) as Hpar.
    rewrite Hfalse in Hpar. rewrite Hpar. unfold ones. symmetry.
    apply parity_ones_from.
    + lia.
    + apply (binary_row _ _ Hbin Hin).
    + rewrite (rectangular_row _ _ Hrect Hin), Hnc, length_positive_bits by exact Hlen. lia.
    + intros j Hj. rewrite (rectangular_row _ _ Hrect Hin), Hnc in Hj.
      rewrite nth_positive_bits by exact Hj. f_equal.
  - rewrite dot_zero_row by (apply Hzero; exact Hr). reflexivity.
Qed.

(** X6: a model of the clauses of the null-space term passes the null-space
    assertion of line 225: on a well-shaped standard form, if the model's
    assignment satisfies every clause [commutes] returns, then Hx @ bits is
    0 mod 2.  This holds whatever the numbering of the ancillas. *)
Theorem null_space_term_sound (n : nat) (st : standard) (acc : list clause * Z)
  (cs : list clause) (anc : Z) (model : list Z) :
  well_shaped n st ->
  commutes st acc = Ret (cs, anc) ->
  (n <= List.length model)%nat ->
  bit_string_satisfies (model_assignment model) cs = true ->
  null_check n st model = Ret true.
Proof. apply null_check_of_model. Qed.

Lemma stabilizer_check_of_model (n : nat) (st : standard) (cs : list clause)
  (anc : Z) (model : list Z) :
  well_shaped n st ->
  not_stabilizer n st = Ret (cs, anc) ->
  (n <= List.length model)%nat ->
  bit_string_satisfies (model_assignment model) cs = true ->
  stabilizer_check n st model = Ret true.
Proof.
  intros (Hrk & _ & _ & _ & _ & HncA & HnrA & HrectA & HbinA) Hc Hlen Hsat.
  apply not_stabilizer_steps in Hc. destruct Hc as [Hor Hsteps].
  set (a := model_assignment model) in *.
  set (result := positive_bits n model).
  assert (Hres : List.length result = n) by (apply length_positive_bits; exact Hlen).
  (* some output variable y_i is true *)
  pose proof (satisfies_in a cs _ Hor Hsat) as Hsat'.
  unfold bit_string_or in Hsat'. apply existsb_exists in Hsat'.
  destruct Hsat' as (l & Hl & Htrue). apply in_range in Hl.
  rewrite test_condition_pos in Htrue by lia.
  set (i := Z.to_nat (l - (Z.of_nat n + 1))).
  assert (Hi : (i < n - s_rk st)%nat) by (unfold i; lia).
  assert (El : l = Z.of_nat i + Z.of_nat n + 1) by (unfold i; lia).
  destruct (Hsteps i Hi) as (a_row & nv & nc & na & Hrow & Hpwt & Hincl).
  apply row_in in Hrow. destruct Hrow as [Erow Hin].
  pose proof (pwt_fuel_sound _ _ _ _ _ _ Hpwt _ (satisfies_incl _ _ _ Hincl Hsat)) as Hpar.
  fold a in Hpar. rewrite <- El, Htrue, parity_app in Hpar.
  (* the value computed by the check at index i *)
  unfold stabilizer_check. fold result.
  set (xl := upto (s_rk st) result). set (xr := from (s_rk st) result).
  assert (Hxl : List.length xl = s_rk st).
  { unfold xl, upto. rewrite length_firstn. lia. }
  assert (Hxr : List.length xr = (n - s_rk st)%nat).
  { unfold xr, from. rewrite length_skipn. lia. }
  unfold Np.matvec. unfold as_ints at 1. rewrite length_map, Hxl, HncA, Nat.eqb_refl.
  cbn [obind]. unfold Np.add.
  replace (List.length (map (fun r : list Z => Np.dot r (as_ints xl)) (rows (s_A st)))
           =? List.length (as_ints xr))%nat with true.
  2:{ symmetry. apply Nat.eqb_eq. unfold as_ints. rewrite !length_map.
      fold (nrows (s_A st)). lia. }
  cbn [obind]. f_equal.
  apply Z.ltb_lt.
  apply (sum_mod2_odd _ (Np.dot a_row (as_ints xl)
                         + (if nth (s_rk st + i) result false then 1 else 0))).
  - apply in_map_iff.
    exists (Np.dot a_row (as_ints xl),
            if nth (s_rk st + i) result false then 1 else 0).
    split; [reflexivity |].
    apply (in_combine_nth _ _ i).
    + apply (map_nth_error (fun r => Np.dot r (as_ints xl))). exact Erow.
    + unfold as_ints. apply (map_nth_error (fun b : bool => if b then 1 else 0)).
      unfold xr, from. rewrite nth_error_skipn. apply nth_error_nth'. lia.
  - rewrite Z.odd_add.
    assert (Hones : parity a (ones a_row) = Z.odd (Np.dot a_row (as_ints xl))).
    { unfold ones. apply parity_ones_from.
      - lia.
      - apply (binary_row _ _ HbinA Hin).
      - rewrite (rectangular_row _ _ HrectA Hin), HncA, Hxl. lia.
      - intros j Hj. rewrite (rectangular_row _ _ HrectA Hin), HncA in Hj.
        unfold xl, upto. rewrite nth_firstn.
        replace (j <? s_rk st)%nat with true by (symmetry; apply Nat.ltb_lt; lia).
        unfold result. rewrite nth_positive_bits by lia. fold a. f_equal. }
    rewrite <- Hones.
    unfold result. rewrite nth_positive_bits by lia. fold a.
    unfold parity in Hpar at 2. cbn [map fold_right] in Hpar.
    rewrite xorb_false_r, test_condition_pos in Hpar by lia.
    replace (Z.of_nat (s_rk st + i) + 1) with (Z.of_nat (s_rk st) + Z.of_nat i + 1) by lia.
    rewrite Hpar. destruct (a (Z.of_nat (s_rk st) + Z.of_nat i + 1)); reflexivity.
Qed.

(** X5: a model of the clauses of the "not a stabilizer" term passes the
    assertion of line 231: on a well-shaped standard form, if the model's
    assignment satisfies every clause [not_stabilizer] returns, then
    A @ x_left + x_right has an odd entry. *)
Theorem not_stabilizer_term_sound (n : nat) (st : standard) (cs : list clause)
  (anc : Z) (model : list Z) :
  well_shaped n st ->
  not_stabilizer n st = Ret (cs, anc) ->
  (n <= List.length model)%nat ->
  bit_string_satisfies (model_assignment model) cs = true ->
  stabilizer_check n st model = Ret true.
Proof. apply stabilizer_check_of_model. Qed.

Ltac binary_rows :=
  let r := fresh "r" in let x := fresh "x" in
  let Hr := fresh "Hr" in let Hx := fresh "Hx" in
  intros r x Hr Hx; simpl in Hr;
  repeat (destruct Hr as [<- | Hr]; [simpl in Hx; intuition (subst; auto) |]);
  contradiction.

Lemma standard422_shaped : well_shaped 4 standard422.
Proof.
  unfold well_shaped, standard422. cbn [s_rk s_Hx s_rkx s_A].
  split; [lia |]. split; [reflexivity |].
  split; [repeat constructor |]. split; [binary_rows |].
  split; [intros r [] |]. split; [reflexivity |]. split; [reflexivity |].
  split; [repeat constructor | binary_rows].
Qed.

Lemma not_stabilizer_term_sound_witness :
  exists cs anc,
    not_stabilizer 4 standard422 = Ret (cs, anc) /\
    bit_string_satisfies (model_assignment [1; 2; -3; -4; -5; 6; 7; -8; -9]) cs = true /\
    stabilizer_check 4 standard422 [1; 2; -3; -4; -5; 6; 7; -8; -9] = Ret true.
Proof.
  destruct (not_stabilizer 4 standard422) as [[cs anc] | e | ] eqn:E;
    try (vm_compute in E; discriminate).
  exists cs, anc. split; [reflexivity |].
  assert (Hs : bit_string_satisfies
                 (model_assignment [1; 2; -3; -4; -5; 6; 7; -8; -9]) cs = true).
  { pose proof E as V. vm_compute in V. injection V as <- <-. vm_compute. reflexivity. }
  split; [exact Hs |].
  apply (not_stabilizer_term_sound 4 standard422 cs anc _ standard422_shaped E);
    [simpl; lia | exact Hs].
Defined.

Lemma null_space_term_sound_witness :
  exists acc cs anc,
    commutes standard422 acc = Ret (cs, anc) /\
    bit_string_satisfies (model_assignment [1; 2; -3; -4; -5; 6; 7; -8; -9]) cs = true /\
    null_check 4 standard422 [1; 2; -3; -4; -5; 6; 7; -8; -9] = Ret true.
Proof.
  exists ([[5; 6; 7]], 7).
  destruct (commutes standard422 ([[5; 6; 7]], 7)) as [[cs anc] | e | ] eqn:E;
    try (vm_compute in E; discriminate).
  exists cs, anc. split; [reflexivity |].
  assert (Hs : bit_string_satisfies
                 (model_assignment [1; 2; -3; -4; -5; 6; 7; -8; -9]) cs = true).
  { pose proof E as V. vm_compute in V. injection V as <- <-. vm_compute. reflexivity. }
  split; [exact Hs |].
  apply (null_space_term_sound 4 standard422 _ cs anc _ standard422_shaped E);
    [simpl; lia | exact Hs].
Defined.

(** ** From the clauses to the post-condition checks *)

Lemma lift_Ret_inv {A : Type} (o : outcome A) (a : A) (t : list event) :
  lift o = (Ret a, t) -> o = Ret a /\ t = [].
Proof. unfold lift. intros H. injection H as -> <-. auto. Qed.

Lemma build_constraints_inv (sv : services) (threshold : Z) (n : nat) (st : standard)
  (cs : list clause) (tr : list event) :
  build_constraints sv threshold n st = (Ret cs, tr) ->
  exists acc cs0 anc,
    not_stabilizer n st = Ret acc /\
    commutes st acc = Ret (cs0, anc) /\
    cs = cs0 ++ atmost sv (range 1 (Z.of_nat n + 1)) threshold anc /\
    tr = [EvAtmost (range 1 (Z.of_nat n + 1)) threshold anc].
Proof.
  unfold build_constraints. intros H.
  apply mbind_Ret_inv in H. destruct H as (acc & t1 & t2 & H1 & H & ->).
  apply lift_Ret_inv in H1. destruct H1 as [H1 ->].
  apply mbind_Ret_inv in H. destruct H as ([cs0 anc] & t3 & t4 & H2 & H & ->).
  apply lift_Ret_inv in H2. destruct H2 as [H2 ->].
  cbn [mbind emit mret app] in H. injection H as <- <-.
  exists acc, cs0, anc. auto.
Qed.

Lemma prepare_inv (sv : services) (threshold : Z) (HX HZ : ndarray) (n : nat)
  (st : standard) (cs : list clause) (tr : list event) :
  prepare sv threshold HX HZ = (Ret (n, st, cs), tr) ->
  validate HX HZ = Ret n /\
  exists acc cs0 anc,
    not_stabilizer n st = Ret acc /\
    commutes st acc = Ret (cs0, anc) /\
    cs = cs0 ++ atmost sv (range 1 (Z.of_nat n + 1)) threshold anc.
Proof.
  unfold prepare. intros H.
  apply mbind_Ret_inv in H. destruct H as (n' & t1 & t2 & H1 & H & ->).
  apply lift_Ret_inv in H1. destruct H1 as [H1 ->].
  apply mbind_Ret_inv in H. destruct H as (st' & t3 & t4 & _ & H & ->).
  apply mbind_Ret_inv in H. destruct H as (cs' & t5 & t6 & H3 & H & ->).
  cbn [mret] in H. injection H as -> -> -> <-.
  split; [exact H1 |].
  apply build_constraints_inv in H3. destruct H3 as (acc & cs0 & anc & Ha & Hb & Hc & _).
  exists acc, cs0, anc. auto.
Qed.

Lemma support_returns (colT : ndarray) (vs : list Z) :
  Forall (fun v => v <= Z.of_nat (nrows colT)) vs ->
  exists temp, support colT vs = Ret temp.
Proof.
  induction 1 as [| v vs Hv Hvs [temp IH]]; [exists []; reflexivity |].
  cbn [support]. destruct (0 <? v) eqn:E; [| exists temp; exact IH].
  apply Z.ltb_lt in E. unfold Np.row.
  destruct (nth_error (rows colT) (Z.to_nat (v - 1))) as [r |] eqn:En.
  - cbn [obind]. rewrite IH. cbn [obind]. eexists. reflexivity.
  - apply nth_error_None in En. fold (nrows colT) in En. lia.
Qed.

Lemma nrows_transpose (m : ndarray) : nrows (Np.transpose m) = ncols m.
Proof. unfold nrows, Np.transpose. cbn [rows]. rewrite length_map, length_seq. reflexivity. Qed.

(** X7: with a sound solver the null-space and non-stabilizer assertions
    cannot fail.  If the preparation yields a well-shaped standard form and
    the solver's model (entries within 1..n in its first n places) satisfies
    the clauses it was given, then [sat_distance] returns that model as soon
    as its weight is within the threshold. *)
Theorem genuine_model_is_returned (sv : services) (threshold : Z) (HX HZ : ndarray)
  (proof switch : bool) (n : nat) (st : standard) (cs : list clause) (tr : list event) :
  prepare sv threshold HX HZ = (Ret (n, st, cs), tr) ->
  well_shaped n st ->
  ncols (s_col_transform st) = n ->
  g_solve sv cs = true ->
  (n <= List.length (g_get_model sv cs))%nat ->
  Forall (fun v => v <= Z.of_nat n) (upto n (g_get_model sv cs)) ->
  bit_string_satisfies (model_assignment (g_get_model sv cs)) cs = true ->
  weight_check threshold n (g_get_model sv cs) = true ->
  fst (sat_distance sv threshold HX HZ proof switch) = Ret (Some (g_get_model sv cs)).
Proof.
  intros Hp Hshape Hcol Hsolve Hlen Hrange Hsat Hw.
  rewrite (sat_distance_on_model sv threshold HX HZ proof switch n st cs tr Hp Hsolve).
  rewrite accept_model_outcome.
  set (model := g_get_model sv cs) in *. clearbody model.
  apply prepare_inv in Hp. destruct Hp as (_ & [cs1 anc1] & cs0 & anc & Hns & Hcm & ->).
  rewrite satisfies_app in Hsat. apply andb_true_iff in Hsat. destruct Hsat as [Hsat _].
  rewrite Hw. cbn [py_assert obind].
  rewrite (null_check_of_model n st _ cs0 anc model Hshape Hcm Hlen Hsat).
  cbn [py_assert obind].
  destruct (support_returns (Np.transpose (s_col_transform st)) (upto n model))
    as [temp Ht].
  { rewrite nrows_transpose, Hcol. exact Hrange. }
  rewrite Ht. cbn [obind].
  apply commutes_steps in Hcm. destruct Hcm as [Hincl _]. cbn [fst] in Hincl.
  rewrite (stabilizer_check_of_model n st cs1 anc1 model Hshape Hns Hlen
             (satisfies_incl _ _ _ Hincl Hsat)).
  reflexivity.
Qed.

Lemma genuine_model_is_returned_witness :
  fst (sat_distance (Reference.exhaustive Fixture.rre422) 2
         Fixture.H422 Fixture.H422 false false)
  = Ret (Some [1; 2; -3; -4; -5; 6; 7; -8; -9]).
Proof.
  destruct (prepare (Reference.exhaustive Fixture.rre422) 2 Fixture.H422 Fixture.H422)
    as [o tr] eqn:Hp.
  pose proof Hp as V. vm_compute in V. injection V as <- <-.
  pose proof (genuine_model_is_returned (Reference.exhaustive Fixture.rre422) 2
                Fixture.H422 Fixture.H422 false false _ _ _ _ Hp standard422_shaped
                eq_refl) as H.
  match type of H with ?P -> _ => assert (Hs : P) by (vm_compute; reflexivity) end.
  specialize (H Hs).
  match type of H with context [g_get_model ?s ?c] =>
    assert (Hm : g_get_model s c = [1; 2; -3; -4; -5; 6; 7; -8; -9])
      by (vm_compute; reflexivity) end.
  rewrite Hm in H. apply H.
  - simpl. lia.
  - unfold upto. cbn [firstn]. repeat constructor; lia.
  - vm_compute. reflexivity.
  - vm_compute. reflexivity.
Defined.

(** ** The watermark in the first loop *)

Lemma ones_from_bound (r : list Z) :
  forall i l, In l (ones_from i r) -> i < l <= i + Z.of_nat (List.length r).
Proof.
  induction r as [| x r IH]; intros i l H; [contradiction |].
  cbn [ones_from] in H. cbn [List.length].
  destruct (x =? 0).
  - apply IH in H. lia.
  - destruct H as [<- | H]; [lia | apply IH in H; lia].
Qed.

(** X8: the "not a stabilizer" loop keeps the numbering discipline: on a
    well-shaped standard form, every literal of the clauses it returns names
    a variable between 1 and the watermark it returns, and that watermark is
    at least the 2n-rk variables reserved before the loop. *)
Theorem not_stabilizer_within_watermark (n : nat) (st : standard) (cs : list clause)
  (anc : Z) :
  well_shaped n st ->
  not_stabilizer n st = Ret (cs, anc) ->
  2 * Z.of_nat n - Z.of_nat (s_rk st) <= anc /\
  forall c l, In c cs -> In l c -> 1 <= Z.abs l <= anc.
Proof.
  intros (Hrk & _ & _ & _ & _ & HncA & _ & HrectA & _) H.
  unfold not_stabilizer, for_range in H.
  apply (for_each_invariant
           (fun s : list clause * Z =>
              2 * Z.of_nat n - Z.of_nat (s_rk st) <= snd s /\
              forall c l, In c (fst s) -> In l c -> 1 <= Z.abs l <= snd s)) in H;
    [exact H | |].
  - intros idx [c1 a1] [c2 a2] Hidx [Hwm Hlits] Hb. cbn [fst snd] in *.
    apply in_seq in Hidx.
    ret_inv Hb. ret_inv Hb. inversion Hb; subst.
    match goal with H : Np.row _ _ = Ret _ |- _ => rename H into Hrow end.
    match goal with H : pwt _ _ _ = Ret _ |- _ => rename H into Hpwt end.
    apply row_in in Hrow. destruct Hrow as [_ Hin].
    pose proof (rectangular_row _ _ HrectA Hin) as Hlr. rewrite HncA in Hlr.
    unfold pwt in Hpwt.
    pose proof (pwt_fuel_count _ _ _ _ _ _ Hpwt) as [Hk Hna].
    pose proof (pwt_fuel_nonzero _ _ _ _ _ _ Hpwt) as Hnz.
    split; [lia |].
    intros c lit Hc Hl. apply in_app_or in Hc. destruct Hc as [Hc | Hc].
    + specialize (Hlits c lit Hc Hl). lia.
    + destruct (pwt_fuel_vars _ _ _ _ _ _ Hpwt c lit Hc Hl) as [E | [E | E]].
      * lia.
      * apply in_map_iff in E. destruct E as (l0 & E & Hl0).
        rewrite Forall_forall in Hnz. pose proof (Hnz l0 Hl0) as Hl0nz.
        apply in_app_or in Hl0. destruct Hl0 as [Hl0 | [<- | []]].
        -- unfold ones in Hl0. apply ones_from_bound in Hl0. lia.
        -- lia.
      * lia.
  - cbn [fst snd]. split; [lia |].
    intros c l [<- | []] Hl. apply in_range in Hl. lia.
Qed.

Lemma not_stabilizer_within_watermark_witness :
  exists cs anc,
    not_stabilizer 4 standard422 = Ret (cs, anc) /\
    2 * Z.of_nat 4 - Z.of_nat (s_rk standard422) <= anc /\
    forall c l, In c cs -> In l c -> 1 <= Z.abs l <= anc.
Proof.
  destruct (not_stabilizer 4 standard422) as [[cs anc] | e | ] eqn:E;
    try (vm_compute in E; discriminate).
  exists cs, anc. split; [reflexivity |].
  apply (not_stabilizer_within_watermark 4 standard422 cs anc standard422_shaped E).
Defined.

(** ** What [find_weight] returns *)

Lemma while_search_achieved (q : Z -> M (option (list Z))) (num : nat) :
  forall fuel upper b r,
    fst (while_loop fuel snd (search_body q num) (upper, b)) = Ret r ->
    fst r = upper \/
    (0 < fst r < upper /\
     exists t out,
       fst r <= t < upper /\ fst (q t) = Ret out /\ truthy out = true /\
       witness_weight num out = fst r).
Proof.
  induction fuel as [| fuel IH]; intros upper b r H; [discriminate |].
  rewrite while_loop_eq in H. cbn [snd] in H. destruct b.
  2:{ injection H as <-. left. reflexivity. }
  rewrite mbind_fst in H.
  destruct (q (upper - 1)) as [[out | e | ] tr] eqn:Eq.
  - rewrite (search_body_step q num upper true out tr Eq) in H.
    destruct (truthy out) eqn:Et.
    + destruct ((0 <? witness_weight num out) && (witness_weight num out <? upper))
        eqn:Ew; cbn [fst obind] in H; [| discriminate].
      apply andb_true_iff in Ew. destruct Ew as [E1 E2]. apply Z.ltb_lt in E1, E2.
      right. apply IH in H. destruct H as [Hr | (Hr & t & out' & Ht & Hq & Ht' & Hw)].
      * split; [lia |]. exists (upper - 1), out. rewrite Eq. cbn [fst].
        repeat split; try assumption; try lia; try congruence.
      * split; [lia |]. exists t, out'. repeat split; try assumption; lia.
    + cbn [fst obind] in H. apply IH in H. exact H.
  - rewrite (search_body_raise q num upper true e tr Eq) in H. discriminate.
  - rewrite (search_body_out q num upper true tr Eq) in H. discriminate.
Qed.

Lemma search_achieved (q : Z -> M (option (list Z))) (num : nat) (upper r : Z) :
  fst (search q num upper) = Ret r ->
  r = upper \/
  (0 < r < upper /\
   exists t out,
     r <= t < upper /\ fst (q t) = Ret out /\ truthy out = true /\
     witness_weight num out = r).
Proof.
  intros H. rewrite search_fst in H.
  destruct (fst (while_loop _ _ _ _)) as [s | e | ] eqn:E; cbn [obind] in H;
    try discriminate.
  injection H as <-. apply (while_search_achieved q num _ _ _ _ E).
Qed.

Lemma find_weight_with_binary
  (oracle : Z -> ndarray -> ndarray -> bool -> M (option (list Z)))
  (Hx Hz : ndarray) (p : Z) (both sw : bool) (r : Z) :
  fst (find_weight_with oracle Hx Hz p both sw) = Ret r ->
  Np.is_binary Hx = true /\ Np.is_binary Hz = true.
Proof.
  unfold find_weight_with. destruct sw; cbv beta iota zeta; intros H;
    rewrite mbind_fst in H;
    [destruct (Np.is_binary Hz) eqn:E1 | destruct (Np.is_binary Hx) eqn:E1];
    cbn [massert lift py_assert fst obind] in H; try discriminate;
    rewrite mbind_fst in H;
    [destruct (Np.is_binary Hx) eqn:E2 | destruct (Np.is_binary Hz) eqn:E2];
    cbn [massert lift py_assert fst obind] in H; try discriminate; auto.
Qed.



(** X10: the second pass only lowers the result: when
    find_weight(HX,HZ,p,both=True) returns r, the call without [both]
    returns some r1 with r <= r1. *)
Theorem find_weight_both_below_single (sv : services) (Hx Hz : ndarray) (p : Z)
  (sw : bool) (r : Z) :
  fst (find_weight sv Hx Hz p true sw) = Ret r ->
  exists r1, fst (find_weight sv Hx Hz p false sw) = Ret r1 /\ r <= r1.
Proof.
  unfold find_weight. intros H.
  destruct (find_weight_with_binary _ _ _ _ _ _ _ H) as [Bx Bz].
  rewrite find_weight_with_fst in * by assumption. cbv zeta in *.
  destruct (fst (search _ _ p)) as [r1 | e | ] eqn:E1; cbn [obind] in *; try discriminate.
  exists r1. split; [reflexivity |].
  apply search_achieved in H. lia.
Qed.

Lemma find_weight_both_below_single_witness :
  fst (find_weight (Reference.exhaustive Fixture.rre422)
         Fixture.H422 Fixture.H422 3 true false) = Ret 2 /\
  exists r1,
    fst (find_weight (Reference.exhaustive Fixture.rre422)
           Fixture.H422 Fixture.H422 3 false false) = Ret r1 /\ 2 <= r1.
Proof.
  assert (E : fst (find_weight (Reference.exhaustive Fixture.rre422)
                     Fixture.H422 Fixture.H422 3 true false) = Ret 2)
    by (vm_compute; reflexivity).
  split; [exact E |]. exact (find_weight_both_below_single _ _ _ _ _ _ E).
Defined.

(** ** Invalid input through [find_weight] *)

Lemma dot_comm (u : list Z) : forall v, Np.dot u v = Np.dot v u.
Proof.
  unfold Np.dot. induction u as [| a u IH]; intros [| b v]; try reflexivity.
  cbn [combine map fold_right fst snd]. rewrite IH. lia.
Qed.

Lemma commuting_sym (HX HZ : ndarray) : commuting HX HZ -> commuting HZ HX.
Proof.
  unfold commuting. intros H r r' Hr Hr'. rewrite dot_comm. apply H; assumption.
Qed.

Lemma sat_distance_invalid (sv : services) (threshold : Z) (HX HZ : ndarray)
  (proof switch : bool) (e : exn) :
  validate HX HZ = Raise e ->
  sat_distance sv threshold HX HZ proof switch = (Raise e, []).
Proof. intros E. unfold sat_distance, prepare. rewrite E. reflexivity. Qed.

Lemma search_first_query_raises (q : Z -> M (option (list Z))) (num : nat)
  (upper : Z) (e : exn) (tr : list event) :
  q (upper - 1) = (Raise e, tr) -> search q num upper = (Raise e, tr).
Proof.
  intros Hq. unfold search, search_budget. rewrite while_loop_eq. cbn [snd].
  rewrite (search_body_raise q num upper true e tr Hq). reflexivity.
Qed.

(** X11: [find_weight] itself only asserts that the two matrices are binary,
    but the other conditions are caught by its first query: whenever the
    (rectangular) matrices are not both binary, differ in their number of
    columns or do not commute, find_weight raises AssertionError, whatever
    the upper bound and the flags, with nothing reduced, compiled, solved or
    printed. *)
Theorem find_weight_rejects_invalid (sv : services) (Hx Hz : ndarray) (p : Z)
  (both sw : bool) :
  rectangular Hx -> rectangular Hz ->
  ~ (binary Hx /\ binary Hz /\ ncols Hx = ncols Hz /\ commuting Hx Hz) ->
  find_weight sv Hx Hz p both sw = (Raise AssertionError, []).
Proof.
  intros Rx Rz Hbad. unfold find_weight, find_weight_with.
  destruct sw; cbv beta iota zeta.
  - destruct (Np.is_binary Hz) eqn:Bz; [| reflexivity].
    destruct (Np.is_binary Hx) eqn:Bx; [| reflexivity].
    cbn [massert lift py_assert mbind app].
    destruct (validate_outcome Hz Hx) as [E | E].
    + exfalso. apply (validate_spec Hz Hx Rx) in E.
      destruct E as (B1 & B2 & En & Hc). apply Hbad.
      repeat split; try assumption; [symmetry; exact En | apply commuting_sym; exact Hc].
    + rewrite (search_first_query_raises _ _ _ AssertionError []);
        [reflexivity | apply sat_distance_invalid; exact E].
  - destruct (Np.is_binary Hx) eqn:Bx; [| reflexivity].
    destruct (Np.is_binary Hz) eqn:Bz; [| reflexivity].
    cbn [massert lift py_assert mbind app].
    destruct (validate_outcome Hx Hz) as [E | E].
    + exfalso. apply (validate_spec Hx Hz Rz) in E. contradiction.
    + rewrite (search_first_query_raises _ _ _ AssertionError []);
        [reflexivity | apply sat_distance_invalid; exact E].
Qed.

Lemma find_weight_rejects_invalid_witness :
  find_weight (Reference.exhaustive Fixture.rre422)
    {| ncols := 2; rows := [[1; 1]] |} {| ncols := 2; rows := [[1; 0]] |} 4 true false
  = (Raise AssertionError, []).
Proof.
  apply find_weight_rejects_invalid.
  - repeat constructor.
  - repeat constructor.
  - intros (_ & _ & _ & Hc).
    specialize (Hc [1; 1] [1; 0] (or_introl eq_refl) (or_introl eq_refl)).
    vm_compute in Hc. discriminate.
Defined.

(** ** Solver sessions along a search *)

Lemma session_protocol_app (t1 t2 : list event) :
  forall s,
    session_protocol s (t1 ++ t2)
    = match session_protocol s t1 with
      | Some s' => session_protocol s' t2
      | None => None
      end.
Proof.
  induction t1 as [| e t1 IH]; intros s; [reflexivity |].
  cbn [app session_protocol]. destruct (session_step s e); [apply IH | reflexivity].
Qed.

Lemma quiet_protocol (tr : list event) :
  Forall (fun e => forall s, session_step s e = Some s) tr ->
  forall s, session_protocol s tr = Some s.
Proof.
  induction 1 as [| e tr He _ IH]; intros s; [reflexivity |].
  cbn [session_protocol]. rewrite He. apply IH.
Qed.

Lemma follows_bind {A B : Type} (s s1 s2 : session) (m : M A) (f : A -> M B) :
  follows s s1 m -> (forall a, follows s1 s2 (f a)) -> follows s s2 (mbind m f).
Proof.
  unfold follows. rewrite mbind_fst, mbind_snd. intros Hm Hf.
  destruct (fst m) as [a | e | ]; cbn [obind]; rewrite ?app_nil_r; try exact Hm.
  rewrite session_protocol_app, Hm. apply Hf.
Qed.

Lemma follows_quiet {A : Type} (s : session) (m : M A) : quiet m -> follows s s m.
Proof.
  intros H. unfold follows. rewrite (quiet_protocol _ H).
  destruct (fst m); eauto.
Qed.

Lemma follows_emit (s s' : session) (e : event) :
  session_step s e = Some s' -> follows s s' (emit e).
Proof. intros H. unfold follows. cbn. rewrite H. reflexivity. Qed.

Lemma quiet_bind {A B : Type} (m : M A) (f : A -> M B) :
  quiet m -> (forall a, quiet (f a)) -> quiet (mbind m f).
Proof.
  unfold quiet. rewrite mbind_snd. intros Hm Hf. apply Forall_app. split; [exact Hm |].
  destruct (fst m); [apply Hf | constructor | constructor].
Qed.

Lemma quiet_lift {A : Type} (o : outcome A) : quiet (lift o).
Proof. constructor. Qed.

Lemma quiet_mret {A : Type} (a : A) : quiet (mret a).
Proof. constructor. Qed.

Lemma quiet_massert (b : bool) : quiet (massert b).
Proof. constructor. Qed.

Lemma quiet_emit (e : event) :
  (forall s, session_step s e = Some s) -> quiet (emit e).
Proof. intros H. constructor; [exact H | constructor]. Qed.

Ltac quiet :=
  repeat match goal with
  | |- quiet (mbind _ _) => apply quiet_bind; [| intros ? ]
  | |- quiet (lift _) => apply quiet_lift
  | |- quiet (mret _) => apply quiet_mret
  | |- quiet (massert _) => apply quiet_massert
  | |- quiet (emit _) => apply quiet_emit; intros []; reflexivity
  end.

Ltac follows :=
  repeat match goal with
  | |- follows _ _ (mbind (emit _) _) =>
      eapply follows_bind; [apply follows_emit; reflexivity | intros ? ]
  | |- follows _ _ (mbind (massert _) _) =>
      eapply follows_bind; [apply follows_quiet, quiet_massert | intros ? ]
  | |- follows _ _ (mbind (lift _) _) =>
      eapply follows_bind; [apply follows_quiet, quiet_lift | intros ? ]
  | |- follows _ _ (mret _) => apply follows_quiet, quiet_mret
  end.














(** ** Lines of a certificate *)

Lemma split_no_space (s : string) : no_space s -> Str.split s = [s].
Proof.
  induction s as [| c s IH]; intros H; [reflexivity |].
  cbn [Str.split]. rewrite (H c) by (left; reflexivity).
  rewrite IH; [reflexivity |]. intros c' Hc'. apply H. right. exact Hc'.
Qed.

Lemma split_app_space (x rest : string) :
  no_space x ->
  Str.split (x ++ String " " rest) = x :: Str.split rest.
Proof.
  induction x as [| c x IH]; intros H; [reflexivity |].
  cbn [String.append Str.split]. rewrite (H c) by (left; reflexivity).
  rewrite IH; [reflexivity |]. intros c' Hc'. apply H. right. exact Hc'.
Qed.

Lemma split_concat (fs : list string) :
  fs <> [] -> Forall no_space fs -> Str.split (String.concat " " fs) = fs.
Proof.
  induction fs as [| x fs IH]; intros Hne H; [contradiction |].
  inversion H as [| ? ? Hx Hfs]; subst.
  destruct fs as [| y fs'].
  - cbn [String.concat]. apply split_no_space. exact Hx.
  - change (String.concat " " (x :: y :: fs'))
      with (x ++ String " " (String.concat " " (y :: fs')))%string.
    rewrite split_app_space by exact Hx. rewrite IH by (congruence || assumption).
    reflexivity.
Qed.

Lemma convert_proof_app (l1 l2 l2' : list string) :
  convert_proof l2 = convert_proof l2' ->
  convert_proof (l1 ++ l2) = convert_proof (l1 ++ l2').
Proof.
  intros H. induction l1 as [| c l1 IH]; [exact H |].
  cbn [app convert_proof]. destruct c as [| c0 c']; [reflexivity |].
  rewrite IH. reflexivity.
Qed.

(** X13: what [check_proof] makes of the lines of a certificate.  A line
    whose first character is d is skipped wherever it stands.  Any other
    non-empty line, made of space-separated fields, becomes the clause of
    its fields but the last: the last field (the terminating 0 of a DRUP
    line) is dropped without being read, so a line without its terminator
    loses its last literal. *)
Theorem certificate_line_drops_last_field (fields : list string) (lastf : string)
  (lits : list Z) (before rest : list string) (d : string) :
  Forall no_space fields -> no_space lastf ->
  String.concat " " (fields ++ [lastf]) <> EmptyString ->
  deletion_line (String.concat " " (fields ++ [lastf])) = false ->
  map_outcome Str.int fields = Ret lits ->
  deletion_line d = true ->
  convert_proof (String.concat " " (fields ++ [lastf]) :: rest)
  = obind (convert_proof rest) (fun more => Ret (lits :: more)) /\
  convert_proof (before ++ d :: rest) = convert_proof (before ++ rest).
Proof.
  intros Hf Hl Hne Hd Hint Hdel. split.
  - cbn [convert_proof].
    destruct (String.concat " " (fields ++ [lastf])) as [| c0 s] eqn:E; [contradiction |].
    cbn [deletion_line] in Hd. rewrite Hd. rewrite <- E.
    rewrite split_concat.
    + rewrite removelast_last, Hint. reflexivity.
    + destruct fields; discriminate.
    + apply Forall_app. split; [exact Hf | constructor; [exact Hl | constructor]].
  - apply convert_proof_app. destruct d as [| c0 s]; [discriminate |].
    cbn [deletion_line] in Hdel. cbn [convert_proof]. rewrite Hdel. reflexivity.
Qed.

Lemma certificate_line_drops_last_field_witness :
  convert_proof ["1 -2 0"%string; "d 1 -2 0"%string; "3 4"%string]
  = obind (convert_proof ["d 1 -2 0"%string; "3 4"%string])
      (fun more => Ret ([1; -2] :: more)) /\
  convert_proof (["7 0"%string] ++ "d 7 0"%string :: ["d 1 -2 0"%string; "3 4"%string])
  = convert_proof (["7 0"%string] ++ ["d 1 -2 0"%string; "3 4"%string]).
Proof.
  apply (certificate_line_drops_last_field ["1"%string; "-2"%string] "0"%string
           [1; -2] ["7 0"%string] ["d 1 -2 0"%string; "3 4"%string] "d 7 0"%string).
  - repeat constructor; intros c Hc; cbn in Hc;
      repeat (destruct Hc as [<- | Hc]; [reflexivity |]); contradiction.
  - intros c Hc; cbn in Hc;
      repeat (destruct Hc as [<- | Hc]; [reflexivity |]); contradiction.
  - discriminate.
  - reflexivity.
  - reflexivity.
  - reflexivity.
Defined.

(** ** The unsatisfiable answer *)

(** X14: what [sat_distance] does with an unsatisfiable answer.  Without
    [proof] it returns False after creating, asking and deleting the
    solver, and nothing can fail.  With [proof] the assertion on the result
    of [check_proof] never fires by itself: the call ends in whatever
    exception [check_proof] ends in (no certificate recorded: TypeError), and
    returns False otherwise; it never returns a model. *)
Theorem unsatisfiable_answer (sv : services) (threshold : Z) (HX HZ : ndarray)
  (switch : bool) (n : nat) (st : standard) (cs : list clause) (tr : list event) :
  prepare sv threshold HX HZ = (Ret (n, st, cs), tr) ->
  g_solve sv cs = false ->
  sat_distance sv threshold HX HZ false switch
  = (Ret None, tr ++ [EvSolver cs false; EvSolve; EvDelete]) /\
  fst (sat_distance sv threshold HX HZ true switch)
  = obind (fst (check_proof sv (g_get_proof sv cs true) cs)) (fun _ => Ret None) /\
  (g_get_proof sv cs true = None ->
   fst (sat_distance sv threshold HX HZ true switch) = Raise TypeError).
Proof.
  intros Hp Hs.
  assert (Hproof : fst (sat_distance sv threshold HX HZ true switch)
                   = obind (fst (check_proof sv (g_get_proof sv cs true) cs))
                       (fun _ => Ret None)).
  { unfold sat_distance. rewrite Hp. rewrite mbind_fst. cbn [fst obind].
    rewrite !mbind_fst. cbn [fst emit obind]. rewrite Hs.
    unfold report_unsat. rewrite !mbind_fst. cbn [fst emit obind].
    pose proof (check_proof_never_false sv (g_get_proof sv cs true) cs) as Hnf.
    destruct (fst (check_proof sv (g_get_proof sv cs true) cs)) as [[|] | e | ];
      cbn [obind]; try reflexivity.
    specialize (Hnf false eq_refl). discriminate. }
  split; [| split].
  - unfold sat_distance. rewrite Hp. rewrite mbind_Ret. f_equal.
    + rewrite !mbind_fst. cbn [fst emit obind]. rewrite Hs. reflexivity.
    + f_equal. rewrite !mbind_snd. cbn [fst snd emit app]. rewrite Hs. reflexivity.
  - exact Hproof.
  - intros Hnone. rewrite Hproof. unfold check_proof. rewrite Hnone. reflexivity.
Qed.

Lemma unsatisfiable_answer_witness :
  exists n st cs tr,
    prepare (Fixture.fixed_services Fixture.rre422 false [] None Valid)
      1 Fixture.H422 Fixture.H422 = (Ret (n, st, cs), tr) /\
    sat_distance (Fixture.fixed_services Fixture.rre422 false [] None Valid)
      1 Fixture.H422 Fixture.H422 false false
    = (Ret None, tr ++ [EvSolver cs false; EvSolve; EvDelete]) /\
    fst (sat_distance (Fixture.fixed_services Fixture.rre422 false [] None Valid)
           1 Fixture.H422 Fixture.H422 true false) = Raise TypeError.
Proof.
  destruct (prepare (Fixture.fixed_services Fixture.rre422 false [] None Valid)
              1 Fixture.H422 Fixture.H422) as [o tr] eqn:E.
  pose proof E as V. vm_compute in V. injection V as <- <-.
  destruct (unsatisfiable_answer _ _ _ _ false _ _ _ _ E eq_refl) as (H1 & _ & H3).
  eexists _, _, _, _. split; [reflexivity |]. split; [exact H1 |].
  apply H3. reflexivity.
Defined.

(** ** Matrices given by their entries, and finite sums *)

Lemma nth_map_seq {X : Type} (g : nat -> X) (c j : nat) (d : X) :
  (j < c)%nat -> nth j (map g (seq 0 c)) d = g j.
Proof.
  intros H.
  rewrite (nth_indep _ d (g 0%nat)) by (rewrite length_map, length_seq; exact H).
  rewrite (map_nth g). rewrite seq_nth by exact H. reflexivity.
Qed.

Lemma map_seq_shift {X : Type} (g : nat -> X) (s n : nat) :
  map g (seq s n) = map (fun j => g (s + j)%nat) (seq 0 n).
Proof.
  revert s. induction n as [| n IH]; intros s; [reflexivity |].
  cbn [seq map]. rewrite Nat.add_0_r. f_equal.
  rewrite IH. rewrite <- (seq_shift n 0), map_map.
  apply map_ext. intros j. f_equal. lia.
Qed.

Lemma flat_map_seq_divmod {X : Type} (h : nat -> nat -> X) (p q : nat) :
  flat_map (fun a => map (h a) (seq 0 q)) (seq 0 p)
  = map (fun i => h (i / q) (i mod q))%nat (seq 0 (p * q)).
Proof.
  induction p as [| p IH]; [reflexivity |].
  rewrite seq_S, flat_map_app, IH. cbn [flat_map Nat.add]. rewrite app_nil_r.
  replace (S p * q)%nat with (p * q + q)%nat by lia.
  rewrite seq_app, map_app. f_equal. cbn [Nat.add].
  rewrite (map_seq_shift _ (p * q) q). apply map_ext_in. intros j Hj. apply in_seq in Hj.
  rewrite Nat.div_add_l by lia. rewrite Nat.div_small by lia.
  rewrite (Nat.add_comm (p * q)), Nat.Div0.mod_add, Nat.mod_small by lia.
  f_equal. lia.
Qed.

Lemma flat_map_of_map {X Y W : Type} (f : Y -> list W) (g : X -> Y) (l : list X) :
  flat_map f (map g l) = flat_map (fun x => f (g x)) l.
Proof.
  induction l as [| x l IH]; [reflexivity |]. cbn [map flat_map]. rewrite IH. reflexivity.
Qed.

Lemma combine_map_same {X Y W : Type} (f : X -> Y) (g : X -> W) (l : list X) :
  combine (map f l) (map g l) = map (fun x => (f x, g x)) l.
Proof.
  induction l as [| x l IH]; [reflexivity |]. cbn [map combine]. rewrite IH. reflexivity.
Qed.

Lemma firstn_of_seq (n : nat) :
  forall s k, firstn n (seq s k) = seq s (Nat.min n k).
Proof.
  induction n as [| n IH]; intros s [| k]; try reflexivity.
  cbn [seq firstn Nat.min]. rewrite IH. reflexivity.
Qed.

Lemma roll_row_map_seq (a : Z) (g : nat -> Z) (c : nat) :
  Codes.roll_row a (map g (seq 0 c))
  = map (fun j => g ((j + c - Z.to_nat (a mod Z.of_nat c)) mod c)%nat) (seq 0 c).
Proof.
  unfold Codes.roll_row. rewrite length_map, length_seq. cbv zeta.
  destruct c as [| c']; [reflexivity |].
  set (c := S c') in *.
  set (k := Z.to_nat (a mod Z.of_nat c)).
  assert (Hk : (k < c)%nat).
  { unfold k. pose proof (Z.mod_pos_bound a (Z.of_nat c) ltac:(lia)). lia. }
  unfold from, upto. rewrite skipn_map, firstn_map, skipn_seq, firstn_of_seq.
  replace (c - (c - k))%nat with k by lia.
  replace (Nat.min (c - k) c) with (c - k)%nat by lia.
  cbn [Nat.add].
  transitivity (map (fun j => g ((j + c - k) mod c)%nat) (seq 0 k ++ seq k (c - k))).
  2:{ f_equal. rewrite <- seq_app. f_equal. lia. }
  rewrite map_app. f_equal.
  - rewrite map_seq_shift. apply map_ext_in. intros j Hj. apply in_seq in Hj.
    f_equal. rewrite Nat.mod_small by lia. lia.
  - rewrite (map_seq_shift _ k). apply map_ext_in. intros j Hj. apply in_seq in Hj.
    f_equal. replace (k + j + c - k)%nat with (j + 1 * c)%nat by lia.
    rewrite Nat.Div0.mod_add. rewrite Nat.mod_small by lia. reflexivity.
Qed.

Lemma tabulate_ext (r c : nat) (f g : nat -> nat -> Z) :
  (forall i j, (i < r)%nat -> (j < c)%nat -> f i j = g i j) ->
  tabulate r c f = tabulate r c g.
Proof.
  intros H. unfold tabulate. f_equal.
  apply map_ext_in. intros i Hi. apply in_seq in Hi.
  apply map_ext_in. intros j Hj. apply in_seq in Hj. apply H; lia.
Qed.

Lemma nrows_tabulate (r c : nat) (f : nat -> nat -> Z) : nrows (tabulate r c f) = r.
Proof. unfold nrows, tabulate. cbn [rows]. rewrite length_map, length_seq. reflexivity. Qed.

Lemma rectangular_tabulate (r c : nat) (f : nat -> nat -> Z) : rectangular (tabulate r c f).
Proof.
  unfold rectangular, tabulate. cbn [rows ncols]. apply Forall_forall.
  intros x Hx. apply in_map_iff in Hx. destruct Hx as (i & <- & _).
  rewrite length_map, length_seq. reflexivity.
Qed.

Lemma in_rows_tabulate (r c : nat) (f : nat -> nat -> Z) (x : list Z) :
  In x (rows (tabulate r c f)) <-> exists i, (i < r)%nat /\ x = map (f i) (seq 0 c).
Proof.
  unfold tabulate. cbn [rows]. rewrite in_map_iff. split.
  - intros (i & <- & Hi). apply in_seq in Hi. exists i. split; [lia | reflexivity].
  - intros (i & Hi & ->). exists i. split; [reflexivity | apply in_seq; lia].
Qed.

Lemma eye_tabulate (n : nat) :
  Codes.eye n = tabulate n n (fun i j => ind (i =? j)%nat).
Proof. reflexivity. Qed.

Lemma roll_tabulate (r c : nat) (f : nat -> nat -> Z) (a : Z) :
  Codes.roll (tabulate r c f) a
  = tabulate r c (fun i j => f i ((j + c - Z.to_nat (a mod Z.of_nat c)) mod c)%nat).
Proof.
  unfold Codes.roll, tabulate. cbn [rows ncols]. f_equal.
  rewrite map_map. apply map_ext. intros i. apply roll_row_map_seq.
Qed.

Lemma kron_tabulate (r1 c1 r2 c2 : nat) (f g : nat -> nat -> Z) :
  Codes.kron (tabulate r1 c1 f) (tabulate r2 c2 g)
  = tabulate (r1 * r2) (c1 * c2)
      (fun i j => f (i / r2)%nat (j / c2)%nat * g (i mod r2)%nat (j mod c2)%nat).
Proof.
  unfold Codes.kron, tabulate. cbn [rows ncols]. f_equal.
  rewrite flat_map_of_map.
  transitivity
    (flat_map
       (fun i1 => map (fun i2 => map (fun j => f i1 (j / c2)%nat * g i2 (j mod c2)%nat)
                                     (seq 0 (c1 * c2)))
                      (seq 0 r2))
       (seq 0 r1)).
  - apply flat_map_ext. intros i1. rewrite map_map. apply map_ext. intros i2.
    rewrite flat_map_of_map.
    transitivity (flat_map (fun j1 => map (fun j2 => f i1 j1 * g i2 j2) (seq 0 c2)) (seq 0 c1)).
    + apply flat_map_ext. intros j1. rewrite map_map. reflexivity.
    + apply (flat_map_seq_divmod (fun j1 j2 => f i1 j1 * g i2 j2)).
  - apply (flat_map_seq_divmod
             (fun i1 i2 => map (fun j => f i1 (j / c2)%nat * g i2 (j mod c2)%nat)
                               (seq 0 (c1 * c2)))).
Qed.

Lemma add2_tabulate (r c : nat) (f g : nat -> nat -> Z) :
  Codes.add2 (tabulate r c f) (tabulate r c g)
  = Ret (tabulate r c (fun i j => f i j + g i j)).
Proof.
  unfold Codes.add2. rewrite !nrows_tabulate. cbn [ncols tabulate].
  rewrite !Nat.eqb_refl. cbn [andb]. f_equal. unfold tabulate. cbn [rows]. f_equal.
  rewrite combine_map_same, map_map. apply map_ext. intros i. cbn [fst snd].
  rewrite combine_map_same, map_map. reflexivity.
Qed.

Lemma lsum_map {X Y : Type} (g : Y -> Z) (e : X -> Y) (ps : list X) :
  lsum g (map e ps) = lsum (fun p => g (e p)) ps.
Proof. unfold lsum. rewrite map_map. reflexivity. Qed.

Lemma sum_from_tabulate (r c : nat) (fs : list (nat -> nat -> Z)) :
  forall f0,
    Codes.sum_from (tabulate r c f0) (map (tabulate r c) fs)
    = Ret (tabulate r c (fun i j => f0 i j + lsum (fun f => f i j) fs)).
Proof.
  induction fs as [| f fs IH]; intros f0.
  - cbn [map Codes.sum_from]. f_equal. apply tabulate_ext. intros i j _ _.
    unfold lsum. cbn. lia.
  - cbn [map Codes.sum_from]. rewrite add2_tabulate. cbn [obind]. rewrite IH.
    f_equal. apply tabulate_ext. intros i j _ _. unfold lsum. cbn [map fold_right]. lia.
Qed.

Lemma hstack_tabulate (r c c' : nat) (f g : nat -> nat -> Z) :
  Codes.hstack (tabulate r c f) (tabulate r c' g)
  = Ret (tabulate r (c + c')
           (fun i j => if (j <? c)%nat then f i j else g i (j - c)%nat)).
Proof.
  unfold Codes.hstack. rewrite !nrows_tabulate, Nat.eqb_refl.
  f_equal. unfold tabulate. cbn [rows ncols]. f_equal.
  rewrite combine_map_same, map_map. apply map_ext. intros i. cbn [fst snd].
  rewrite seq_app, map_app. cbn [Nat.add]. f_equal.
  - apply map_ext_in. intros j Hj. apply in_seq in Hj.
    replace (j <? c)%nat with true by (symmetry; apply Nat.ltb_lt; lia). reflexivity.
  - rewrite (map_seq_shift _ c). apply map_ext. intros j.
    replace (c + j <? c)%nat with false by (symmetry; apply Nat.ltb_ge; lia).
    f_equal. lia.
Qed.

Lemma column_tabulate (r c : nat) (f : nat -> nat -> Z) (j : nat) :
  (j < c)%nat ->
  Np.column (tabulate r c f) j = map (fun i => f i j) (seq 0 r).
Proof.
  intros Hj. unfold Np.column, tabulate. cbn [rows]. rewrite map_map.
  apply map_ext. intros i. apply nth_map_seq. exact Hj.
Qed.

Lemma transpose_tabulate (r c : nat) (f : nat -> nat -> Z) :
  Np.transpose (tabulate r c f) = tabulate c r (fun j i => f i j).
Proof.
  unfold Np.transpose. rewrite nrows_tabulate.
  replace (ncols (tabulate r c f)) with c by reflexivity.
  unfold tabulate at 2. f_equal. apply map_ext_in. intros j Hj. apply in_seq in Hj.
  apply column_tabulate. lia.
Qed.

Lemma sum_axis1_tabulate (r c : nat) (f : nat -> nat -> Z) :
  Codes.sum_axis1 (tabulate r c f) = map (fun i => bigsum (f i) c) (seq 0 r).
Proof. unfold Codes.sum_axis1, tabulate. cbn [rows]. rewrite map_map. reflexivity. Qed.

Lemma sum_axis0_tabulate (r c : nat) (f : nat -> nat -> Z) :
  Codes.sum_axis0 (tabulate r c f) = map (fun j => bigsum (fun i => f i j) r) (seq 0 c).
Proof.
  unfold Codes.sum_axis0. cbn [ncols tabulate]. apply map_ext_in. intros j Hj.
  apply in_seq in Hj. rewrite column_tabulate by lia. reflexivity.
Qed.

Lemma dot_map_seq (u v : nat -> Z) (c : nat) :
  Np.dot (map u (seq 0 c)) (map v (seq 0 c)) = bigsum (fun j => u j * v j) c.
Proof.
  unfold Np.dot, bigsum. rewrite combine_map_same, map_map. reflexivity.
Qed.

Lemma all_equal_repeat (F : nat -> Z) (v : Z) (n : nat) :
  forall s,
    Codes.all_equal_list (map F (seq s n)) (repeat v n) = true
    <-> forall i, (s <= i < s + n)%nat -> F i = v.
Proof.
  unfold Codes.all_equal_list.
  induction n as [| n IH]; intros s.
  - cbn. split; [intros _ i Hi; lia | reflexivity].
  - cbn [seq map repeat combine forallb fst snd].
    rewrite andb_true_iff, Z.eqb_eq, IH. split.
    + intros [H0 H] i Hi. destruct (Nat.eq_dec i s) as [-> | Hne]; [exact H0 |].
      apply H. lia.
    + intros H. split; [apply H; lia |]. intros i Hi. apply H. lia.
Qed.

Lemma bigsum_ext (f g : nat -> Z) (n : nat) :
  (forall i, (i < n)%nat -> f i = g i) -> bigsum f n = bigsum g n.
Proof.
  intros H. unfold bigsum. f_equal. apply map_ext_in. intros i Hi.
  apply in_seq in Hi. apply H. lia.
Qed.

Lemma bigsum_S (f : nat -> Z) (n : nat) : bigsum f (S n) = bigsum f n + f n.
Proof.
  unfold bigsum. rewrite seq_S, map_app. cbn [Nat.add map].
  induction (map f (seq 0 n)) as [| x l IH]; cbn [app fold_right]; [lia |].
  rewrite IH. lia.
Qed.

Lemma bigsum_0 (n : nat) : bigsum (fun _ => 0) n = 0.
Proof. induction n as [| n IH]; [reflexivity |]. rewrite bigsum_S, IH. reflexivity. Qed.

Lemma bigsum_add (f g : nat -> Z) (n : nat) :
  bigsum (fun i => f i + g i) n = bigsum f n + bigsum g n.
Proof.
  induction n as [| n IH]; [reflexivity |]. rewrite !bigsum_S, IH. lia.
Qed.

Lemma bigsum_app (f : nat -> Z) (n k : nat) :
  bigsum f (n + k) = bigsum f n + bigsum (fun j => f (n + j)%nat) k.
Proof.
  induction k as [| k IH].
  - rewrite Nat.add_0_r. unfold bigsum at 3. cbn. lia.
  - rewrite Nat.add_succ_r, !bigsum_S, IH. lia.
Qed.

Lemma bigsum_point (h : nat -> Z) (x n : nat) :
  (x < n)%nat -> bigsum (fun j => ind (x =? j)%nat * h j) n = h x.
Proof.
  induction n as [| n IH]; intros Hx; [lia |].
  rewrite bigsum_S. destruct (Nat.eq_dec x n) as [-> | Hne].
  - rewrite Nat.eqb_refl. cbn [ind].
    rewrite (bigsum_ext _ (fun _ => 0)), bigsum_0; [lia |].
    intros i Hi. replace (n =? i)%nat with false by (symmetry; apply Nat.eqb_neq; lia).
    reflexivity.
  - rewrite IH by lia.
    replace (x =? n)%nat with false by (symmetry; apply Nat.eqb_neq; lia).
    cbn [ind]. lia.
Qed.

Lemma lsum_ext {X : Type} (f g : X -> Z) (ps : list X) :
  (forall p, In p ps -> f p = g p) -> lsum f ps = lsum g ps.
Proof. intros H. unfold lsum. f_equal. apply map_ext_in. exact H. Qed.

Lemma lsum_cons {X : Type} (g : X -> Z) (p : X) (ps : list X) :
  lsum g (p :: ps) = g p + lsum g ps.
Proof. reflexivity. Qed.

Lemma lsum_add {X : Type} (f g : X -> Z) (ps : list X) :
  lsum (fun p => f p + g p) ps = lsum f ps + lsum g ps.
Proof.
  induction ps as [| p ps IH]; [reflexivity |]. rewrite !lsum_cons, IH. lia.
Qed.

Lemma lsum_const {X : Type} (c : Z) (ps : list X) : lsum (fun _ => c) ps = len ps * c.
Proof.
  induction ps as [| p ps IH]; [reflexivity |]. rewrite lsum_cons, IH.
  unfold len. cbn [List.length]. lia.
Qed.

Lemma lsum_mul_r {X : Type} (g : X -> Z) (c : Z) (ps : list X) :
  lsum g ps * c = lsum (fun p => g p * c) ps.
Proof.
  induction ps as [| p ps IH]; [reflexivity |]. rewrite !lsum_cons, <- IH. lia.
Qed.

Lemma lsum_swap {X Y : Type} (F : X -> Y -> Z) (ps : list X) (qs : list Y) :
  lsum (fun p => lsum (F p) qs) ps = lsum (fun q => lsum (fun p => F p q) ps) qs.
Proof.
  induction ps as [| p ps IH].
  - cbn. symmetry. rewrite (lsum_const 0). lia.
  - rewrite lsum_cons, IH, <- lsum_add. reflexivity.
Qed.

Lemma bigsum_lsum {X : Type} (F : X -> nat -> Z) (ps : list X) (n : nat) :
  bigsum (fun j => lsum (fun p => F p j) ps) n = lsum (fun p => bigsum (F p) n) ps.
Proof.
  induction n as [| n IH].
  - cbn. symmetry. rewrite (lsum_const 0). lia.
  - rewrite bigsum_S, IH, <- lsum_add. apply lsum_ext. intros p _.
    rewrite bigsum_S. reflexivity.
Qed.

(** ** Shifts on the torus *)

Lemma divmod_pair (M a b : nat) :
  (b < M)%nat -> ((a * M + b) / M = a)%nat /\ ((a * M + b) mod M = b)%nat.
Proof.
  intros H. split.
  - rewrite Nat.div_add_l by lia. rewrite Nat.div_small by lia. lia.
  - rewrite Nat.add_comm, Nat.Div0.mod_add. apply Nat.mod_small. exact H.
Qed.

Lemma mod_once (a L : nat) : (L <= a < 2 * L)%nat -> (a mod L = a - L)%nat.
Proof.
  intros H. replace a with (a - L + 1 * L)%nat at 1 by lia.
  rewrite Nat.Div0.mod_add. apply Nat.mod_small. lia.
Qed.

Lemma shifted_div (L M k1 k2 i : nat) :
  (0 < M)%nat -> (shifted L M k1 k2 i / M = (i / M + k1) mod L)%nat.
Proof.
  intros HM. unfold shifted. apply divmod_pair. apply Nat.mod_upper_bound. lia.
Qed.

Lemma shifted_mod (L M k1 k2 i : nat) :
  (0 < M)%nat -> (shifted L M k1 k2 i mod M = (i mod M + k2) mod M)%nat.
Proof.
  intros HM. unfold shifted. apply divmod_pair. apply Nat.mod_upper_bound. lia.
Qed.

Lemma shifted_lt (L M k1 k2 i : nat) :
  (0 < L)%nat -> (0 < M)%nat -> (shifted L M k1 k2 i < L * M)%nat.
Proof.
  intros HL HM. unfold shifted.
  pose proof (Nat.mod_upper_bound (i / M + k1) L ltac:(lia)) as H1.
  pose proof (Nat.mod_upper_bound (i mod M + k2) M ltac:(lia)) as H2.
  assert (((i / M + k1) mod L + 1) * M <= L * M)%nat by (apply Nat.mul_le_mono_r; lia).
  lia.
Qed.

Lemma shifted_shifted (L M k1 k2 k1' k2' i : nat) :
  (0 < M)%nat ->
  shifted L M k1 k2 (shifted L M k1' k2' i) = shifted L M (k1' + k1) (k2' + k2) i.
Proof.
  intros HM. unfold shifted at 1. rewrite shifted_div, shifted_mod by exact HM.
  rewrite !Nat.Div0.add_mod_idemp_l. unfold shifted. rewrite !Nat.add_assoc. reflexivity.
Qed.

Lemma shifted_comm (L M k1 k2 k1' k2' i : nat) :
  (0 < M)%nat ->
  shifted L M k1 k2 (shifted L M k1' k2' i) = shifted L M k1' k2' (shifted L M k1 k2 i).
Proof.
  intros HM. rewrite !shifted_shifted by exact HM.
  rewrite (Nat.add_comm k1), (Nat.add_comm k2). reflexivity.
Qed.

Lemma shifted_full (L M i : nat) :
  (0 < M)%nat -> (i < L * M)%nat -> shifted L M L M i = i.
Proof.
  intros HM Hi. unfold shifted.
  replace (i / M + L)%nat with (i / M + 1 * L)%nat by lia.
  replace (i mod M + M)%nat with (i mod M + 1 * M)%nat by lia.
  rewrite !Nat.Div0.mod_add, Nat.Div0.mod_mod.
  rewrite (Nat.mod_small (i / M) L)
    by (apply Nat.Div0.div_lt_upper_bound; rewrite Nat.mul_comm; exact Hi).
  pose proof (Nat.div_mod_eq i M). lia.
Qed.

Lemma shifted_back (L M k1 k2 i : nat) :
  (0 < M)%nat -> (k1 <= L)%nat -> (k2 <= M)%nat -> (i < L * M)%nat ->
  shifted L M (L - k1) (M - k2) (shifted L M k1 k2 i) = i.
Proof.
  intros HM H1 H2 Hi. rewrite shifted_shifted by exact HM.
  replace (k1 + (L - k1))%nat with L by lia. replace (k2 + (M - k2))%nat with M by lia.
  apply shifted_full; assumption.
Qed.

Lemma shifted_forth (L M k1 k2 j : nat) :
  (0 < M)%nat -> (k1 <= L)%nat -> (k2 <= M)%nat -> (j < L * M)%nat ->
  shifted L M k1 k2 (shifted L M (L - k1) (M - k2) j) = j.
Proof.
  intros HM H1 H2 Hj. rewrite shifted_shifted by exact HM.
  replace (L - k1 + k1)%nat with L by lia. replace (M - k2 + k2)%nat with M by lia.
  apply shifted_full; assumption.
Qed.

Lemma shifted_eqb_swap (L M k1 k2 i j : nat) :
  (0 < M)%nat -> (k1 <= L)%nat -> (k2 <= M)%nat ->
  (i < L * M)%nat -> (j < L * M)%nat ->
  (shifted L M k1 k2 i =? j)%nat = (shifted L M (L - k1) (M - k2) j =? i)%nat.
Proof.
  intros HM H1 H2 Hi Hj.
  destruct (Nat.eqb_spec (shifted L M k1 k2 i) j) as [E | E];
    destruct (Nat.eqb_spec (shifted L M (L - k1) (M - k2) j) i) as [E' | E'];
    try reflexivity; exfalso.
  - apply E'. rewrite <- E. apply shifted_back; assumption.
  - apply E. rewrite <- E'. apply shifted_forth; assumption.
Qed.

Lemma shift_cancel (x a b L : nat) :
  (a < L)%nat -> (b < L)%nat -> ((x + a) mod L = (x + b) mod L)%nat -> a = b.
Proof.
  intros Ha Hb H.
  pose proof (Nat.div_mod_eq (x + a) L) as E1. pose proof (Nat.div_mod_eq (x + b) L) as E2.
  rewrite H in E1.
  set (q1 := ((x + a) / L)%nat) in *. set (q2 := ((x + b) / L)%nat) in *.
  set (r := ((x + b) mod L)%nat) in *.
  destruct (lt_eq_lt_dec q1 q2) as [[Hlt | Heq] | Hgt].
  - assert (L * (q1 + 1) <= L * q2)%nat by (apply Nat.mul_le_mono_l; lia). lia.
  - rewrite Heq in E1. lia.
  - assert (L * (q2 + 1) <= L * q1)%nat by (apply Nat.mul_le_mono_l; lia). lia.
Qed.

Lemma shifted_inj_shift (L M k1 k2 k1' k2' i : nat) :
  (0 < M)%nat -> (k1 < L)%nat -> (k1' < L)%nat -> (k2 < M)%nat -> (k2' < M)%nat ->
  shifted L M k1 k2 i = shifted L M k1' k2' i -> k1 = k1' /\ k2 = k2'.
Proof.
  intros HM H1 H1' H2 H2' E. split.
  - apply (shift_cancel (i / M) k1 k1' L H1 H1').
    rewrite <- !(shifted_div L M _ k2) by exact HM.
    rewrite E. rewrite !shifted_div by exact HM. reflexivity.
  - apply (shift_cancel (i mod M) k2 k2' M H2 H2').
    rewrite <- !(shifted_mod L M k1) by exact HM.
    rewrite E. rewrite !shifted_mod by exact HM. reflexivity.
Qed.

Lemma roll_index (L k x y : nat) :
  (x < L)%nat -> (y < L)%nat -> (k < L)%nat ->
  (x =? (y + L - k) mod L)%nat = ((x + k) mod L =? y)%nat.
Proof.
  intros Hx Hy Hk.
  assert (E1 : ((y + L - k) mod L = if (k <=? y) then y - k else y + L - k)%nat).
  { destruct (Nat.leb_spec k y).
    - rewrite mod_once by lia. lia.
    - apply Nat.mod_small. lia. }
  assert (E2 : ((x + k) mod L = if (x + k <? L) then x + k else x + k - L)%nat).
  { destruct (Nat.ltb_spec (x + k) L).
    - apply Nat.mod_small. lia.
    - apply mod_once. lia. }
  rewrite E1, E2.
  destruct (Nat.leb_spec k y); destruct (Nat.ltb_spec (x + k) L);
    match goal with |- (?a =? ?b)%nat = (?c =? ?d)%nat =>
      destruct (Nat.eqb_spec a b); destruct (Nat.eqb_spec c d) end;
    try reflexivity; lia.
Qed.

Lemma term_tabulate (l m : Z) (p : Z * Z) :
  Codes.in_range l m p = true ->
  Codes.term l m p
  = tabulate (Z.to_nat l * Z.to_nat m) (Z.to_nat l * Z.to_nat m)
      (fun i j => ind (shifted (Z.to_nat l) (Z.to_nat m)
                         (Z.to_nat (fst p)) (Z.to_nat (snd p)) i =? j)%nat).
Proof.
  destruct p as [a b]. unfold Codes.in_range. cbn [fst snd]. intros H.
  apply andb_true_iff in H. destruct H as [Ha Hb].
  apply andb_true_iff in Ha. destruct Ha as [Ha1 Ha2].
  apply andb_true_iff in Hb. destruct Hb as [Hb1 Hb2].
  apply Z.leb_le in Ha1, Hb1. apply Z.ltb_lt in Ha2, Hb2.
  unfold Codes.term. cbn [fst snd].
  rewrite !eye_tabulate, !roll_tabulate, kron_tabulate.
  rewrite !Z2Nat.id by lia. rewrite !Z.mod_small by lia.
  set (L := Z.to_nat l). set (M := Z.to_nat m).
  set (ka := Z.to_nat a). set (kb := Z.to_nat b).
  assert (HL : (ka < L)%nat) by (unfold ka, L; lia).
  assert (HM : (kb < M)%nat) by (unfold kb, M; lia).
  apply tabulate_ext. intros i j Hi Hj.
  assert (Hi1 : (i / M < L)%nat)
    by (apply Nat.Div0.div_lt_upper_bound; rewrite Nat.mul_comm; exact Hi).
  assert (Hj1 : (j / M < L)%nat)
    by (apply Nat.Div0.div_lt_upper_bound; rewrite Nat.mul_comm; exact Hj).
  assert (Hi2 : (i mod M < M)%nat) by (apply Nat.mod_upper_bound; lia).
  assert (Hj2 : (j mod M < M)%nat) by (apply Nat.mod_upper_bound; lia).
  rewrite !roll_index by assumption.
  destruct (Nat.eqb_spec (shifted L M ka kb i) j) as [E | E].
  - rewrite <- E, shifted_div, shifted_mod by lia. rewrite !Nat.eqb_refl. reflexivity.
  - destruct (Nat.eqb_spec ((i / M + ka) mod L) (j / M)) as [E1 | E1];
      destruct (Nat.eqb_spec ((i mod M + kb) mod M) (j mod M)) as [E2 | E2];
      cbn [ind]; try lia.
    exfalso. apply E. unfold shifted. rewrite E1, E2.
    pose proof (Nat.div_mod_eq j M). lia.
Qed.

Lemma bigsum_ind (x n : nat) :
  (x < n)%nat -> bigsum (fun j => ind (x =? j)%nat) n = 1.
Proof.
  intros H. rewrite <- (bigsum_point (fun _ => 1) x n H).
  apply bigsum_ext. intros i _. lia.
Qed.

(** ** The sums of monomials *)

Lemma in_range_bounds (l m : Z) (p : Z * Z) :
  Codes.in_range l m p = true ->
  (Z.to_nat (fst p) < Z.to_nat l)%nat /\ (Z.to_nat (snd p) < Z.to_nat m)%nat.
Proof.
  unfold Codes.in_range. intros H.
  apply andb_true_iff in H. destruct H as [Ha Hb].
  apply andb_true_iff in Ha. destruct Ha as [Ha1 Ha2].
  apply andb_true_iff in Hb. destruct Hb as [Hb1 Hb2].
  apply Z.leb_le in Ha1, Hb1. apply Z.ltb_lt in Ha2, Hb2. lia.
Qed.

Lemma sum_terms_tabulate (l m : Z) (powers : list (Z * Z)) :
  powers <> [] ->
  forallb (Codes.in_range l m) powers = true ->
  Codes.sum_arrays (map (Codes.term l m) powers)
  = Ret (tabulate (Z.to_nat l * Z.to_nat m) (Z.to_nat l * Z.to_nat m)
           (count_shifts l m powers)).
Proof.
  intros Hne Hall. rewrite forallb_forall in Hall.
  set (e := fun (p : Z * Z) (i j : nat) =>
              ind (shifted (Z.to_nat l) (Z.to_nat m)
                     (Z.to_nat (fst p)) (Z.to_nat (snd p)) i =? j)%nat).
  assert (Hmap : map (Codes.term l m) powers
                 = map (tabulate (Z.to_nat l * Z.to_nat m) (Z.to_nat l * Z.to_nat m))
                       (map e powers)).
  { rewrite map_map. apply map_ext_in. intros p Hp. apply term_tabulate, Hall, Hp. }
  rewrite Hmap. destruct powers as [| p0 ps]; [contradiction |].
  cbn [map Codes.sum_arrays]. rewrite sum_from_tabulate. f_equal.
  apply tabulate_ext. intros i j _ _. unfold count_shifts.
  rewrite lsum_cons, lsum_map. reflexivity.
Qed.

Lemma count_shifts_row (l m : Z) (powers : list (Z * Z)) (i : nat) :
  forallb (Codes.in_range l m) powers = true ->
  bigsum (count_shifts l m powers i) (Z.to_nat l * Z.to_nat m) = len powers.
Proof.
  intros Hall. rewrite forallb_forall in Hall. unfold count_shifts.
  rewrite bigsum_lsum.
  rewrite (lsum_ext _ (fun _ => 1)); [rewrite lsum_const; lia |].
  intros p Hp. destruct (in_range_bounds l m p (Hall p Hp)) as [H1 H2].
  apply bigsum_ind. apply shifted_lt; lia.
Qed.

Lemma count_shifts_column (l m : Z) (powers : list (Z * Z)) (j : nat) :
  forallb (Codes.in_range l m) powers = true ->
  (j < Z.to_nat l * Z.to_nat m)%nat ->
  bigsum (fun i => count_shifts l m powers i j) (Z.to_nat l * Z.to_nat m) = len powers.
Proof.
  intros Hall Hj. rewrite forallb_forall in Hall. unfold count_shifts.
  rewrite bigsum_lsum.
  rewrite (lsum_ext _ (fun _ => 1)); [rewrite lsum_const; lia |].
  intros p Hp. destruct (in_range_bounds l m p (Hall p Hp)) as [H1 H2].
  rewrite (bigsum_ext _
             (fun i => ind (shifted (Z.to_nat l) (Z.to_nat m)
                              (Z.to_nat l - Z.to_nat (fst p))
                              (Z.to_nat m - Z.to_nat (snd p)) j =? i)%nat)).
  - apply bigsum_ind. apply shifted_lt; lia.
  - intros i Hi. f_equal. apply shifted_eqb_swap; lia.
Qed.

Lemma count_shifts_nonneg (l m : Z) (powers : list (Z * Z)) (i j : nat) :
  0 <= count_shifts l m powers i j.
Proof.
  unfold count_shifts. induction powers as [| p ps IH]; [cbn; lia |].
  rewrite lsum_cons. destruct (_ =? _)%nat; cbn [ind]; lia.
Qed.

(** ** The constructor of bivariate bicycle codes *)

Lemma powers_ok_spec (l m : Z) (powers : list (Z * Z)) :
  (2 <=? len powers) && forallb (Codes.in_range l m) powers = true
  <-> powers_ok l m powers.
Proof.
  unfold powers_ok. rewrite andb_true_iff, Z.leb_le, forallb_forall, Forall_forall.
  split; intros [H1 H2]; (split; [exact H1 |]); intros p Hp; specialize (H2 p Hp).
  - unfold Codes.in_range in H2. rewrite !andb_true_iff, !Z.leb_le, !Z.ltb_lt in H2. lia.
  - unfold Codes.in_range. rewrite !andb_true_iff, !Z.leb_le, !Z.ltb_lt. lia.
Qed.

Lemma powers_ok_sizes (l m : Z) (powers : list (Z * Z)) :
  powers_ok l m powers -> powers <> [] /\ 0 < l /\ 0 < m.
Proof.
  intros [H1 H2]. destruct powers as [| p ps]; [unfold len in H1; cbn in H1; lia |].
  inversion H2 as [| ? ? Hp _]; subst. split; [discriminate | lia].
Qed.

Lemma IBM_row_sums (l m : Z) (pA pB : list (Z * Z)) :
  forallb (Codes.in_range l m) pA = true ->
  forallb (Codes.in_range l m) pB = true ->
  Codes.sum_axis1 (IBM_HX l m pA pB)
  = map (fun _ => len pA + len pB) (seq 0 (Z.to_nat l * Z.to_nat m)).
Proof.
  intros HA HB. unfold IBM_HX. cbv zeta. rewrite sum_axis1_tabulate.
  apply map_ext. intros i. rewrite bigsum_app. f_equal.
  - rewrite <- (count_shifts_row l m pA i HA). apply bigsum_ext. intros j Hj.
    replace (j <? _)%nat with true by (symmetry; apply Nat.ltb_lt; lia). reflexivity.
  - rewrite <- (count_shifts_row l m pB i HB). apply bigsum_ext. intros j Hj.
    replace (_ + j <? _)%nat with false by (symmetry; apply Nat.ltb_ge; lia).
    f_equal. lia.
Qed.

Lemma IBM_column_sums (l m : Z) (pA pB : list (Z * Z)) :
  forallb (Codes.in_range l m) pA = true ->
  forallb (Codes.in_range l m) pB = true ->
  Codes.sum_axis0 (IBM_HX l m pA pB)
  = map (fun j => if (j <? Z.to_nat l * Z.to_nat m)%nat then len pA else len pB)
        (seq 0 (Z.to_nat l * Z.to_nat m + Z.to_nat l * Z.to_nat m)).
Proof.
  intros HA HB. unfold IBM_HX. cbv zeta. rewrite sum_axis0_tabulate.
  apply map_ext_in. intros j Hj. apply in_seq in Hj.
  destruct (Nat.ltb_spec j (Z.to_nat l * Z.to_nat m)) as [Hlt | Hge].
  - apply count_shifts_column; assumption.
  - apply count_shifts_column; [assumption | lia].
Qed.

Lemma IBM_HZ_row_sums (l m : Z) (pA pB : list (Z * Z)) :
  forallb (Codes.in_range l m) pA = true ->
  forallb (Codes.in_range l m) pB = true ->
  Codes.sum_axis1 (IBM_HZ l m pA pB)
  = map (fun _ => len pB + len pA) (seq 0 (Z.to_nat l * Z.to_nat m)).
Proof.
  intros HA HB. unfold IBM_HZ. cbv zeta. rewrite sum_axis1_tabulate.
  apply map_ext_in. intros i Hi. apply in_seq in Hi. rewrite bigsum_app. f_equal.
  - rewrite <- (count_shifts_column l m pB i HB ltac:(lia)). apply bigsum_ext. intros j Hj.
    replace (j <? _)%nat with true by (symmetry; apply Nat.ltb_lt; lia). reflexivity.
  - rewrite <- (count_shifts_column l m pA i HA ltac:(lia)). apply bigsum_ext. intros j Hj.
    replace (_ + j <? _)%nat with false by (symmetry; apply Nat.ltb_ge; lia).
    f_equal. lia.
Qed.

(** The constructor, once its first four assertions hold. *)
Lemma IBM_eval (l m : Z) (pA pB : list (Z * Z)) :
  powers_ok l m pA -> powers_ok l m pB ->
  Codes.IBM_parity_checks l m pA pB
  = if len pB =? len pA then Ret (IBM_HX l m pA pB, IBM_HZ l m pA pB)
    else Raise AssertionError.
Proof.
  intros HA HB.
  destruct (powers_ok_sizes l m pA HA) as (NA & Hl & Hm).
  destruct (powers_ok_sizes l m pB HB) as (NB & _ & _).
  apply powers_ok_spec in HA, HB. apply andb_true_iff in HA, HB.
  destruct HA as [HA1 HA2]. destruct HB as [HB1 HB2].
  unfold Codes.IBM_parity_checks. rewrite HA1, HA2, HB1, HB2. cbn [py_assert obind].
  rewrite !sum_terms_tabulate by assumption. cbn [obind].
  rewrite hstack_tabulate. cbn [obind].
  rewrite !transpose_tabulate, hstack_tabulate. cbn [obind].
  fold (IBM_HX l m pA pB). 
  change (tabulate (Z.to_nat l * Z.to_nat m) (Z.to_nat l * Z.to_nat m + Z.to_nat l * Z.to_nat m)
            (fun i j => if (j <? Z.to_nat l * Z.to_nat m)%nat
                        then count_shifts l m pB j i
                        else count_shifts l m pA (j - Z.to_nat l * Z.to_nat m)%nat i))
    with (IBM_HZ l m pA pB).
  set (n := (Z.to_nat l * Z.to_nat m)%nat).
  assert (Hn : Z.of_nat n = l * m) by (unfold n; lia).
  assert (Hshape : (Z.of_nat (nrows (IBM_HX l m pA pB)) =? l * m)
                   && (Z.of_nat (ncols (IBM_HX l m pA pB)) =? l * m * 2) = true).
  { unfold IBM_HX. cbv zeta. rewrite nrows_tabulate. cbn [ncols tabulate]. fold n.
    apply andb_true_iff. split; apply Z.eqb_eq; lia. }
  rewrite Hshape. cbn [py_assert obind].
  rewrite IBM_row_sums, IBM_column_sums by assumption. fold n.
  replace (Z.to_nat (l * m)) with n by lia.
  replace (Z.to_nat (l * m * 2)) with (n + n)%nat by lia.
  destruct (Z.eqb_spec (len pB) (len pA)) as [E | E].
  - replace (Codes.all_equal_list _ (repeat (len pA * 2) n)) with true.
    2:{ symmetry. apply all_equal_repeat. intros i _. lia. }
    cbn [py_assert obind].
    replace (Codes.all_equal_list _ (repeat (len pA) (n + n))) with true.
    2:{ symmetry. apply all_equal_repeat. intros j _. destruct (j <? n)%nat; lia. }
    reflexivity.
  - replace (Codes.all_equal_list _ (repeat (len pA * 2) n)) with false; [reflexivity |].
    symmetry. apply not_true_iff_false. intros H.
    rewrite all_equal_repeat in H. specialize (H 0%nat). 
    assert (0 < n)%nat by (unfold n; nia). lia.
Qed.

(** Any other arguments fail one of the first four assertions. *)
Lemma IBM_rejects (l m : Z) (pA pB : list (Z * Z)) :
  ~ (powers_ok l m pA /\ powers_ok l m pB) ->
  Codes.IBM_parity_checks l m pA pB = Raise AssertionError.
Proof.
  intros H. unfold Codes.IBM_parity_checks.
  destruct (2 <=? len pA) eqn:E1; cbn [py_assert obind]; [| reflexivity].
  destruct (forallb (Codes.in_range l m) pA) eqn:E2; cbn [py_assert obind]; [| reflexivity].
  destruct (2 <=? len pB) eqn:E3; cbn [py_assert obind]; [| reflexivity].
  destruct (forallb (Codes.in_range l m) pB) eqn:E4; cbn [py_assert obind]; [| reflexivity].
  exfalso. apply H. split; apply powers_ok_spec; apply andb_true_iff; auto.
Qed.

Lemma count_compose (l m : Z) (ps qs : list (Z * Z)) (i k : nat) :
  forallb (Codes.in_range l m) ps = true ->
  bigsum (fun j => count_shifts l m ps i j * count_shifts l m qs j k)
         (Z.to_nat l * Z.to_nat m)
  = lsum (fun p =>
            lsum (fun q =>
                    ind (shifted (Z.to_nat l) (Z.to_nat m)
                           (Z.to_nat (fst q)) (Z.to_nat (snd q))
                           (shifted (Z.to_nat l) (Z.to_nat m)
                              (Z.to_nat (fst p)) (Z.to_nat (snd p)) i) =? k)%nat) qs) ps.
Proof.
  intros Hall. rewrite forallb_forall in Hall.
  unfold count_shifts at 1.
  rewrite (bigsum_ext _
             (fun j => lsum (fun p =>
                               ind (shifted (Z.to_nat l) (Z.to_nat m)
                                      (Z.to_nat (fst p)) (Z.to_nat (snd p)) i =? j)%nat
                               * count_shifts l m qs j k) ps))
    by (intros j _; apply lsum_mul_r).
  rewrite bigsum_lsum. apply lsum_ext. intros p Hp.
  destruct (in_range_bounds l m p (Hall p Hp)) as [H1 H2].
  rewrite bigsum_point by (apply shifted_lt; lia). reflexivity.
Qed.

Lemma IBM_commuting (l m : Z) (pA pB : list (Z * Z)) :
  0 < m ->
  forallb (Codes.in_range l m) pA = true ->
  forallb (Codes.in_range l m) pB = true ->
  commuting (IBM_HX l m pA pB) (IBM_HZ l m pA pB).
Proof.
  intros Hm HA HB r r' Hr Hr'.
  unfold IBM_HX in Hr. unfold IBM_HZ in Hr'. cbv zeta in Hr, Hr'.
  apply in_rows_tabulate in Hr, Hr'.
  destruct Hr as (i & Hi & ->). destruct Hr' as (k & Hk & ->).
  set (n := (Z.to_nat l * Z.to_nat m)%nat) in *.
  rewrite dot_map_seq, bigsum_app.
  rewrite (bigsum_ext _ (fun j => count_shifts l m pA i j * count_shifts l m pB j k)).
  2:{ intros j Hj.
      replace (j <? n)%nat with true by (symmetry; apply Nat.ltb_lt; lia). reflexivity. }
  rewrite (bigsum_ext (fun j => (if (n + j <? n)%nat then _ else _) * _)
             (fun j => count_shifts l m pB i j * count_shifts l m pA j k)).
  2:{ intros j Hj.
      replace (n + j <? n)%nat with false by (symmetry; apply Nat.ltb_ge; lia).
      replace (n + j - n)%nat with j by lia. reflexivity. }
  unfold n. rewrite !count_compose by assumption.
  rewrite (lsum_swap _ pB pA).
  match goal with |- (?s1 + ?s2) mod 2 = 0 => assert (E : s2 = s1) end.
  { apply lsum_ext. intros p _. apply lsum_ext. intros q _.
    rewrite shifted_comm by lia. reflexivity. }
  rewrite E.
  match goal with |- (?s + ?s) mod 2 = 0 =>
    replace (s + s) with (s * 2) by lia; apply Z.mod_mul; lia end.
Qed.

Lemma entry_tabulate (r c : nat) (f : nat -> nat -> Z) (i j : nat) :
  (i < r)%nat -> (j < c)%nat -> entry (tabulate r c f) i j = f i j.
Proof.
  intros Hi Hj. unfold entry, tabulate. cbn [rows].
  rewrite (nth_map_seq _ r i []) by exact Hi. apply nth_map_seq. exact Hj.
Qed.

Lemma binary_tabulate (r c : nat) (f : nat -> nat -> Z) :
  binary (tabulate r c f)
  <-> forall i j, (i < r)%nat -> (j < c)%nat -> f i j = 0 \/ f i j = 1.
Proof.
  unfold binary. split.
  - intros H i j Hi Hj. apply (H (map (f i) (seq 0 c))).
    + apply in_rows_tabulate. exists i. auto.
    + apply in_map. apply in_seq. lia.
  - intros H x v Hx Hv. apply in_rows_tabulate in Hx. destruct Hx as (i & Hi & ->).
    apply in_map_iff in Hv. destruct Hv as (j & <- & Hj). apply in_seq in Hj.
    apply H; lia.
Qed.

Lemma map_const_seq {X : Type} (c : X) (n : nat) : forall s, map (fun _ => c) (seq s n) = repeat c n.
Proof.
  induction n as [| n IH]; intros s; [reflexivity |]. cbn [seq map repeat]. rewrite IH. reflexivity.
Qed.

Lemma count_shifts_zero (l m : Z) (ps : list (Z * Z)) (i j : nat) :
  (forall q, In q ps ->
     shifted (Z.to_nat l) (Z.to_nat m) (Z.to_nat (fst q)) (Z.to_nat (snd q)) i <> j) ->
  count_shifts l m ps i j = 0.
Proof.
  unfold count_shifts. induction ps as [| p ps IH]; intros H; [reflexivity |].
  rewrite lsum_cons, IH by (intros q Hq; apply H; right; exact Hq).
  replace (_ =? j)%nat with false; [reflexivity |].
  symmetry. apply Nat.eqb_neq. apply H. left. reflexivity.
Qed.

Lemma count_shifts_hit (l m : Z) (ps : list (Z * Z)) (p : Z * Z) (i : nat) :
  In p ps ->
  1 <= count_shifts l m ps i
         (shifted (Z.to_nat l) (Z.to_nat m) (Z.to_nat (fst p)) (Z.to_nat (snd p)) i).
Proof.
  induction ps as [| q ps IH]; intros Hin; [contradiction |].
  change (count_shifts l m (q :: ps) i ?j)
    with (ind (shifted (Z.to_nat l) (Z.to_nat m)
                 (Z.to_nat (fst q)) (Z.to_nat (snd q)) i =? j)%nat
          + count_shifts l m ps i j).
  destruct Hin as [-> | Hin].
  - rewrite Nat.eqb_refl. cbn [ind].
    pose proof (count_shifts_nonneg l m ps i
                  (shifted (Z.to_nat l) (Z.to_nat m)
                     (Z.to_nat (fst p)) (Z.to_nat (snd p)) i)).
    lia.
  - specialize (IH Hin). destruct (_ =? _)%nat; cbn [ind]; lia.
Qed.

Lemma count_shifts_distinct (l m : Z) (ps : list (Z * Z)) (i j : nat) :
  0 < m ->
  forallb (Codes.in_range l m) ps = true -> NoDup ps ->
  count_shifts l m ps i j = 0 \/ count_shifts l m ps i j = 1.
Proof.
  intros Hm Hall Hnd. induction Hnd as [| p ps Hnotin Hnd IH]; [left; reflexivity |].
  cbn [forallb] in Hall. apply andb_true_iff in Hall. destruct Hall as [Hp Hps].
  change (count_shifts l m (p :: ps) i j)
    with (ind (shifted (Z.to_nat l) (Z.to_nat m)
                 (Z.to_nat (fst p)) (Z.to_nat (snd p)) i =? j)%nat
          + count_shifts l m ps i j).
  destruct (Nat.eqb_spec
              (shifted (Z.to_nat l) (Z.to_nat m) (Z.to_nat (fst p)) (Z.to_nat (snd p)) i) j)
    as [E | E]; cbn [ind].
  - right. rewrite count_shifts_zero; [reflexivity |].
    intros q Hq Eq. apply Hnotin.
    pose proof (proj1 (forallb_forall _ _) Hps q Hq) as Hq'.
    destruct (in_range_bounds l m p Hp) as [B1 B2].
    destruct (in_range_bounds l m q Hq') as [B3 B4].
    destruct (shifted_inj_shift (Z.to_nat l) (Z.to_nat m)
                (Z.to_nat (fst p)) (Z.to_nat (snd p))
                (Z.to_nat (fst q)) (Z.to_nat (snd q)) i
                ltac:(lia) ltac:(lia) ltac:(lia) ltac:(lia) ltac:(lia)
                ltac:(congruence)) as [E1 E2].
    unfold Codes.in_range in Hp, Hq'.
    rewrite !andb_true_iff, !Z.leb_le, !Z.ltb_lt in Hp, Hq'.
    destruct p as [a b], q as [a' b']. cbn [fst snd] in *.
    assert (a' = a) by lia. assert (b' = b) by lia. subst a' b'. exact Hq.
  - destruct (IH Hps) as [-> | ->]; [left | right]; reflexivity.
Qed.

Lemma count_shifts_NoDup (l m : Z) (ps : list (Z * Z)) (i : nat) :
  (forall j, count_shifts l m ps i j <= 1) -> NoDup ps.
Proof.
  induction ps as [| p ps IH]; intros H; [constructor |].
  assert (Hstep : forall j,
            count_shifts l m (p :: ps) i j
            = ind (shifted (Z.to_nat l) (Z.to_nat m)
                     (Z.to_nat (fst p)) (Z.to_nat (snd p)) i =? j)%nat
              + count_shifts l m ps i j) by reflexivity.
  constructor.
  - intros Hin. pose proof (count_shifts_hit l m ps p i Hin) as H1.
    specialize (H (shifted (Z.to_nat l) (Z.to_nat m)
                     (Z.to_nat (fst p)) (Z.to_nat (snd p)) i)).
    rewrite Hstep, Nat.eqb_refl in H. cbn [ind] in H. lia.
  - apply IH. intros j. specialize (H j). rewrite Hstep in H.
    destruct (_ =? _)%nat; cbn [ind] in H; lia.
Qed.

Lemma IBM_binary_iff (l m : Z) (pA pB : list (Z * Z)) :
  0 < l -> 0 < m ->
  forallb (Codes.in_range l m) pA = true ->
  forallb (Codes.in_range l m) pB = true ->
  (binary (IBM_HX l m pA pB) /\ binary (IBM_HZ l m pA pB) <-> NoDup pA /\ NoDup pB).
Proof.
  intros Hl Hm HA HB. unfold IBM_HX, IBM_HZ. cbv zeta. rewrite !binary_tabulate.
  set (n := (Z.to_nat l * Z.to_nat m)%nat).
  assert (Hn : (0 < n)%nat) by (unfold n; nia).
  split.
  - intros [HX _]. split.
    + apply (count_shifts_NoDup l m pA 0). intros j.
      destruct (Nat.ltb_spec j n) as [Hj | Hj].
      * specialize (HX 0%nat j Hn ltac:(lia)).
        replace (j <? n)%nat with true in HX by (symmetry; apply Nat.ltb_lt; lia). lia.
      * rewrite count_shifts_zero; [lia |]. intros q Hq E.
        rewrite forallb_forall in HA.
        destruct (in_range_bounds l m q (HA q Hq)) as [B1 B2].
        pose proof (shifted_lt (Z.to_nat l) (Z.to_nat m)
                      (Z.to_nat (fst q)) (Z.to_nat (snd q)) 0 ltac:(lia) ltac:(lia)).
        fold n in H. lia.
    + apply (count_shifts_NoDup l m pB 0). intros j.
      destruct (Nat.ltb_spec j n) as [Hj | Hj].
      * specialize (HX 0%nat (n + j)%nat Hn ltac:(lia)).
        replace (n + j <? n)%nat with false in HX by (symmetry; apply Nat.ltb_ge; lia).
        replace (n + j - n)%nat with j in HX by lia. lia.
      * rewrite count_shifts_zero; [lia |]. intros q Hq E.
        rewrite forallb_forall in HB.
        destruct (in_range_bounds l m q (HB q Hq)) as [B1 B2].
        pose proof (shifted_lt (Z.to_nat l) (Z.to_nat m)
                      (Z.to_nat (fst q)) (Z.to_nat (snd q)) 0 ltac:(lia) ltac:(lia)).
        fold n in H. lia.
  - intros [NA NB]. split; intros i j _ _; destruct (j <? n)%nat;
      apply count_shifts_distinct; assumption.
Qed.

(** What a returned pair is. *)
Lemma IBM_inv (l m : Z) (pA pB : list (Z * Z)) (HX HZ : ndarray) :
  Codes.IBM_parity_checks l m pA pB = Ret (HX, HZ) ->
  powers_ok l m pA /\ powers_ok l m pB /\ len pB = len pA /\
  HX = IBM_HX l m pA pB /\ HZ = IBM_HZ l m pA pB.
Proof.
  intros H.
  destruct ((2 <=? len pA) && forallb (Codes.in_range l m) pA) eqn:EA.
  - destruct ((2 <=? len pB) && forallb (Codes.in_range l m) pB) eqn:EB.
    + apply powers_ok_spec in EA, EB. rewrite (IBM_eval l m pA pB EA EB) in H.
      destruct (Z.eqb_spec (len pB) (len pA)) as [E | E]; [| discriminate].
      injection H as <- <-. auto.
    + rewrite IBM_rejects in H; [discriminate |].
      intros [_ HB]. apply powers_ok_spec in HB. congruence.
  - rewrite IBM_rejects in H; [discriminate |].
    intros [HA _]. apply powers_ok_spec in HA. congruence.
Qed.

Lemma powers_ok_forallb (l m : Z) (ps : list (Z * Z)) :
  powers_ok l m ps -> forallb (Codes.in_range l m) ps = true.
Proof. intros H. apply powers_ok_spec in H. apply andb_true_iff in H. tauto. Qed.

(** X15: [IBM_parity_checks(l,m,powersA,powersB)] returns exactly when each
    list has at least two pairs, every pair [a,b] has 0 <= a < l and
    0 <= b < m, and the two lists have the same length (this is what the
    assertions on the row and column sums of HX come to); on all other
    arguments it raises AssertionError, never an error of numpy. *)
Theorem IBM_returns_iff (l m : Z) (powersA powersB : list (Z * Z)) :
  ((exists r, Codes.IBM_parity_checks l m powersA powersB = Ret r) <->
   powers_ok l m powersA /\ powers_ok l m powersB /\ len powersB = len powersA) /\
  ((forall r, Codes.IBM_parity_checks l m powersA powersB <> Ret r) ->
   Codes.IBM_parity_checks l m powersA powersB = Raise AssertionError).
Proof.
  split; [split |].
  - intros [[HX HZ] H]. apply IBM_inv in H. tauto.
  - intros (HA & HB & E). rewrite (IBM_eval l m powersA powersB HA HB).
    apply Z.eqb_eq in E. rewrite E. eauto.
  - intros H.
    destruct ((2 <=? len powersA) && forallb (Codes.in_range l m) powersA) eqn:EA.
    + destruct ((2 <=? len powersB) && forallb (Codes.in_range l m) powersB) eqn:EB.
      * apply powers_ok_spec in EA, EB. rewrite (IBM_eval l m powersA powersB EA EB) in *.
        destruct (len powersB =? len powersA); [| reflexivity].
        exfalso. apply (H _ eq_refl).
      * apply IBM_rejects. intros [_ HB]. apply powers_ok_spec in HB. congruence.
    + apply IBM_rejects. intros [HA _]. apply powers_ok_spec in HA. congruence.
Qed.

Lemma IBM_returns_iff_witness :
  Codes.IBM_parity_checks 2 3 [(0, 0); (1, 2); (1, 1)] [(0, 1); (1, 1)]
  = Raise AssertionError /\
  exists r, Codes.IBM_parity_checks 2 3 [(0, 0); (1, 2)] [(0, 1); (1, 1)] = Ret r.
Proof.
  split.
  - apply (proj2 (IBM_returns_iff 2 3 [(0, 0); (1, 2); (1, 1)] [(0, 1); (1, 1)])).
    intros r Hr.
    destruct (proj1 (proj1 (IBM_returns_iff 2 3 [(0, 0); (1, 2); (1, 1)] [(0, 1); (1, 1)]))
                (ex_intro _ r Hr)) as (_ & _ & E).
    vm_compute in E. discriminate.
  - apply (proj2 (proj1 (IBM_returns_iff 2 3 [(0, 0); (1, 2)] [(0, 1); (1, 1)]))).
    repeat split; try (unfold len; cbn; lia);
      repeat constructor; cbn [fst snd]; lia.
Defined.

(** X16: the matrices [IBM_parity_checks] returns, entry by entry.  With
    n = l*m both are n x 2n; HX = [A|B] and HZ = [B^T|A^T], where entry (i,j)
    of A (of B) is the number of pairs [a,b] of powersA (of powersB) whose
    monomial x^a y^b sends index i of the l x m torus to index j.  Every row
    of HZ sums to twice the number of pairs, like the rows of HX on which
    the code asserts it. *)
Theorem IBM_entries (l m : Z) (powersA powersB : list (Z * Z)) (HX HZ : ndarray) :
  Codes.IBM_parity_checks l m powersA powersB = Ret (HX, HZ) ->
  nrows HX = Z.to_nat (l * m) /\ ncols HX = Z.to_nat (l * m * 2) /\
  nrows HZ = Z.to_nat (l * m) /\ ncols HZ = Z.to_nat (l * m * 2) /\
  rectangular HX /\ rectangular HZ /\
  (forall i j, (i < Z.to_nat (l * m))%nat -> (j < Z.to_nat (l * m))%nat ->
     entry HX i j = count_shifts l m powersA i j /\
     entry HX i (Z.to_nat (l * m) + j) = count_shifts l m powersB i j /\
     entry HZ i j = count_shifts l m powersB j i /\
     entry HZ i (Z.to_nat (l * m) + j) = count_shifts l m powersA j i) /\
  Codes.sum_axis1 HX = repeat (2 * len powersA) (Z.to_nat (l * m)) /\
  Codes.sum_axis1 HZ = repeat (2 * len powersA) (Z.to_nat (l * m)).
Proof.
  intros H. apply IBM_inv in H. destruct H as (HA & HB & E & -> & ->).
  destruct (powers_ok_sizes l m powersA HA) as (_ & Hl & Hm).
  pose proof (powers_ok_forallb l m powersA HA) as FA.
  pose proof (powers_ok_forallb l m powersB HB) as FB.
  rewrite IBM_row_sums, IBM_HZ_row_sums by assumption.
  unfold IBM_HX, IBM_HZ. cbv zeta.
  replace (Z.to_nat (l * m * 2)) with (Z.to_nat (l * m) + Z.to_nat (l * m))%nat by lia.
  replace (Z.to_nat l * Z.to_nat m)%nat with (Z.to_nat (l * m)) by lia.
  set (n := Z.to_nat (l * m)).
  rewrite !nrows_tabulate. cbn [ncols tabulate].
  repeat split; try apply rectangular_tabulate.
  - rewrite entry_tabulate by lia.
    replace (j <? n)%nat with true by (symmetry; apply Nat.ltb_lt; lia). reflexivity.
  - rewrite entry_tabulate by lia.
    replace (n + j <? n)%nat with false by (symmetry; apply Nat.ltb_ge; lia).
    f_equal. lia.
  - rewrite entry_tabulate by lia.
    replace (j <? n)%nat with true by (symmetry; apply Nat.ltb_lt; lia). reflexivity.
  - rewrite entry_tabulate by lia.
    replace (n + j <? n)%nat with false by (symmetry; apply Nat.ltb_ge; lia).
    f_equal. lia.
  - rewrite map_const_seq. f_equal. lia.
  - rewrite map_const_seq. f_equal. lia.
Qed.

Lemma IBM_entries_witness :
  Codes.IBM_parity_checks 2 3 [(0, 0); (1, 2)] [(0, 1); (1, 1)]
  = Ret (IBM_HX 2 3 [(0, 0); (1, 2)] [(0, 1); (1, 1)],
         IBM_HZ 2 3 [(0, 0); (1, 2)] [(0, 1); (1, 1)]) /\
  nrows (IBM_HX 2 3 [(0, 0); (1, 2)] [(0, 1); (1, 1)]) = Z.to_nat (2 * 3) /\
  ncols (IBM_HX 2 3 [(0, 0); (1, 2)] [(0, 1); (1, 1)]) = Z.to_nat (2 * 3 * 2).
Proof.
  assert (E : Codes.IBM_parity_checks 2 3 [(0, 0); (1, 2)] [(0, 1); (1, 1)]
              = Ret (IBM_HX 2 3 [(0, 0); (1, 2)] [(0, 1); (1, 1)],
                     IBM_HZ 2 3 [(0, 0); (1, 2)] [(0, 1); (1, 1)]))
    by (vm_compute; reflexivity).
  split; [exact E |].
  destruct (IBM_entries _ _ _ _ _ _ E) as (H1 & H2 & _). split; assumption.
Defined.

(** X17: the two matrices [IBM_parity_checks] returns commute,
    HX.HZ^T = 0 (mod 2), whatever the monomials: they have the same number
    of columns and pass the commutation assertion of [sat_distance], in
    either order. *)
Theorem IBM_checks_commute (l m : Z) (powersA powersB : list (Z * Z)) (HX HZ : ndarray) :
  Codes.IBM_parity_checks l m powersA powersB = Ret (HX, HZ) ->
  ncols HX = ncols HZ /\ commuting HX HZ /\ commuting HZ HX.
Proof.
  intros H. apply IBM_inv in H. destruct H as (HA & HB & E & -> & ->).
  destruct (powers_ok_sizes l m powersA HA) as (_ & Hl & Hm).
  pose proof (IBM_commuting l m powersA powersB Hm
                (powers_ok_forallb l m powersA HA) (powers_ok_forallb l m powersB HB)) as Hc.
  split; [reflexivity |]. split; [exact Hc | apply commuting_sym; exact Hc].
Qed.

Lemma IBM_checks_commute_witness :
  Codes.IBM_parity_checks 2 3 [(0, 0); (1, 2)] [(0, 1); (1, 1)]
  = Ret (IBM_HX 2 3 [(0, 0); (1, 2)] [(0, 1); (1, 1)],
         IBM_HZ 2 3 [(0, 0); (1, 2)] [(0, 1); (1, 1)]) /\
  commuting (IBM_HX 2 3 [(0, 0); (1, 2)] [(0, 1); (1, 1)])
            (IBM_HZ 2 3 [(0, 0); (1, 2)] [(0, 1); (1, 1)]).
Proof.
  assert (E : Codes.IBM_parity_checks 2 3 [(0, 0); (1, 2)] [(0, 1); (1, 1)]
              = Ret (IBM_HX 2 3 [(0, 0); (1, 2)] [(0, 1); (1, 1)],
                     IBM_HZ 2 3 [(0, 0); (1, 2)] [(0, 1); (1, 1)]))
    by (vm_compute; reflexivity).
  split; [exact E |].
  destruct (IBM_checks_commute _ _ _ _ _ _ E) as (_ & H & _). exact H.
Defined.



(** X19: [Toric_parity_checks(N)] raises AssertionError for N < 2 (its
    second monomial is out of range) and returns for every N >= 2; the pair
    it returns has N^2 rows and 2N^2 columns, every row of weight 4, and
    passes all the input assertions of [sat_distance]. *)
Theorem Toric_checks_valid (N : Z) :
  (N < 2 -> Codes.Toric_parity_checks N = Raise AssertionError) /\
  (2 <= N ->
   exists HX HZ,
     Codes.Toric_parity_checks N = Ret (HX, HZ) /\
     nrows HX = Z.to_nat (N * N) /\ ncols HX = Z.to_nat (N * N * 2) /\
     nrows HZ = Z.to_nat (N * N) /\ ncols HZ = Z.to_nat (N * N * 2) /\
     Codes.sum_axis1 HX = repeat 4 (Z.to_nat (N * N)) /\
     Codes.sum_axis1 HZ = repeat 4 (Z.to_nat (N * N)) /\
     validate HX HZ = Ret (ncols HX)).
Proof.
  unfold Codes.Toric_parity_checks. split.
  - intros HN. apply IBM_rejects. intros [[_ HA] _].
    inversion HA as [| ? ? _ HA']; subst. inversion HA' as [| ? ? H1 _]; subst.
    cbn [fst snd] in H1. lia.
  - intros HN.
    assert (HA : powers_ok N N [(0, 0); (1, 0)]).
    { split; [unfold len; cbn; lia |]. repeat constructor; cbn [fst snd]; lia. }
    assert (HB : powers_ok N N [(0, 0); (0, 1)]).
    { split; [unfold len; cbn; lia |]. repeat constructor; cbn [fst snd]; lia. }
    pose proof (powers_ok_forallb N N _ HA) as FA.
    pose proof (powers_ok_forallb N N _ HB) as FB.
    exists (IBM_HX N N [(0, 0); (1, 0)] [(0, 0); (0, 1)]),
           (IBM_HZ N N [(0, 0); (1, 0)] [(0, 0); (0, 1)]).
    split; [rewrite (IBM_eval N N _ _ HA HB); reflexivity |].
    rewrite IBM_row_sums, IBM_HZ_row_sums, !map_const_seq by assumption.
    replace (Z.to_nat N * Z.to_nat N)%nat with (Z.to_nat (N * N)) by lia.
    split; [unfold IBM_HX; cbv zeta; rewrite nrows_tabulate; lia |].
    split; [unfold IBM_HX; cbv zeta; cbn [ncols tabulate]; lia |].
    split; [unfold IBM_HZ; cbv zeta; rewrite nrows_tabulate; lia |].
    split; [unfold IBM_HZ; cbv zeta; cbn [ncols tabulate]; lia |].
    split; [reflexivity |]. split; [reflexivity |].
    apply validate_spec; [apply rectangular_tabulate |].
    assert (NA : NoDup [(0, 0); (1, 0)]).
    { constructor; [intros [E | []]; discriminate | constructor; [intros [] | constructor]]. }
    assert (NB : NoDup [(0, 0); (0, 1)]).
    { constructor; [intros [E | []]; discriminate | constructor; [intros [] | constructor]]. }
    destruct (proj2 (IBM_binary_iff N N _ _ ltac:(lia) ltac:(lia) FA FB) (conj NA NB))
      as [B1 B2].
    repeat split; try assumption.
    apply IBM_commuting; [lia | assumption | assumption].
Qed.

Lemma Toric_checks_valid_witness :
  exists HX HZ,
    Codes.Toric_parity_checks 3 = Ret (HX, HZ) /\
    nrows HX = Z.to_nat (3 * 3) /\ ncols HX = Z.to_nat (3 * 3 * 2) /\
    nrows HZ = Z.to_nat (3 * 3) /\ ncols HZ = Z.to_nat (3 * 3 * 2) /\
    Codes.sum_axis1 HX = repeat 4 (Z.to_nat (3 * 3)) /\
    Codes.sum_axis1 HZ = repeat 4 (Z.to_nat (3 * 3)) /\
    validate HX HZ = Ret (ncols HX).
Proof. apply (proj2 (Toric_checks_valid 3)). lia. Defined.

(** ** The notebook's evaluation of clauses *)

Lemma map_outcome_Ret {A B : Type} (f : A -> outcome B) (g : A -> B) (l : list A) :
  (forall x, In x l -> f x = Ret (g x)) -> map_outcome f l = Ret (map g l).
Proof.
  induction l as [| x l IH]; intros H; [reflexivity |].
  cbn [map_outcome map]. rewrite (H x) by (left; reflexivity). cbn [obind].
  rewrite IH by (intros y Hy; apply H; right; exact Hy). reflexivity.
Qed.

Lemma map_outcome_Raise {A B : Type} (f : A -> outcome B) (e : exn) (l : list A) :
  (forall x, In x l -> (exists y, f x = Ret y) \/ f x = Raise e) ->
  Exists (fun x => f x = Raise e) l ->
  map_outcome f l = Raise e.
Proof.
  induction l as [| x l IH]; intros H Hex; [inversion Hex |].
  cbn [map_outcome].
  destruct (H x (or_introl eq_refl)) as [[y Hy] | Hx]; [| rewrite Hx; reflexivity].
  rewrite Hy. cbn [obind].
  rewrite IH; [reflexivity | intros z Hz; apply H; right; exact Hz |].
  inversion Hex as [? ? Hx | ? ? Hl]; subst; [congruence | exact Hl].
Qed.

Lemma harness_index (str : list bool) (i : Z) :
  0 <= i ->
  Harness.index str i
  = if i <? len str then Ret (nth (Z.to_nat i) str false) else Raise IndexError.
Proof.
  intros Hi. unfold Harness.index, len.
  destruct (Z.ltb_spec i (Z.of_nat (List.length str))) as [Hlt | Hge].
  - rewrite (nth_error_nth' str false) by lia. reflexivity.
  - replace (nth_error str (Z.to_nat i)) with (@None bool); [reflexivity |].
    symmetry. apply nth_error_None. lia.
Qed.

Lemma harness_test_condition (l : Z) (str : list bool) :
  Harness.test_condition l str
  = if Z.abs l <=? len str then Ret (test_condition (bits_assignment str) l)
    else Raise IndexError.
Proof.
  unfold Harness.test_condition, test_condition, bits_assignment.
  destruct (Z.ltb_spec 0 l) as [Hpos | Hnpos].
  - rewrite harness_index by lia.
    destruct (Z.ltb_spec (l - 1) (len str)); destruct (Z.leb_spec (Z.abs l) (len str));
      try lia; reflexivity.
  - destruct (Z.eqb_spec l 0) as [-> | Hne].
    + replace (Z.abs 0 <=? len str) with true; [reflexivity |].
      symmetry. apply Z.leb_le. unfold len. cbn. lia.
    + rewrite harness_index by lia.
      destruct (Z.ltb_spec (- l - 1) (len str)); destruct (Z.leb_spec (Z.abs l) (len str));
        try lia; reflexivity.
Qed.

Lemma existsb_id_map {A : Type} (g : A -> bool) (l : list A) :
  existsb (fun b => b) (map g l) = existsb g l.
Proof. induction l as [| x l IH]; [reflexivity |]. cbn. rewrite IH. reflexivity. Qed.

Lemma forallb_id_map {A : Type} (g : A -> bool) (l : list A) :
  forallb (fun b => b) (map g l) = forallb g l.
Proof. induction l as [| x l IH]; [reflexivity |]. cbn. rewrite IH. reflexivity. Qed.

Lemma harness_or_in_range (c : clause) (str : list bool) :
  Forall (fun l => Z.abs l <= len str) c ->
  Harness.bit_string_or c str = Ret (bit_string_or (bits_assignment str) c).
Proof.
  intros H. rewrite Forall_forall in H. unfold Harness.bit_string_or.
  rewrite (map_outcome_Ret _ (test_condition (bits_assignment str))).
  - cbn [obind]. rewrite existsb_id_map. reflexivity.
  - intros l Hl. rewrite harness_test_condition.
    replace (Z.abs l <=? len str) with true; [reflexivity |].
    symmetry. apply Z.leb_le. apply H. exact Hl.
Qed.

Lemma harness_or_out_of_range (c : clause) (str : list bool) :
  Exists (fun l => len str < Z.abs l) c ->
  Harness.bit_string_or c str = Raise IndexError.
Proof.
  intros H. unfold Harness.bit_string_or.
  rewrite (map_outcome_Raise _ IndexError); [reflexivity | |].
  - intros l _. rewrite harness_test_condition.
    destruct (Z.abs l <=? len str); eauto.
  - apply Exists_exists in H. destruct H as (l & Hl & Hbig).
    apply Exists_exists. exists l. split; [exact Hl |].
    rewrite harness_test_condition.
    replace (Z.abs l <=? len str) with false; [reflexivity |].
    symmetry. apply Z.leb_gt. exact Hbig.
Qed.

Lemma harness_or_outcome (c : clause) (str : list bool) :
  (exists y, Harness.bit_string_or c str = Ret y)
  \/ Harness.bit_string_or c str = Raise IndexError.
Proof.
  destruct (Forall_Exists_dec (fun l => Z.abs l <= len str)
              (fun l => Z_le_dec (Z.abs l) (len str)) c) as [H | H].
  - left. rewrite harness_or_in_range by exact H. eauto.
  - right. apply harness_or_out_of_range.
    apply Exists_exists in H. destruct H as (l & Hl & Hbig).
    apply Exists_exists. exists l. split; [exact Hl | lia].
Qed.

(** X20: the notebook's [bit_string_satisfies(constraints,str)] on a bit
    list.  When every literal names a variable within the list
    (|l| <= len(str)) it returns the value of the clause set under the
    assignment that reads variable v at str[v-1], the literal 0 counting as
    true; when some literal lies beyond the list it raises IndexError, even
    if other literals already decide the value, since every literal is
    evaluated before [any] and [all] are applied. *)
Theorem harness_evaluates_assignment (constraints : list clause) (str : list bool) :
  (Forall (Forall (fun l => Z.abs l <= len str)) constraints ->
   Harness.bit_string_satisfies constraints str
   = Ret (bit_string_satisfies (bits_assignment str) constraints)) /\
  (Exists (Exists (fun l => len str < Z.abs l)) constraints ->
   Harness.bit_string_satisfies constraints str = Raise IndexError).
Proof.
  split.
  - intros H. rewrite Forall_forall in H. unfold Harness.bit_string_satisfies.
    rewrite (map_outcome_Ret _ (bit_string_or (bits_assignment str))).
    + cbn [obind]. rewrite forallb_id_map. reflexivity.
    + intros c Hc. apply harness_or_in_range. apply H. exact Hc.
  - intros H. unfold Harness.bit_string_satisfies.
    rewrite (map_outcome_Raise _ IndexError); [reflexivity | |].
    + intros c _. apply harness_or_outcome.
    + apply Exists_exists in H. destruct H as (c & Hc & Hbig).
      apply Exists_exists. exists c. split; [exact Hc |].
      apply harness_or_out_of_range. exact Hbig.
Qed.

Lemma harness_evaluates_assignment_witness :
  Harness.bit_string_satisfies [[-3; -1; -2]; [-3; 1; 2]; [3; 1; -2]; [3; -1; 2]]
    [false; true; true]
  = Ret (bit_string_satisfies (bits_assignment [false; true; true])
           [[-3; -1; -2]; [-3; 1; 2]; [3; 1; -2]; [3; -1; 2]]) /\
  Harness.bit_string_satisfies [[1; 4]] [true; true; true] = Raise IndexError.
Proof.
  split.
  - apply (proj1 (harness_evaluates_assignment _ _)).
    repeat constructor; vm_compute; discriminate.
  - apply (proj2 (harness_evaluates_assignment _ _)).
    constructor. apply Exists_cons_tl. constructor. vm_compute. reflexivity.
Defined.

(** ** Completeness of the "not a stabilizer" term *)

Lemma sum_mod2_pos_inv (s : list Z) :
  0 < Np.sum_mod2 s -> exists x, In x s /\ Z.odd x = true.
Proof.
  intros H.
  destruct (Forall_Exists_dec (fun x => Z.odd x = false)
              (fun x => bool_dec (Z.odd x) false) s) as [F | E].
  - rewrite sum_mod2_even in H by exact F. lia.
  - apply Exists_exists in E. destruct E as (x & Hx & Hodd).
    exists x. split; [exact Hx |]. destruct (Z.odd x); congruence.
Qed.

Lemma in_combine_nth_inv {A B : Type} (l1 : list A) :
  forall (l2 : list B) (x : A) (y : B),
    In (x, y) (combine l1 l2) ->
    exists i, nth_error l1 i = Some x /\ nth_error l2 i = Some y.
Proof.
  induction l1 as [| a l1 IH]; intros [| b l2] x y H; try contradiction.
  cbn [combine] in H. destruct H as [E | H].
  - injection E as -> ->. exists 0%nat. split; reflexivity.
  - destruct (IH l2 x y H) as (i & H1 & H2). exists (S i). split; assumption.
Qed.

(** A passed check of line 231 names a row of A whose parity with the bits
    is odd. *)
Lemma stabilizer_check_true_inv (n : nat) (st : standard) (model : list Z) :
  well_shaped n st ->
  (n <= List.length model)%nat ->
  stabilizer_check n st model = Ret true ->
  exists i a_row,
    (i < n - s_rk st)%nat /\ nth_error (rows (s_A st)) i = Some a_row /\
    xorb (parity (model_assignment model) (ones a_row))
         (model_assignment model (Z.of_nat (s_rk st) + Z.of_nat i + 1)) = true.
Proof.
  intros (Hrk & _ & _ & _ & _ & HncA & HnrA & HrectA & HbinA) Hlen H.
  set (a := model_assignment model).
  unfold stabilizer_check in H.
  set (result := positive_bits n model) in *.
  assert (Hres : List.length result = n) by (apply length_positive_bits; exact Hlen).
  set (xl := upto (s_rk st) result) in *. set (xr := from (s_rk st) result) in *.
  assert (Hxl : List.length xl = s_rk st).
  { unfold xl, upto. rewrite length_firstn. lia. }
  assert (Hxr : List.length xr = (n - s_rk st)%nat).
  { unfold xr, from. rewrite length_skipn. lia. }
  unfold Np.matvec in H. unfold as_ints at 1 in H.
  rewrite length_map, Hxl, HncA, Nat.eqb_refl in H. cbn [obind] in H.
  unfold Np.add in H.
  replace (List.length (map (fun r : list Z => Np.dot r (as_ints xl)) (rows (s_A st)))
           =? List.length (as_ints xr))%nat with true in H.
  2:{ symmetry. apply Nat.eqb_eq. unfold as_ints. rewrite !length_map.
      fold (nrows (s_A st)). lia. }
  cbn [obind] in H. injection H as H. apply Z.ltb_lt in H.
  apply sum_mod2_pos_inv in H. destruct H as (x & Hx & Hodd).
  apply in_map_iff in Hx. destruct Hx as ([u v] & <- & Hin). cbn [fst snd] in Hodd.
  apply in_combine_nth_inv in Hin. destruct Hin as (i & Hu & Hv).
  rewrite nth_error_map in Hu.
  destruct (nth_error (rows (s_A st)) i) as [a_row |] eqn:Erow; [| discriminate].
  cbn [option_map] in Hu. injection Hu as <-.
  unfold as_ints in Hv. rewrite nth_error_map in Hv.
  destruct (nth_error xr i) as [b |] eqn:Eb; [| discriminate].
  cbn [option_map] in Hv. injection Hv as <-.
  assert (Hi : (i < n - s_rk st)%nat).
  { rewrite <- Hxr. apply nth_error_Some. congruence. }
  unfold xr, from in Eb. rewrite nth_error_skipn in Eb.
  apply (nth_error_nth _ _ false) in Eb.
  unfold result in Eb. rewrite nth_positive_bits in Eb by lia. fold a in Eb.
  exists i, a_row. split; [exact Hi |]. split; [exact Erow |].
  pose proof (nth_error_In _ _ Erow) as Hrow.
  assert (Hones : parity a (ones a_row) = Z.odd (Np.dot a_row (as_ints xl))).
  { unfold ones. apply parity_ones_from.
    - lia.
    - apply (binary_row _ _ HbinA Hrow).
    - rewrite (rectangular_row _ _ HrectA Hrow), HncA, Hxl. lia.
    - intros j Hj. rewrite (rectangular_row _ _ HrectA Hrow), HncA in Hj.
      unfold xl, upto. rewrite nth_firstn.
      replace (j <? s_rk st)%nat with true by (symmetry; apply Nat.ltb_lt; lia).
      unfold result. rewrite nth_positive_bits by lia. fold a. f_equal. }
  rewrite Hones. rewrite Z.odd_add in Hodd.
  replace (Z.of_nat (s_rk st) + Z.of_nat i + 1) with (Z.of_nat (s_rk st + i) + 1) by lia.
  rewrite Eb. destruct b; exact Hodd.
Qed.

(** One pass of the loop: a model of the clauses so far that gives the
    output variable of the row its parity extends, by ancillas above the
    watermark only, to a model of the clauses after the pass. *)
Lemma not_stabilizer_loop_complete (n : nat) (st : standard) (a0 : assignment)
  (body : nat -> list clause * Z -> outcome (list clause * Z)) :
  well_shaped n st ->
  (forall idx a_row, (idx < n - s_rk st)%nat ->
     Np.row (s_A st) idx = Ret a_row ->
     a0 (Z.of_nat idx + Z.of_nat n + 1)
     = parity a0 (ones a_row ++ [Z.of_nat (s_rk st) + Z.of_nat idx + 1])) ->
  (forall idx cs anc s2, body idx (cs, anc) = Ret s2 ->
     exists a_row nc na,
       Np.row (s_A st) idx = Ret a_row /\
       pwt (ones a_row ++ [Z.of_nat (s_rk st) + Z.of_nat idx + 1])
         (Z.of_nat idx + Z.of_nat n + 1) anc = Ret (nc, na) /\
       s2 = (cs ++ nc, anc + na)) ->
  forall idxs, (forall idx, In idx idxs -> (idx < n - s_rk st)%nat) ->
  forall s s', for_each idxs body s = Ret s' ->
  forall a,
    (2 * Z.of_nat n - Z.of_nat (s_rk st) <= snd s /\
     (forall c l, In c (fst s) -> In l c -> Z.abs l <= snd s) /\
     bit_string_satisfies a (fst s) = true /\
     (forall v, v <= 2 * Z.of_nat n - Z.of_nat (s_rk st) -> a v = a0 v)) ->
  exists a',
    2 * Z.of_nat n - Z.of_nat (s_rk st) <= snd s' /\
    (forall c l, In c (fst s') -> In l c -> Z.abs l <= snd s') /\
    bit_string_satisfies a' (fst s') = true /\
    (forall v, v <= 2 * Z.of_nat n - Z.of_nat (s_rk st) -> a' v = a0 v).
Proof.
  intros (Hrk & _ & _ & _ & _ & HncA & _ & HrectA & _) Ha0 Hbody.
  induction idxs as [| idx rest IH]; intros Hidxs s s' H a Hinv.
  - cbn [for_each] in H. injection H as <-. exists a. exact Hinv.
  - cbn [for_each] in H. apply obind_Ret_inv in H. destruct H as (s1 & Hb & H).
    assert (Hidx : (idx < n - s_rk st)%nat) by (apply Hidxs; left; reflexivity).
    destruct s as [cs anc]. cbn [fst snd] in Hinv.
    destruct Hinv as (Hwm & Hlits & Hsat & Hagree).
    destruct (Hbody idx cs anc s1 Hb) as (a_row & nc & na & Hrow & Hpwt & ->).
    cbn [fst snd].
    pose proof (Ha0 idx a_row Hidx Hrow) as Hy.
    apply row_in in Hrow. destruct Hrow as [_ Hin].
    pose proof (rectangular_row _ _ HrectA Hin) as Hlr. rewrite HncA in Hlr.
    unfold pwt in Hpwt.
    pose proof (pwt_fuel_count _ _ _ _ _ _ Hpwt) as [Hk Hna].
    assert (Hrowvars : Forall (fun l => 0 < l <= Z.of_nat n)
                         (ones a_row ++ [Z.of_nat (s_rk st) + Z.of_nat idx + 1])).
    { apply Forall_app. split.
      - apply Forall_forall. intros l Hl. unfold ones in Hl.
        apply ones_from_bound in Hl. lia.
      - constructor; [lia | constructor]. }
    assert (Hbound : Forall (fun l => Z.abs l <= anc)
                       (ones a_row ++ [Z.of_nat (s_rk st) + Z.of_nat idx + 1])).
    { apply (Forall_impl (fun l => Z.abs l <= anc)) with (2 := Hrowvars).
      intros l Hl. cbv beta in Hl. lia. }
    assert (Hpar : a (Z.of_nat idx + Z.of_nat n + 1)
                   = parity a (ones a_row ++ [Z.of_nat (s_rk st) + Z.of_nat idx + 1])).
    { rewrite Hagree by lia. rewrite Hy. apply parity_agree.
      intros l Hl. rewrite Forall_forall in Hrowvars. specialize (Hrowvars l Hl).
      symmetry. apply Hagree. lia. }
    destruct (pwt_fuel_complete _ _ _ _ _ _ Hpwt Hbound ltac:(left; lia) a Hpar)
      as (a' & Hsame & Hnew).
    apply (IH (fun i Hi => Hidxs i (or_intror Hi)) _ s' H a').
    cbn [fst snd]. split; [lia |]. split; [| split].
    + intros c l Hc Hl. apply in_app_or in Hc. destruct Hc as [Hc | Hc].
      * specialize (Hlits c l Hc Hl). lia.
      * destruct (pwt_fuel_vars _ _ _ _ _ _ Hpwt c l Hc Hl) as [E | [E | E]].
        -- lia.
        -- pose proof (Forall_abs_in _ _ _ Hbound E). lia.
        -- lia.
    + rewrite satisfies_app, Hnew, andb_true_r. rewrite <- Hsat.
      apply satisfies_agree. intros c l Hc Hl. apply Hsame. left. apply (Hlits c l Hc Hl).
    + intros v Hv. rewrite Hsame by (left; lia). apply Hagree. exact Hv.
Qed.

(** X21: the "not a stabilizer" term is complete.  On a well-shaped
    standard form, whenever the first n bits of a model pass the check of
    line 231 (A @ x_left + x_right has an odd entry), the clauses of
    lines 193-200 have a model with the same values on the variables 1..n:
    together with X5, the term excludes exactly the bit strings that fail the
    check. *)
Theorem not_stabilizer_term_complete (n : nat) (st : standard) (cs : list clause)
  (anc : Z) (model : list Z) :
  well_shaped n st ->
  not_stabilizer n st = Ret (cs, anc) ->
  (n <= List.length model)%nat ->
  stabilizer_check n st model = Ret true ->
  exists a',
    (forall v, 1 <= v <= Z.of_nat n -> a' v = model_assignment model v) /\
    bit_string_satisfies a' cs = true.
Proof.
  intros Hws Hc Hlen Hcheck.
  destruct (stabilizer_check_true_inv n st model Hws Hlen Hcheck)
    as (i0 & row0 & Hi0 & Erow0 & Hodd).
  pose proof Hws as (Hrk & _ & _ & _ & _ & HncA & _ & HrectA & _).
  set (a := model_assignment model) in *.
  set (a0 := fun v : Z =>
               if (Z.of_nat n <? v) && (v <=? 2 * Z.of_nat n - Z.of_nat (s_rk st))
               then parity a
                      (ones (nth (Z.to_nat (v - Z.of_nat n - 1)) (rows (s_A st)) [])
                       ++ [Z.of_nat (s_rk st) + Z.of_nat (Z.to_nat (v - Z.of_nat n - 1)) + 1])
               else a v).
  assert (Hlow : forall v, v <= Z.of_nat n -> a0 v = a v).
  { intros v Hv. unfold a0.
    replace (Z.of_nat n <? v) with false by (symmetry; apply Z.ltb_ge; lia). reflexivity. }
  assert (Hrowvars : forall idx a_row,
            (idx < n - s_rk st)%nat -> nth_error (rows (s_A st)) idx = Some a_row ->
            Forall (fun l => 0 < l <= Z.of_nat n)
              (ones a_row ++ [Z.of_nat (s_rk st) + Z.of_nat idx + 1])).
  { intros idx a_row Hidx E. pose proof (nth_error_In _ _ E) as Hin.
    pose proof (rectangular_row _ _ HrectA Hin) as Hlr. rewrite HncA in Hlr.
    apply Forall_app. split.
    - apply Forall_forall. intros l Hl. unfold ones in Hl.
      apply ones_from_bound in Hl. lia.
    - constructor; [lia | constructor]. }
  assert (Hy : forall idx a_row,
            (idx < n - s_rk st)%nat -> nth_error (rows (s_A st)) idx = Some a_row ->
            a0 (Z.of_nat idx + Z.of_nat n + 1)
            = parity a (ones a_row ++ [Z.of_nat (s_rk st) + Z.of_nat idx + 1])).
  { intros idx a_row Hidx E. unfold a0.
    replace (Z.of_nat n <? Z.of_nat idx + Z.of_nat n + 1)
      with true by (symmetry; apply Z.ltb_lt; lia).
    replace (Z.of_nat idx + Z.of_nat n + 1 <=? 2 * Z.of_nat n - Z.of_nat (s_rk st))
      with true by (symmetry; apply Z.leb_le; lia).
    cbn [andb].
    replace (Z.to_nat (Z.of_nat idx + Z.of_nat n + 1 - Z.of_nat n - 1)) with idx by lia.
    rewrite (nth_error_nth _ _ [] E). reflexivity. }
  unfold not_stabilizer, for_range in Hc.
  match type of Hc with for_each _ ?b _ = _ => set (body := b) in * end.
  assert (HA : forall idx a_row, (idx < n - s_rk st)%nat ->
            Np.row (s_A st) idx = Ret a_row ->
            a0 (Z.of_nat idx + Z.of_nat n + 1)
            = parity a0 (ones a_row ++ [Z.of_nat (s_rk st) + Z.of_nat idx + 1])).
  { intros idx a_row Hidx Hrow. apply row_in in Hrow. destruct Hrow as [E _].
    rewrite (Hy idx a_row Hidx E). symmetry. apply parity_agree.
    intros l Hl. pose proof (Hrowvars idx a_row Hidx E) as Hv.
    rewrite Forall_forall in Hv. specialize (Hv l Hl). apply Hlow. lia. }
  assert (HB : forall idx c1 a1 s2, body idx (c1, a1) = Ret s2 ->
            exists a_row nc na,
              Np.row (s_A st) idx = Ret a_row /\
              pwt (ones a_row ++ [Z.of_nat (s_rk st) + Z.of_nat idx + 1])
                (Z.of_nat idx + Z.of_nat n + 1) a1 = Ret (nc, na) /\
              s2 = (c1 ++ nc, a1 + na)).
  { intros idx c1 a1 s2 Hb. unfold body in Hb. ret_inv Hb. ret_inv Hb.
    inversion Hb; subst.
    do 3 eexists. split; [eassumption |]. split; [eassumption | reflexivity]. }
  assert (HC : forall idx, In idx (seq 0 (n - s_rk st)) -> (idx < n - s_rk st)%nat).
  { intros idx Hidx. apply in_seq in Hidx. lia. }
  destruct (not_stabilizer_loop_complete n st a0 body Hws HA HB _ HC _ _ Hc a0)
    as (a' & _ & _ & Hsat & Hagree).
  - cbn [fst snd]. split; [lia |]. split; [| split; [| reflexivity]].
    + intros c l [<- | []] Hl. apply in_range in Hl. lia.
    + unfold bit_string_satisfies. cbn [forallb]. rewrite andb_true_r.
      unfold bit_string_or. apply existsb_exists.
      exists (Z.of_nat i0 + Z.of_nat n + 1). split; [apply in_range; lia |].
      rewrite test_condition_pos by lia. rewrite (Hy i0 row0 Hi0 Erow0).
      rewrite parity_app. unfold parity at 2. cbn [map fold_right].
      rewrite xorb_false_r, test_condition_pos by lia. exact Hodd.
  - exists a'. split; [| exact Hsat].
    intros v Hv. rewrite Hagree by lia. apply Hlow. lia.
Qed.

Lemma not_stabilizer_term_complete_witness :
  exists cs anc a',
    not_stabilizer 4 standard422 = Ret (cs, anc) /\
    (forall v, 1 <= v <= Z.of_nat 4 ->
       a' v = model_assignment [1; 2; -3; -4; -5; 6; 7; -8; -9] v) /\
    bit_string_satisfies a' cs = true.
Proof.
  destruct (not_stabilizer 4 standard422) as [[cs anc] | e | ] eqn:E;
    try (vm_compute in E; discriminate).
  destruct (not_stabilizer_term_complete 4 standard422 cs anc
              [1; 2; -3; -4; -5; 6; 7; -8; -9] standard422_shaped E)
    as (a' & H1 & H2).
  - cbn [List.length]. lia.
  - vm_compute. reflexivity.
  - exists cs, anc, a'. split; [reflexivity |]. split; assumption.
Defined.
